(** * Cerebras HUD: uncertainty analytics and request coordination

    A shallow embedding of the analytic core of the [cerebras-hud]
    editor extension:

    - [utils/cache]   : [PredictionCache] (TTL + LRU over a JavaScript [Map]),
                        [hashString], [makeCacheKey];
    - [utils/math]    : [logprobsToProbs], [calculateEntropy],
                        [calculateMargin], [calculateKL], [calculateSurprisal];
    - [api/hudClient] : [fetchEntropy], [fetchGhost], [fetchAutopanic],
                        [fetchSaliency], [buildPrefix], [clearCaches];
    - [features/saliencyLens] : the filter / sort / slice pipeline at the
                        head of [showSaliencyHighlights], the ranges and
                        colours it draws ([klToColor]);
    - [utils/math], colours   : [entropyToColor], [marginToColor];
    - [features/entropyLens]  : the guard of [highlightEntropy] and the
                        window of [applyEntropyDecoration];
    - [features/ghostToken]   : what [updateGhostToken] draws,
                        [showAmbiguityIndicator], [escapeMarkdown];
    - [features/unifiedHud]   : [logprobToCategory], [renderSaliency];
    - [extension]     : the legacy [applyDecorations] and [getColor];
    - the debounced entry points of the three features, over a table of
      pending timeouts.

    Conventions of the embedding.

    - A JavaScript [Map] is an association list in insertion order whose
      keys are pairwise distinct ([JSMap]); [Map.prototype.set] on a key
      that is present replaces the value in place and does not move the key.
    - [Date.now()] is an explicit argument [now : Z] (milliseconds).
    - Counts, sizes, cursor coordinates and timestamps are integers ([Z]).
    - Numbers that go through [Math.exp] / [Math.log] are real numbers
      ([R]): the rounding of sums and quotients, NaN and the infinities are
      not modelled.  [MathUtils] takes [Math.exp] to be the real
      exponential; [ExpMath] gives the functions that go through
      [logprobsToProbs] over any [Math.exp] that is exact at zero, never
      negative and non-decreasing, which covers an exponential that
      underflows to zero.
    - Numbers that are only compared and subtracted (the KL score carried by
      a saliency token) are rationals ([Q]), so that the pipeline computes.
    - An [async] function is cut at its suspension point into a synchronous
      prefix and a continuation; the backend's reply is an input.
    - What [response.json()] yields is a JSON value ([Json.t]): the type
      annotations are erased at run time, and [if (cached)] tests the
      stored value for truthiness.
    - A string is a sequence of code units below 256.
    - Numbers that go through [Math.floor] (colour channels) are binary64
      values held as rationals; in [entropyToColor], [marginToColor],
      [showAmbiguityIndicator] and [getColor] every arithmetic operation
      rounds to the nearest such value ([Double]); the channels are
      integers.
    - [setTimeout] / [clearTimeout] act on an explicit table of pending
      timeouts; handles are fresh natural numbers. *)

From Stdlib Require Import List String Ascii ZArith QArith Qround Qabs Qpower Bool Lia.
From Stdlib Require Import Permutation Sorted.
From Stdlib Require HexString DecimalString.
From Stdlib Require Import Reals Psatz.
Import ListNotations.

Set Implicit Arguments.

(* ================================================================== *)
(** * JavaScript [Map] with string keys *)
(* ================================================================== *)

Module JSMap.
Section WithValue.
Context {V : Type}.

Definition t := list (string * V).

Definition empty : t := [].

(** [m.get(k)]; [None] stands for [undefined]. *)
Fixpoint get (m : t) (k : string) : option V :=
  match m with
  | [] => None
  | (k', v) :: rest => if String.eqb k' k then Some v else get rest k
  end.

(** [m.has(k)] *)
Definition has (m : t) (k : string) : bool :=
  match get m k with Some _ => true | None => false end.

(** [m.set(k, v)]: a present key keeps its position, a new key goes last. *)
Fixpoint set (m : t) (k : string) (v : V) : t :=
  match m with
  | [] => [(k, v)]
  | (k', v') :: rest =>
      if String.eqb k' k then (k', v) :: rest else (k', v') :: set rest k v
  end.

(** [m.delete(k)] *)
Fixpoint delete (m : t) (k : string) : t :=
  match m with
  | [] => []
  | (k', v') :: rest =>
      if String.eqb k' k then rest else (k', v') :: delete rest k
  end.

(** [m.size] *)
Definition size (m : t) : nat := List.length m.

(** [m.keys()], [m.values()], [m.entries()] in iteration order. *)
Definition keys (m : t) : list string := map fst m.
Definition values (m : t) : list V := map snd m.
Definition entries (m : t) : list (string * V) := m.

(** [m.keys().next().value] *)
Definition first_key (m : t) : option string :=
  match m with
  | [] => None
  | (k, _) :: _ => Some k
  end.

(** Well-formedness: a [Map] holds each key once. *)
Definition wf (m : t) : Prop := NoDup (keys m).

(** The loop [for (const e of l) m.set(e.key, e.value)]. *)
Definition set_all (m : t) (l : list (string * V)) : t :=
  fold_left (fun acc e => set acc (fst e) (snd e)) l m.
End WithValue.
Arguments t : clear implicits.
End JSMap.

(* ================================================================== *)
(** * [PredictionCache] *)
(* ================================================================== *)

Module PredictionCache.
Section WithValue.
Context {T : Type}.

Record CacheEntry := mkEntry { value : T; timestamp : Z }.

Record t := mk {
  cache : JSMap.t CacheEntry;
  maxSize : Z;
  ttlMs : Z
}.

(** [new PredictionCache(maxSize, ttlMs)] *)
Definition new (maxSize ttlMs : Z) : t := mk JSMap.empty maxSize ttlMs.

(** The constructor's default arguments. *)
Definition new_default : t := new 100 2000.

Definition with_cache (c : t) (m : JSMap.t CacheEntry) : t :=
  mk m (maxSize c) (ttlMs c).

(** [size()] *)
Definition size (c : t) : Z := Z.of_nat (JSMap.size (cache c)).

(** [get(key)] at clock reading [now]; [None] stands for [undefined]. *)
Definition get (c : t) (now : Z) (key : string) : option T * t :=
  match JSMap.get (cache c) key with
  | None => (None, c)
  | Some entry =>
      if (now - timestamp entry >? ttlMs c)%Z then
        (None, with_cache c (JSMap.delete (cache c) key))
      else
        (Some (value entry),
         with_cache c (JSMap.set (JSMap.delete (cache c) key) key entry))
  end.

(** [set(key, value)] at clock reading [now]. *)
Definition set (c : t) (now : Z) (key : string) (v : T) : t :=
  let m :=
    if (size c >=? maxSize c)%Z && negb (JSMap.has (cache c) key) then
      match JSMap.first_key (cache c) with
      | Some firstKey => JSMap.delete (cache c) firstKey
      | None => cache c
      end
    else cache c in
  with_cache c (JSMap.set m key (mkEntry v now)).

(** [clear()] *)
Definition clear (c : t) : t := with_cache c JSMap.empty.

(** One call on the cache, with the clock reading it observes. *)
Inductive op :=
| OpGet (now : Z) (key : string)
| OpSet (now : Z) (key : string) (v : T)
| OpClear
| OpSize.

Definition step (c : t) (o : op) : t :=
  match o with
  | OpGet now key => snd (get c now key)
  | OpSet now key v => set c now key v
  | OpClear => clear c
  | OpSize => c
  end.

Definition run (c : t) (ops : list op) : t := fold_left step ops c.

(** The [set] calls that insert the given [(now, (key, value))] triples,
    and the keys they insert. *)
Definition inserts_ops (inserts : list (Z * (string * T))) : list op :=
map (fun x => OpSet (fst x) (fst (snd x)) (snd (snd x))) inserts.

Definition inserts_keys (inserts : list (Z * (string * T))) : list string :=
map (fun x => fst (snd x)) inserts.

(** What every state reachable from [new cap ttl] satisfies when
    [1 <= cap]. *)
Definition cache_inv (cap ttl : Z) (c : t) : Prop :=
maxSize c = cap /\ ttlMs c = ttl /\ JSMap.wf (cache c) /\ (size c <= cap)%Z.
End WithValue.
Arguments t : clear implicits.
Arguments CacheEntry : clear implicits.
Arguments op : clear implicits.
End PredictionCache.

(* ================================================================== *)
(** * [Array.prototype.sort] with a comparison function *)
(* ================================================================== *)

Module JSArray.
Section Sort.
Context {A : Type}.

(** [before a b] holds when [compareFn(a, b) <= 0]: [a] need not move
    behind [b].  The sort is stable (ECMAScript 2019), so for a comparison
    function that is a total preorder its result is the one of insertion
    from the right. *)
Variable before : A -> A -> bool.

Fixpoint insert (x : A) (l : list A) : list A :=
  match l with
  | [] => [x]
  | y :: ys => if before x y then x :: y :: ys else y :: insert x ys
  end.

Definition sort (l : list A) : list A := fold_right insert [] l.
End Sort.

(** [arr.slice(0, n)] *)
Definition slice0 {A : Type} (n : nat) (l : list A) : list A := firstn n l.
End JSArray.

(* ================================================================== *)
(** * [utils/math]: metrics over log-probabilities *)
(* ================================================================== *)

Module MathUtils.
Local Open Scope R_scope.

Record TokenProb := mkTokenProb { token : string; logprob : R }.

(** [x <= y] and [x < y] on numbers, as booleans. *)
Definition Rleb (x y : R) : bool := if Rle_dec x y then true else false.
Definition Rltb (x y : R) : bool := if Rlt_dec x y then true else false.

(** [Math.log2] *)
Definition log2 (x : R) : R := ln x / ln 2.

(** [x || d] for [x : number | undefined]: [undefined] and [0] are falsy. *)
Definition or_else (x : option R) (d : R) : R :=
  match x with
  | Some v => if Req_dec_T v 0 then d else v
  | None => d
  end.

(** [logprobsToProbs]: the early return covers the empty array, so
    [Math.max(...)] always sees at least one argument. *)
Definition logprobsToProbs (logprobs : list TokenProb) : JSMap.t R :=
  match logprobs with
  | [] => JSMap.empty
  | lp0 :: rest =>
      let maxLogprob := fold_left Rmax (map logprob rest) (logprob lp0) in
      let exps :=
        map (fun lp => (token lp, exp (logprob lp - maxLogprob))) logprobs in
      let sumExp := fold_left (fun sum e => sum + snd e) exps 0 in
      fold_left (fun probs e => JSMap.set probs (fst e) (snd e / sumExp))
                exps JSMap.empty
  end.

(** [calculateEntropy] *)
Definition calculateEntropy (probs : JSMap.t R) : R :=
  fold_left (fun entropy p => if Rltb 0 p then entropy - p * log2 p else entropy)
            (JSMap.values probs) 0.

(** [calculateEntropyFromLogprobs] *)
Definition calculateEntropyFromLogprobs (logprobs : list TokenProb) : R :=
  calculateEntropy (logprobsToProbs logprobs).

(** The comparison function [(a, b) => b.logprob - a.logprob], read as
    "[compareFn(a, b) <= 0]". *)
Definition by_logprob_desc (a b : TokenProb) : bool :=
  Rleb (logprob b - logprob a) 0.

(** [calculateMargin]; [sorted[0]] and [sorted[1]] exist on the second
    branch, the default of [nth] is never reached. *)
Definition calculateMargin (topLogprobs : list TokenProb) : R :=
  match topLogprobs with
  | [] | [_] => 1
  | d :: _ :: _ =>
      let sorted := JSArray.sort by_logprob_desc topLogprobs in
      let probs := logprobsToProbs (JSArray.slice0 2 sorted) in
      let p1 := or_else (JSMap.get probs (token (nth 0 sorted d))) 0 in
      let p2 := or_else (JSMap.get probs (token (nth 1 sorted d))) 0 in
      p1 - p2
  end.

(** [calculateKL] *)
Definition calculateKL (p q : JSMap.t R) : R :=
  fold_left (fun kl e =>
               let qVal := or_else (JSMap.get q (fst e)) 1e-10 in
               if Rltb 0 (snd e) then kl + snd e * ln (snd e / qVal) else kl)
            (JSMap.entries p) 0.

(** [calculateSurprisal] *)
Definition calculateSurprisal (tok : string) (probs : JSMap.t R) : R :=
  match JSMap.get probs tok with
  | None => 10
  | Some p => if Req_dec_T p 0 then 10 else - log2 p
  end.

(** [isAmbiguous], [isUncertain] with their default thresholds. *)
Definition isAmbiguous (margin threshold : R) : bool := Rltb margin threshold.
Definition isUncertain (entropy threshold : R) : bool := Rltb threshold entropy.
Definition isAmbiguous_default (margin : R) : bool := isAmbiguous margin 0.15.
Definition isUncertain_default (entropy : R) : bool := isUncertain entropy 2.

(** Sum of a list of numbers, used to state the guarantees. *)
Definition Rsum (l : list R) : R := fold_right Rplus 0 l.

(** The three intermediate values of [logprobsToProbs], by name:
    [maxLogprob], [sumExp], and the array of [(token, exp / sumExp)] that
    the final loop writes into the map. *)
Definition maxLogprobOf (logprobs : list TokenProb) : R :=
  match logprobs with
  | [] => 0
  | lp0 :: rest => fold_left Rmax (map logprob rest) (logprob lp0)
  end.

Definition sumExpOf (logprobs : list TokenProb) : R :=
  Rsum (map (fun lp => exp (logprob lp - maxLogprobOf logprobs)) logprobs).

Definition normalized (logprobs : list TokenProb) : list (string * R) :=
  map (fun lp => (token lp,
                  exp (logprob lp - maxLogprobOf logprobs) / sumExpOf logprobs))
      logprobs.


(** The softmax weight of a log-probability [x] among [logprobs]. *)
Definition softmax (logprobs : list TokenProb) (x : R) : R :=
  exp x / Rsum (map (fun lp => exp (logprob lp)) logprobs).

(** The last entry of [logprobs] that carries token [t]. *)
Definition last_occurrence (logprobs : list TokenProb) (t : string)
  : option TokenProb :=
  find (fun lp => String.eqb (token lp) t) (rev logprobs).



End MathUtils.

(* ================================================================== *)
(** * [utils/math] over any [Math.exp] *)
(* ================================================================== *)

(** [Math.exp] on binary64 is not the real exponential: it returns [0]
    on arguments far enough below zero, so distinct arguments can give the
    same value.  The functions that go through [logprobsToProbs] are given
    here over any function [Math_exp]; [MathUtils] above is their instance
    at the real exponential. *)
Module ExpMath.
Import MathUtils.
Local Open Scope R_scope.

Section WithExp.
Variable Math_exp : R -> R.

(** [logprobsToProbs] *)
Definition logprobsToProbs (logprobs : list TokenProb) : JSMap.t R :=
  match logprobs with
  | [] => JSMap.empty
  | lp0 :: rest =>
      let maxLogprob := fold_left Rmax (map logprob rest) (logprob lp0) in
      let exps :=
        map (fun lp => (token lp, Math_exp (logprob lp - maxLogprob))) logprobs in
      let sumExp := fold_left (fun sum e => sum + snd e) exps 0 in
      fold_left (fun probs e => JSMap.set probs (fst e) (snd e / sumExp))
                exps JSMap.empty
  end.

(** [calculateEntropyFromLogprobs] *)
Definition calculateEntropyFromLogprobs (logprobs : list TokenProb) : R :=
  calculateEntropy (logprobsToProbs logprobs).

(** [calculateMargin] *)
Definition calculateMargin (topLogprobs : list TokenProb) : R :=
  match topLogprobs with
  | [] | [_] => 1
  | d :: _ :: _ =>
      let sorted := JSArray.sort by_logprob_desc topLogprobs in
      let probs := logprobsToProbs (JSArray.slice0 2 sorted) in
      let p1 := or_else (JSMap.get probs (token (nth 0 sorted d))) 0 in
      let p2 := or_else (JSMap.get probs (token (nth 1 sorted d))) 0 in
      p1 - p2
  end.

(** The normalized weight of an entry of [logprobs]: its exponential
    after the maximum is subtracted, over the sum of all of them. *)
Definition sumExpOf (logprobs : list TokenProb) : R :=
  Rsum (map (fun lp => Math_exp (logprob lp - maxLogprobOf logprobs)) logprobs).

Definition weight (logprobs : list TokenProb) (lp : TokenProb) : R :=
  Math_exp (logprob lp - maxLogprobOf logprobs) / sumExpOf logprobs.
End WithExp.

(** What is assumed of [Math.exp]: it is exact at zero, never negative,
    and does not decrease. *)
Definition sane (Math_exp : R -> R) : Prop :=
  Math_exp 0 = 1 /\
  (forall x, 0 <= Math_exp x) /\
  (forall x y, x <= y -> Math_exp x <= Math_exp y).

(** An exponential that underflows: below [-746] the real exponential is
    less than half the smallest positive binary64 number, and [Math.exp]
    returns [0]. *)
Definition underflowing (x : R) : R :=
  if Rlt_dec x (-746) then 0 else exp x.

(** The entries of [logprobs] whose token occurs again further on: the
    final loop of [logprobsToProbs] overwrites what it wrote for them. *)
Fixpoint overwritten (logprobs : list TokenProb) : list TokenProb :=
  match logprobs with
  | [] => []
  | lp :: rest =>
      if existsb (fun later => String.eqb (token later) (token lp)) rest
      then lp :: overwritten rest
      else overwritten rest
  end.
End ExpMath.

(* ================================================================== *)
(** * [types/hud]: the backend's response shapes *)
(* ================================================================== *)

Module Types.
(** [types/logprobs]: a log-probability as it comes over the wire. *)
Record TokenProb := mkTokenProb { token : string; logprob : Q }.

Record EntropyResponse := mkEntropyResponse {
  entropy : Q;
  maxLogprob : Q;
  topLogprobs : list TokenProb;
  tokenCount : Z
}.

Record GhostResponse := mkGhostResponse {
  primary : TokenProb;
  secondary : TokenProb;
  margin : Q;
  shouldShowGhost : bool
}.

Record AutopanicResponse := mkAutopanicResponse {
  expectingClose : bool;
  closeTypes : list string;
  confidence : Q;
  topCloseToken : string;
  topCloseProb : Q
}.

Record SaliencyToken := mkSaliencyToken {
  line : Z;
  character : Z;
  klDivergence : Q;
  tokenText : string
}.

End Types.

(* ================================================================== *)
(** * [utils/cache]: [hashString] and [makeCacheKey] *)
(* ================================================================== *)

Module CacheKey.
Local Open Scope Z_scope.
Local Open Scope string_scope.

(** [ToInt32]: wrap an integer into [-2^31, 2^31). *)
Definition toInt32 (z : Z) : Z := (z + 2 ^ 31) mod 2 ^ 32 - 2 ^ 31.

(** [str.charCodeAt(i)] for every [i]; a [string] holds code units below
    256. *)
Definition charCodes (str : string) : list Z :=
  map (fun c => Z.of_N (N_of_ascii c)) (list_ascii_of_string str).

(** One turn of the loop: [hash = ((hash << 5) - hash) + char;
    hash = hash & hash]. *)
Definition hashStep (hash char : Z) : Z :=
  let hash := (toInt32 (Z.shiftl (toInt32 hash) 5) - hash) + char in
  Z.land (toInt32 hash) (toInt32 hash).

(** [n.toString(16)] for an integer [n]. *)
Definition toString16 (n : Z) : string :=
  match n with
  | Z0 => "0"
  | Zpos p => HexString.Raw.of_pos p ""
  | Zneg p => "-" ++ HexString.Raw.of_pos p ""
  end.

(** [String(n)] for an integer [n], as a template literal prints it. *)
Definition toString10 (n : Z) : string :=
  match n with
  | Z0 => "0"
  | Zpos p => DecimalString.NilZero.string_of_uint (Pos.to_uint p)
  | Zneg p => "-" ++ DecimalString.NilZero.string_of_uint (Pos.to_uint p)
  end.

Definition hashString (str : string) : string :=
  toString16 (fold_left hashStep (charCodes str) 0).

Definition makeCacheKey (feature prefix : string) : string :=
  feature ++ ":" ++ hashString prefix.
End CacheKey.

(* ================================================================== *)
(** * The values [response.json()] can yield *)
(* ================================================================== *)

Module Json.
(** A parsed JSON value.  The TypeScript annotations of the fetch
    functions are erased at run time: what is stored and returned is
    whatever the reply's body parses to. *)
#[warnings="-register-all"] Inductive t :=
| Null
| Bool (b : bool)
| Number (q : Q)
| Str (s : string)
| Array (items : list t)
| Object (fields : list (string * t)).

(** JavaScript truthiness: [null], [false], [0] and the empty string are
    falsy; arrays and objects are truthy. *)
Definition truthy (v : t) : bool :=
  match v with
  | Null => false
  | Bool b => b
  | Number q => negb (Qeq_bool q 0)
  | Str s => negb (String.eqb s EmptyString)
  | Array _ => true
  | Object _ => true
  end.

(** [if (cached)] for [cached : t | undefined]: the value on which the
    branch is taken, if it is. *)
Definition if_truthy (cached : option t) : option t :=
  match cached with
  | Some v => if truthy v then Some v else None
  | None => None
  end.

(** What a caller sees of a fetch function's result: [None] is the [null]
    of the [catch] block, [Some v] the reply's value, itself possibly
    [null]. *)
Definition of_result (r : option t) : t :=
  match r with
  | Some v => v
  | None => Null
  end.
End Json.

(* ================================================================== *)
(** * [api/hudClient] *)
(* ================================================================== *)

Module HudClient.
Import Types.
Local Open Scope Z_scope.
Local Open Scope string_scope.

Definition newline : string := String "010"%char EmptyString.

(** [code.split('\n')] *)
Fixpoint split_lines (code : string) : list string :=
  match code with
  | EmptyString => [""]
  | String c rest =>
      if Ascii.eqb c "010"%char then "" :: split_lines rest
      else match split_lines rest with
           | l :: ls => String c l :: ls
           | [] => [String c ""]
           end
  end.

(** [lines.join('\n')] *)
Definition join_lines (lines : list string) : string :=
  String.concat newline lines.

(** [buildPrefix] *)
Definition buildPrefix (lines : list string) (cursorLine cursorChar : Z)
  : string :=
  let targetLine := cursorLine - 1 in
  if (targetLine <? 0)%Z then ""
  else if (targetLine >=? Z.of_nat (List.length lines))%Z then join_lines lines
  else
    let beforeCursor :=
      String.substring 0 (Z.to_nat cursorChar)
                       (nth (Z.to_nat targetLine) lines "") in
    let prefixLines :=
      (firstn (Z.to_nat targetLine) lines ++ [beforeCursor])%list in
    join_lines prefixLines.

(** A request handed to [fetch]: the endpoint and the JSON body. *)
Inductive Request :=
| PostEntropy (prefix uri : string)
| PostGhost (prefix uri : string)
| PostAutopanic (prefix uri : string)
| PostSaliency (code uri : string) (cursorLine cursorChar : Z).

(** What comes back from [fetch] and [response.json()]. *)
Inductive Reply (T : Type) :=
| TransportError
| Response (ok : bool) (status : Z) (body : option T).
Arguments TransportError {T}.
Arguments Response {T}.

(** The backend call failed: the transport broke or the status is not 2xx. *)
Definition failed {T : Type} (r : Reply T) : bool :=
  match r with
  | TransportError => true
  | Response ok _ _ => negb ok
  end.

(** The module's state: one cache per feature, and the requests handed to
    [fetch] so far, oldest first. *)
Record State := mkState {
  entropyCache : PredictionCache.t Json.t;
  ghostCache : PredictionCache.t Json.t;
  autopanicCache : PredictionCache.t Json.t;
  saliencyCache : PredictionCache.t Json.t;
  sent : list Request
}.

Definition init : State :=
  mkState (PredictionCache.new 50 1500) (PredictionCache.new 50 1000)
          (PredictionCache.new 30 800) (PredictionCache.new 10 5000) [].

Definition with_entropyCache (s : State) c : State :=
  mkState c (ghostCache s) (autopanicCache s) (saliencyCache s) (sent s).
Definition with_ghostCache (s : State) c : State :=
  mkState (entropyCache s) c (autopanicCache s) (saliencyCache s) (sent s).
Definition with_autopanicCache (s : State) c : State :=
  mkState (entropyCache s) (ghostCache s) c (saliencyCache s) (sent s).
Definition with_saliencyCache (s : State) c : State :=
  mkState (entropyCache s) (ghostCache s) (autopanicCache s) c (sent s).
Definition send (s : State) (r : Request) : State :=
  mkState (entropyCache s) (ghostCache s) (autopanicCache s) (saliencyCache s)
          (sent s ++ [r])%list.

(** Where an [async] fetch function stands after its synchronous prefix:
    it has returned the cached value, or it has handed a request to
    [fetch] and waits for the reply, holding [cacheKey].  The test
    [if (cached) return cached] is one of truthiness: a lookup that hits
    a falsy value goes on to the backend like a miss. *)
Inductive Pending (T : Type) :=
| Returned (v : T)
| Awaiting (cacheKey : string).
Arguments Returned {T}.
Arguments Awaiting {T}.

(** The part of each fetch function after [await fetch(...)]: the [try]
    block's remainder and the [catch].  The result [None] is the [null]
    the [catch] returns; a body is [None] when [response.json()] rejects
    and otherwise the value it parses to, which is stored and returned
    whatever it is. *)
Definition settle {T : Type} (cache : PredictionCache.t T) (now : Z)
           (cacheKey : string) (reply : Reply T)
  : option T * PredictionCache.t T :=
  match reply with
  | TransportError => (None, cache)
  | Response ok _ body =>
      if negb ok then (None, cache)
      else match body with
           | None => (None, cache)
           | Some data => (Some data, PredictionCache.set cache now cacheKey data)
           end
  end.

(** [fetchEntropy], up to [await fetch]. *)
Definition fetchEntropy_start (s : State) (now : Z)
           (code uri : string) (cursorLine cursorChar : Z)
  : Pending Json.t * State :=
  let lines := split_lines code in
  let prefix := buildPrefix lines cursorLine cursorChar in
  let cacheKey := CacheKey.makeCacheKey "entropy" prefix in
  let (cached, c) := PredictionCache.get (entropyCache s) now cacheKey in
  match Json.if_truthy cached with
  | Some v => (Returned v, with_entropyCache s c)
  | None => (Awaiting cacheKey,
             send (with_entropyCache s c) (PostEntropy prefix uri))
  end.

(** [fetchEntropy], from the reply on. *)
Definition fetchEntropy_finish (s : State) (now : Z) (cacheKey : string)
           (reply : Reply Json.t)
  : option Json.t * State :=
  let (r, c) := settle (entropyCache s) now cacheKey reply in
  (r, with_entropyCache s c).

Definition fetchGhost_start (s : State) (now : Z)
           (code uri : string) (cursorLine cursorChar : Z)
  : Pending Json.t * State :=
  let lines := split_lines code in
  let prefix := buildPrefix lines cursorLine cursorChar in
  let cacheKey := CacheKey.makeCacheKey "ghost" prefix in
  let (cached, c) := PredictionCache.get (ghostCache s) now cacheKey in
  match Json.if_truthy cached with
  | Some v => (Returned v, with_ghostCache s c)
  | None => (Awaiting cacheKey,
             send (with_ghostCache s c) (PostGhost prefix uri))
  end.

Definition fetchGhost_finish (s : State) (now : Z) (cacheKey : string)
           (reply : Reply Json.t)
  : option Json.t * State :=
  let (r, c) := settle (ghostCache s) now cacheKey reply in
  (r, with_ghostCache s c).

Definition fetchAutopanic_start (s : State) (now : Z)
           (code uri : string) (cursorLine cursorChar : Z)
  : Pending Json.t * State :=
  let lines := split_lines code in
  let prefix := buildPrefix lines cursorLine cursorChar in
  let cacheKey := CacheKey.makeCacheKey "autopanic" prefix in
  let (cached, c) := PredictionCache.get (autopanicCache s) now cacheKey in
  match Json.if_truthy cached with
  | Some v => (Returned v, with_autopanicCache s c)
  | None => (Awaiting cacheKey,
             send (with_autopanicCache s c) (PostAutopanic prefix uri))
  end.

Definition fetchAutopanic_finish (s : State) (now : Z) (cacheKey : string)
           (reply : Reply Json.t)
  : option Json.t * State :=
  let (r, c) := settle (autopanicCache s) now cacheKey reply in
  (r, with_autopanicCache s c).

Definition fetchSaliency_start (s : State) (now : Z)
           (code uri : string) (cursorLine cursorChar : Z)
  : Pending Json.t * State :=
  let cacheKey :=
    CacheKey.makeCacheKey
      "saliency"
      (uri ++ ":" ++ CacheKey.toString10 cursorLine ++ ":"
           ++ CacheKey.toString10 cursorChar) in
  let (cached, c) := PredictionCache.get (saliencyCache s) now cacheKey in
  match Json.if_truthy cached with
  | Some v => (Returned v, with_saliencyCache s c)
  | None => (Awaiting cacheKey,
             send (with_saliencyCache s c)
                  (PostSaliency code uri cursorLine cursorChar))
  end.

Definition fetchSaliency_finish (s : State) (now : Z) (cacheKey : string)
           (reply : Reply Json.t)
  : option Json.t * State :=
  let (r, c) := settle (saliencyCache s) now cacheKey reply in
  (r, with_saliencyCache s c).

(** A fetch function run from call to return with nothing in between:
    [now] is the clock at the lookup, [later] the clock when the reply is
    stored. *)
Definition run_fetch {T : Type}
           (start : State -> Z -> string -> string -> Z -> Z -> Pending T * State)
           (finish : State -> Z -> string -> Reply T -> option T * State)
           (s : State) (now later : Z) (code uri : string)
           (cursorLine cursorChar : Z) (reply : Reply T)
  : option T * State :=
  match start s now code uri cursorLine cursorChar with
  | (Returned v, s') => (Some v, s')
  | (Awaiting cacheKey, s') => finish s' later cacheKey reply
  end.

Definition fetchEntropy := run_fetch fetchEntropy_start fetchEntropy_finish.
Definition fetchGhost := run_fetch fetchGhost_start fetchGhost_finish.
Definition fetchAutopanic := run_fetch fetchAutopanic_start fetchAutopanic_finish.
Definition fetchSaliency := run_fetch fetchSaliency_start fetchSaliency_finish.

(** What the lookup at the head of a fetch function does to the cache
    when the function goes on to the backend: nothing when the key is
    absent; an entry of the key older than the TTL is dropped; a live
    entry of the key, which then holds a falsy value, is moved to the
    most recent position.  Nothing else changes. *)
Definition lookup_effect (c c' : PredictionCache.t Json.t)
           (now : Z) (key : string) : Prop :=
  match JSMap.get (PredictionCache.cache c) key with
  | None => c' = c
  | Some e =>
      if (now - PredictionCache.timestamp e >? PredictionCache.ttlMs c)%Z then
        c' = PredictionCache.with_cache
               c (JSMap.delete (PredictionCache.cache c) key)
      else
        Json.truthy (PredictionCache.value e) = false /\
        c' = PredictionCache.with_cache
               c (JSMap.set (JSMap.delete (PredictionCache.cache c) key) key e)
  end.

(** No entry of [c'] is new: whatever [c'] holds under a key, [c] held
    under that key, with the same value and timestamp. *)
Definition nothing_added (c c' : PredictionCache.t Json.t) : Prop :=
  forall k e,
    JSMap.get (PredictionCache.cache c') k = Some e ->
    JSMap.get (PredictionCache.cache c) k = Some e.

(** A fetch function, given as its two halves over the cache [cacheOf],
    caches nothing when the backend call fails:
    - the half that receives the failed reply returns [null] and leaves the
      whole state as it found it;
    - so a call that went to the backend returns [null] and ends in the
      state in which its request was sent;
    - and that state's cache differs from the one before the call by
      [lookup_effect] only, which adds no entry. *)
Definition failure_caches_nothing
           (cacheOf : State -> PredictionCache.t Json.t)
           (start : State -> Z -> string -> string -> Z -> Z
                    -> Pending Json.t * State)
           (finish : State -> Z -> string -> Reply Json.t
                     -> option Json.t * State)
  : Prop :=
  (forall s later cacheKey reply,
     failed reply = true -> finish s later cacheKey reply = (None, s)) /\
  (forall s now later code uri cursorLine cursorChar reply cacheKey,
     JSMap.wf (PredictionCache.cache (cacheOf s)) ->
     failed reply = true ->
     fst (start s now code uri cursorLine cursorChar) = Awaiting cacheKey ->
     run_fetch start finish s now later code uri cursorLine cursorChar reply
     = (None, snd (start s now code uri cursorLine cursorChar)) /\
     lookup_effect (cacheOf s)
                   (cacheOf (snd (start s now code uri cursorLine cursorChar)))
                   now cacheKey /\
     nothing_added (cacheOf s)
                   (cacheOf (snd (start s now code uri cursorLine cursorChar)))).

(** [clearCaches] *)
Definition clearCaches (s : State) : State :=
  mkState (PredictionCache.clear (entropyCache s))
          (PredictionCache.clear (ghostCache s))
          (PredictionCache.clear (autopanicCache s))
          (PredictionCache.clear (saliencyCache s))
          (sent s).
End HudClient.

(* ================================================================== *)
(** * [features/entropyLens]: the in-flight guard of [highlightEntropy] *)
(* ================================================================== *)

Module EntropyLens.
Import Types.
Local Open Scope Z_scope.

Definition DEBOUNCE_MS : Z := 150.

(** What [highlightEntropy] reads from [vscode.window.activeTextEditor]:
    the document's text and URI and the cursor, [position.line] counted
    from 0. *)
Record Editor := mkEditor {
  text : string;
  uri : string;
  positionLine : Z;
  positionCharacter : Z
}.

(** The module's variables that steer [highlightEntropy], and the client
    below it.  Decorations are rendering and are left out. *)
Record State := mkState {
  entropyEnabled : bool;
  isAnalyzing : bool;
  client : HudClient.State
}.

Definition init : State := mkState true false HudClient.init.

(** Where a call of [highlightEntropy] stands after its synchronous
    prefix: it returned at one of the guards; it ran to its end on a cached
    value, which is truthy (the [await] of a settled promise lets no timer
    callback in between); or it waits for the backend's reply. *)
Inductive Progress :=
| Skipped
| Finished (data : Json.t)
| Waiting (cacheKey : string).

(** [highlightEntropy], up to the reply. *)
Definition highlightEntropy_start (s : State) (now : Z)
           (activeTextEditor : option Editor) : Progress * State :=
  if negb (entropyEnabled s) then (Skipped, s)
  else if isAnalyzing s then (Skipped, s)
  else
    match activeTextEditor with
    | None => (Skipped, s)
    | Some editor =>
        match HudClient.fetchEntropy_start
                (client s) now (text editor) (uri editor)
                (positionLine editor + 1) (positionCharacter editor) with
        | (HudClient.Returned data, c) =>
            (Finished data, mkState (entropyEnabled s) false c)
        | (HudClient.Awaiting cacheKey, c) =>
            (Waiting cacheKey, mkState (entropyEnabled s) true c)
        end
    end.

(** [highlightEntropy], from the reply on: the result of [fetchEntropy]
    and the [finally] block. *)
Definition highlightEntropy_finish (s : State) (now : Z) (cacheKey : string)
           (reply : HudClient.Reply Json.t)
  : option Json.t * State :=
  let (data, c) := HudClient.fetchEntropy_finish (client s) now cacheKey reply in
  (data, mkState (entropyEnabled s) false c).
End EntropyLens.

(* ================================================================== *)
(** * [features/saliencyLens] *)
(* ================================================================== *)

Module SaliencyLens.
Import Types.
Local Open Scope Z_scope.

Definition SALIENCY_DEBOUNCE_MS : Z := 500.
Definition MAX_DISPLAY_TOKENS : nat := 5.
Definition KL_THRESHOLD : Q := 0.05.

(** The predicate of the [filter]: [t.klDivergence >= KL_THRESHOLD]. *)
Definition is_salient (t : SaliencyToken) : bool :=
  Qle_bool KL_THRESHOLD (klDivergence t).

(** The comparison function [(a, b) => b.klDivergence - a.klDivergence],
    read as "[compareFn(a, b) <= 0]". *)
Definition by_kl_desc (a b : SaliencyToken) : bool :=
  Qle_bool (klDivergence b - klDivergence a) 0.

(** [salientTokens]: the filter, sort and slice that open
    [showSaliencyHighlights]. *)
Definition salientTokens (tokens : list SaliencyToken) : list SaliencyToken :=
  JSArray.slice0 MAX_DISPLAY_TOKENS
                 (JSArray.sort by_kl_desc (filter is_salient tokens)).

Record Range := mkRange {
  startLine : Z; startChar : Z; endLine : Z; endChar : Z
}.

(** The body of the loop for one token: the highlighted range, or [None]
    when the token is skipped.  [document] is the editor's text by line. *)
Definition highlightRange (document : list string) (token : SaliencyToken)
  : option Range :=
  let line := line token - 1 in
  let char := character token in
  if (line <? 0) || (line >=? Z.of_nat (List.length document)) then None
  else
    let lineText := nth (Z.to_nat line) document EmptyString in
    let tokenLength := Z.of_nat (String.length (tokenText token)) in
    if (char <? 0) || (char + tokenLength >? Z.of_nat (String.length lineText))
    then None
    else Some (mkRange line char line (char + tokenLength)).

(** The ranges [showSaliencyHighlights] decorates, in order. *)
Definition showSaliencyHighlights (document : list string)
           (tokens : list SaliencyToken) : list Range :=
  flat_map (fun token =>
              match highlightRange document token with
              | Some r => [r]
              | None => []
              end)
           (salientTokens tokens).
End SaliencyLens.

(* ================================================================== *)
(** * [Math.min], [Math.max], [Math.floor] on rationals *)
(* ================================================================== *)

Module JSMath.
Local Open Scope Q_scope.

(** [a < b] on numbers, as a boolean. *)
Definition Qltb (a b : Q) : bool := negb (Qle_bool b a).

Definition min (a b : Q) : Q := if Qle_bool a b then a else b.
Definition max (a b : Q) : Q := if Qle_bool a b then b else a.
Definition floor (x : Q) : Z := Qfloor x.
End JSMath.

(* ================================================================== *)
(** * Arithmetic on numbers *)
(* ================================================================== *)

(** A number is a finite binary64 value, held as the rational it denotes.
    [+], [-], [*] and [/] return the exact result rounded to the nearest
    such value, ties to the even significand; a decimal literal that is
    not such a value denotes the one nearest to it.  Comparisons,
    [Math.min], [Math.max], [Math.abs] and [Math.floor] are exact.
    Overflow to [Infinity], [NaN] and the sign of zero are left out: in
    the functions that use this module a quotient large enough to overflow
    only ever meets [Math.min(1, ...)] or [Math.max(0, ...)], which treat
    it as they treat [Infinity]. *)
Module Double.
Local Open Scope Q_scope.

Definition pow2 (e : Z) : Q := 2 ^ e.

(** For [0 < a], the exponent [e] with [2^e <= a < 2^(e+1)]. *)
Definition log2_floor (a : Q) : Z :=
  let e := (Z.log2 (Qnum a) - Z.log2 (Zpos (Qden a)))%Z in
  if Qle_bool (pow2 e) a then e else (e - 1)%Z.

(** The exponent of the unit in the last place of the values around [a]:
    53 bits of significand, and no finer than [2^-1074]. *)
Definition ulp_exp (a : Q) : Z := Z.max (log2_floor a - 52) (-1074).

(** The integer nearest to [x], the even one of two that are as near. *)
Definition rne (x : Q) : Z :=
  let f := Qfloor x in
  match Qcompare (x - inject_Z f) (1 # 2) with
  | Lt => f
  | Gt => (f + 1)%Z
  | Eq => if Z.even f then f else (f + 1)%Z
  end.

Definition round_pos (a : Q) : Q :=
  let e := ulp_exp a in Qred (inject_Z (rne (a / pow2 e)) * pow2 e).

(** The binary64 value nearest to [x]. *)
Definition round (x : Q) : Q :=
  match Qnum x with
  | Z0 => 0
  | Zpos _ => round_pos x
  | Zneg _ => - round_pos (- x)
  end.

Definition add (x y : Q) : Q := round (x + y).
Definition sub (x y : Q) : Q := round (x - y).
Definition mul (x y : Q) : Q := round (x * y).
Definition div (x y : Q) : Q := round (x / y).
End Double.

(* ================================================================== *)
(** * [utils/math]: colours for the heatmaps *)
(* ================================================================== *)

Module Metrics.
Import JSMath.
Local Open Scope Q_scope.
Local Open Scope string_scope.

(** What [entropyToColor] returns: the keyword [transparent], or the
    arguments of [rgba(r, g, b, alpha)].  The three channels are integers;
    [alpha] is a number and its decimal rendering is left to the printer.
    The sums and differences of a small integer and a [Math.floor] are
    exact and are taken in [Z]. *)
Inductive Color :=
| Transparent
| Rgba (r g b : Z) (alpha : Q).

(** [entropyToColor] *)
Definition entropyToColor (entropy : Q) : Color :=
  if Qltb entropy 0.5 then Transparent
  else
    let t := max 0 (min 1 (Double.div (Double.sub entropy 0.5) 3.5)) in
    let alpha := Double.mul t 0.25 in
    if Qltb t 0.5 then
      let localT := Double.mul t 2 in
      let r := floor (Double.mul localT 100) in
      let g := floor (Double.add 100 (Double.mul localT 50)) in
      let b := 200%Z in
      Rgba r g b alpha
    else
      let localT := Double.mul (Double.sub t 0.5) 2 in
      let r := (100 + floor (Double.mul localT 155))%Z in
      let g := (150 - floor (Double.mul localT 100))%Z in
      let b := (200 - floor (Double.mul localT 200))%Z in
      Rgba r g b alpha.

(** The template [`rgb(${r}, ${g}, ${b})`] on integers. *)
Definition rgb (r g b : Z) : string :=
  "rgb(" ++ CacheKey.toString10 r ++ ", " ++ CacheKey.toString10 g ++ ", "
         ++ CacheKey.toString10 b ++ ")".

(** The three channels [marginToColor] computes. *)
Definition marginChannels (margin : Q) : Z * Z * Z :=
  let t := max 0 (min 1 margin) in
  let r := floor (Double.mul (Double.sub 1 t) 255) in
  let g := floor (Double.mul t 255) in
  let b := 0%Z in
  (r, g, b).

(** [marginToColor] *)
Definition marginToColor (margin : Q) : string :=
  let '(r, g, b) := marginChannels margin in rgb r g b.
End Metrics.

(* ================================================================== *)
(** * [features/saliencyLens]: colours of the highlights *)
(* ================================================================== *)

Module SaliencyColors.
Import Types JSMath SaliencyLens.
Local Open Scope Q_scope.
Local Open Scope string_scope.

(** The template [`rgba(${r}, ${g}, ${b}, 0.4)`] on integers. *)
Definition rgba04 (r g b : Z) : string :=
  "rgba(" ++ CacheKey.toString10 r ++ ", " ++ CacheKey.toString10 g ++ ", "
          ++ CacheKey.toString10 b ++ ", 0.4)".

(** The three channels [klToColor] computes. *)
Definition klChannels (intensity : Q) : Z * Z * Z :=
  let t := max 0 (min 1 intensity) in
  if Qltb t 0.33 then
    let localT := t * 3 in
    let r := 0%Z in
    let g := floor (localT * 200) in
    let b := 255%Z in
    (r, g, b)
  else if Qltb t 0.66 then
    let localT := (t - 0.33) * 3 in
    let r := floor (localT * 180) in
    let g := (200 - floor (localT * 150))%Z in
    let b := 255%Z in
    (r, g, b)
  else
    let localT := (t - 0.66) * 3 in
    let r := (180 + floor (localT * 75))%Z in
    let g := (50 - floor (localT * 50))%Z in
    let b := 255%Z in
    (r, g, b).

(** [klToColor] *)
Definition klToColor (intensity : Q) : string :=
  let '(r, g, b) := klChannels intensity in rgba04 r g b.

(** The decorations [showSaliencyHighlights] creates, in order: for each
    retained token that passes the position checks, its range and its
    background colour [klToColor(token.klDivergence / maxKL)], where
    [maxKL] is the score of the first retained token. *)
Definition saliencyDecorations (document : list string)
           (tokens : list SaliencyToken) : list (Range * string) :=
  match salientTokens tokens with
  | [] => []
  | (first :: _) as salient =>
      let maxKL := klDivergence first in
      flat_map (fun token =>
                  match highlightRange document token with
                  | Some range =>
                      let intensity := klDivergence token / maxKL in
                      [(range, klToColor intensity)]
                  | None => []
                  end)
               salient
  end.
End SaliencyColors.

(* ================================================================== *)
(** * [features/entropyLens]: the window [applyEntropyDecoration] paints *)
(* ================================================================== *)

Module EntropyWindow.
Local Open Scope Z_scope.

Definition ENTROPY_WINDOW_SIZE : Z := 100.

(** [document.lineAt(line).text.length] *)
Definition lineLength (document : list string) (line : nat) : Z :=
  Z.of_nat (String.length (nth line document EmptyString)).

(** The [while] loop of [applyEntropyDecoration], entered at [startLine]
    with [remainingChars > 0].  A turn either breaks or moves one line up,
    and it moves up only when [remainingChars > 0] still holds, so the
    loop condition is true again at the next turn: the recursion is on
    [startLine].  The result is [(startLine, startChar)] at the [break]. *)
Fixpoint walkBack (document : list string) (cursorLine startLine : nat)
         (startChar remainingChars : Z) : nat * Z :=
  let lineLength := lineLength document startLine in
  let charsInLine :=
    if Nat.eqb startLine cursorLine then Z.min startChar remainingChars
    else Z.min lineLength remainingChars in
  let remainingChars := remainingChars - charsInLine in
  let stop :=
    (startLine,
     if Nat.eqb startLine cursorLine then Z.max 0 (startChar - charsInLine)
     else lineLength - charsInLine) in
  match startLine with
  | S previous =>
      if remainingChars >? 0 then
        walkBack document cursorLine previous
                 (EntropyWindow.lineLength document previous) remainingChars
      else stop
  | O => stop
  end.

(** The start position of the decorated range; its end is the cursor. *)
Definition rangeStart (document : list string) (cursorLine : nat)
           (cursorChar : Z) : nat * Z :=
  let (startLine, startChar) :=
    walkBack document cursorLine cursorLine cursorChar ENTROPY_WINDOW_SIZE in
  (Nat.max 0 startLine, Z.max 0 startChar).

(** The number of characters, line breaks not counted, that precede
    column [char] of line [line]. *)
Fixpoint charsAbove (document : list string) (line : nat) : Z :=
  match line with
  | O => 0
  | S previous => charsAbove document previous + lineLength document previous
  end.

Definition charsBefore (document : list string) (line : nat) (char : Z) : Z :=
  charsAbove document line + char.
End EntropyWindow.

(* ================================================================== *)
(** * The features' debounced entry points *)
(* ================================================================== *)

Module Debounce.
Local Open Scope Z_scope.

(** The callbacks the three features hand to [setTimeout]. *)
Inductive Callback := HighlightEntropy | UpdateGhostToken | UpdateSaliency.

Definition Callback_eqb (a b : Callback) : bool :=
  match a, b with
  | HighlightEntropy, HighlightEntropy => true
  | UpdateGhostToken, UpdateGhostToken => true
  | UpdateSaliency, UpdateSaliency => true
  | _, _ => false
  end.

(** A pending timeout of the runtime: the handle [setTimeout] returned,
    the time at which it becomes due, and what it will call. *)
Record Timer := mkTimer { handle : nat; due : Z; callback : Callback }.

(** The runtime's table of pending timeouts with its next fresh handle,
    and the module variables [entropyTimeout] (entropyLens), [ghostTimeout]
    (ghostToken), [saliencyTimeout] and [saliencyEnabled] (saliencyLens).
    A handle is truthy, [null] is [None]. *)
Record State := mkState {
  timers : list Timer;
  nextHandle : nat;
  entropyTimeout : option nat;
  ghostTimeout : option nat;
  saliencyTimeout : option nat;
  saliencyEnabled : bool
}.

Definition init : State := mkState [] 1 None None None false.

(** [ghostToken]'s [DEBOUNCE_MS]. *)
Definition GHOST_DEBOUNCE_MS : Z := 100.

(** [setTimeout(callback, delay)] called at time [now]. *)
Definition setTimeout (s : State) (cb : Callback) (now delay : Z) : nat * State :=
  (nextHandle s,
   mkState (timers s ++ [mkTimer (nextHandle s) (now + delay) cb])
           (S (nextHandle s))
           (entropyTimeout s) (ghostTimeout s) (saliencyTimeout s)
           (saliencyEnabled s)).

(** [clearTimeout(h)]: the timeout leaves the table; nothing happens when
    it is no longer there. *)
Definition clearTimeout (s : State) (h : nat) : State :=
  mkState (filter (fun t => negb (Nat.eqb (handle t) h)) (timers s))
          (nextHandle s)
          (entropyTimeout s) (ghostTimeout s) (saliencyTimeout s)
          (saliencyEnabled s).

(** [debouncedEntropyHighlight] *)
Definition debouncedEntropyHighlight (s : State) (now : Z) : State :=
  let s := match entropyTimeout s with
           | Some h => clearTimeout s h
           | None => s
           end in
  let (h, s) := setTimeout s HighlightEntropy now EntropyLens.DEBOUNCE_MS in
  mkState (timers s) (nextHandle s)
          (Some h) (ghostTimeout s) (saliencyTimeout s) (saliencyEnabled s).

(** [debouncedGhostUpdate] *)
Definition debouncedGhostUpdate (s : State) (now : Z) : State :=
  let s := match ghostTimeout s with
           | Some h => clearTimeout s h
           | None => s
           end in
  let (h, s) := setTimeout s UpdateGhostToken now GHOST_DEBOUNCE_MS in
  mkState (timers s) (nextHandle s)
          (entropyTimeout s) (Some h) (saliencyTimeout s) (saliencyEnabled s).

(** [debouncedSaliencyUpdate] *)
Definition debouncedSaliencyUpdate (s : State) (now : Z) : State :=
  if negb (saliencyEnabled s) then s
  else
    let s := match saliencyTimeout s with
             | Some h => clearTimeout s h
             | None => s
             end in
    let (h, s) :=
      setTimeout s UpdateSaliency now SaliencyLens.SALIENCY_DEBOUNCE_MS in
    mkState (timers s) (nextHandle s)
            (entropyTimeout s) (ghostTimeout s) (Some h) (saliencyEnabled s).

Definition with_saliencyEnabled (s : State) (b : bool) : State :=
  mkState (timers s) (nextHandle s)
          (entropyTimeout s) (ghostTimeout s) (saliencyTimeout s) b.

(** [toggleSaliency]; [editor] tells whether an editor is active.
    Clearing the decorations touches no timer. *)
Definition toggleSaliency (s : State) (now : Z) (editor : bool) : State :=
  let s := with_saliencyEnabled s (negb (saliencyEnabled s)) in
  if editor then
    if saliencyEnabled s then debouncedSaliencyUpdate s now else s
  else s.

(** [runSaliencyNow] *)
Definition runSaliencyNow (s : State) (now : Z) : State :=
  debouncedSaliencyUpdate (with_saliencyEnabled s true) now.

(** The runtime fires the timeout [h] at time [now]: possible when it is
    pending and due; it leaves the table and its callback is called.  The
    three callbacks set no timer and write none of the variables above. *)
Definition fire (s : State) (now : Z) (h : nat) : option (Callback * State) :=
  match find (fun t => Nat.eqb (handle t) h) (timers s) with
  | Some t =>
      if due t <=? now then Some (callback t, clearTimeout s h) else None
  | None => None
  end.

(** What can happen to the state, one event at a time. *)
Inductive Event :=
| DebouncedEntropyHighlight (now : Z)
| DebouncedGhostUpdate (now : Z)
| DebouncedSaliencyUpdate (now : Z)
| ToggleSaliency (now : Z) (editor : bool)
| RunSaliencyNow (now : Z)
| Fire (now : Z) (h : nat).

Definition step (s : State) (e : Event) : State :=
  match e with
  | DebouncedEntropyHighlight now => debouncedEntropyHighlight s now
  | DebouncedGhostUpdate now => debouncedGhostUpdate s now
  | DebouncedSaliencyUpdate now => debouncedSaliencyUpdate s now
  | ToggleSaliency now editor => toggleSaliency s now editor
  | RunSaliencyNow now => runSaliencyNow s now
  | Fire now h => match fire s now h with
                  | Some (_, s') => s'
                  | None => s
                  end
  end.

Definition run (s : State) (events : list Event) : State :=
  fold_left step events s.

(** The pending timeouts that will call [cb]. *)
Definition pendingFor (cb : Callback) (s : State) : list Timer :=
  filter (fun t => Callback_eqb (callback t) cb) (timers s).

(** The variable in which a feature keeps the handle of its timeout. *)
Definition timeoutOf (s : State) (cb : Callback) : option nat :=
  match cb with
  | HighlightEntropy => entropyTimeout s
  | UpdateGhostToken => ghostTimeout s
  | UpdateSaliency => saliencyTimeout s
  end.

(** Handles are fresh and distinct, and a feature's pending timeout is the
    one its variable names. *)
Definition consistent (s : State) : Prop :=
  (forall t, In t (timers s) -> (handle t < nextHandle s)%nat) /\
  NoDup (map handle (timers s)) /\
  (forall t, In t (timers s) -> timeoutOf s (callback t) = Some (handle t)).
End Debounce.

(* ================================================================== *)
(** * [features/unifiedHud]: the category of a log-probability *)
(* ================================================================== *)

Module UnifiedHud.
Import JSMath.
Local Open Scope Q_scope.

(** A bound of [LOGPROB_RANGES]: a number, [-Infinity] or [Infinity]. *)
Inductive Bound := NegInfinity | Finite (q : Q) | Infinity.

(** [x >= b] and [x < b] for a finite number [x]. *)
Definition geBound (x : Q) (b : Bound) : bool :=
  match b with
  | NegInfinity => true
  | Finite q => Qle_bool q x
  | Infinity => false
  end.

Definition ltBound (x : Q) (b : Bound) : bool :=
  match b with
  | NegInfinity => false
  | Finite q => Qltb x q
  | Infinity => true
  end.

Record LogprobRange := mkLogprobRange { min : Bound; max : Bound }.

(** The keys of [RANK_COLORS] and [LOGPROB_RANGES]. *)
Inductive Category := confident | unsure | confused | lost.

(** [LOGPROB_RANGES] *)
Definition LOGPROB_RANGES (c : Category) : LogprobRange :=
  match c with
  | confident => mkLogprobRange NegInfinity (Finite (-0.5))
  | unsure => mkLogprobRange (Finite (-0.5)) (Finite (-1.5))
  | confused => mkLogprobRange (Finite (-1.5)) (Finite (-3.0))
  | lost => mkLogprobRange (Finite (-3.0)) Infinity
  end.

(** [logprobToCategory] *)
Definition logprobToCategory (logprob : Q) : Category :=
  if geBound logprob (min (LOGPROB_RANGES confident))
     && ltBound logprob (max (LOGPROB_RANGES confident)) then confident
  else if geBound logprob (min (LOGPROB_RANGES unsure))
          && ltBound logprob (max (LOGPROB_RANGES unsure)) then unsure
  else if geBound logprob (min (LOGPROB_RANGES confused))
          && ltBound logprob (max (LOGPROB_RANGES confused)) then confused
  else lost.
End UnifiedHud.

(* ================================================================== *)
(** * [features/ghostToken]: [escapeMarkdown] *)
(* ================================================================== *)

Module Markdown.
Local Open Scope string_scope.

Definition backslash : ascii := "092"%char.
Definition backtick : ascii := "096"%char.
Definition star : ascii := "042"%char.
Definition underscore : ascii := "095"%char.
Definition linefeed : ascii := "010"%char.
Definition letter_n : ascii := "110"%char.

(** [s.replace(/c/g, replacement)] for a pattern that is one character. *)
Fixpoint replaceAll (c : ascii) (replacement : string) (s : string) : string :=
  match s with
  | EmptyString => EmptyString
  | String a rest =>
      if Ascii.eqb a c then replacement ++ replaceAll c replacement rest
      else String a (replaceAll c replacement rest)
  end.

(** A backslash followed by one character. *)
Definition escaped (c : ascii) : string := String backslash (String c EmptyString).

(** [escapeMarkdown]: five replacements, one after the other. *)
Definition escapeMarkdown (text : string) : string :=
  replaceAll linefeed (escaped letter_n)
    (replaceAll underscore (escaped underscore)
       (replaceAll star (escaped star)
          (replaceAll backtick (escaped backtick)
             (replaceAll backslash (escaped backslash) text)))).

(** What the five replacements amount to for one character. *)
Definition escapeChar (c : ascii) : string :=
  if Ascii.eqb c backslash || Ascii.eqb c backtick || Ascii.eqb c star
     || Ascii.eqb c underscore then escaped c
  else if Ascii.eqb c linefeed then escaped letter_n
  else String c EmptyString.

(** The characters of [text] escaped one by one, in one pass. *)
Fixpoint escapeEach (text : string) : string :=
  match text with
  | EmptyString => EmptyString
  | String c rest => escapeChar c ++ escapeEach rest
  end.

(** [c] occurs in [s]. *)
Fixpoint occurs (c : ascii) (s : string) : bool :=
  match s with
  | EmptyString => false
  | String a rest => Ascii.eqb a c || occurs c rest
  end.
End Markdown.

(* ================================================================== *)
(** * [features/ghostToken]: what is drawn for a ghost response *)
(* ================================================================== *)

Module GhostToken.
Import Types JSMath.
Local Open Scope Q_scope.
Local Open Scope string_scope.

(** [/\w/]: a letter, a digit or the underscore. *)
Definition isWordChar (c : ascii) : bool :=
  let n := nat_of_ascii c in
  ((65 <=? n) && (n <=? 90) || (97 <=? n) && (n <=? 122)
   || (48 <=? n) && (n <=? 57) || (n =? 95))%nat.

(** [/\w/.test(lineText[i])]: past the end of the line the index yields
    [undefined], which [test] reads as the text [undefined]: a match. *)
Definition wordAt (lineText : string) (i : nat) : bool :=
  match String.get i lineText with
  | Some c => isWordChar c
  | None => true
  end.

(** The loop [while (startChar > 0 && /\w/.test(lineText[startChar - 1]))
    startChar--]. *)
Fixpoint wordStart (lineText : string) (startChar : nat) : nat :=
  match startChar with
  | O => O
  | S previous =>
      if wordAt lineText previous then wordStart lineText previous
      else startChar
  end.

(** The template [`rgba(${r}, ${g}, 0, 0.6)`] on integers. *)
Definition rgba06 (r g : Z) : string :=
  "rgba(" ++ CacheKey.toString10 r ++ ", " ++ CacheKey.toString10 g
          ++ ", 0, 0.6)".

(** The two channels [showAmbiguityIndicator] computes.  The literal
    [0.3] is not a binary64 value: it denotes the nearest one,
    [Double.round 0.3], a little below three tenths. *)
Definition ambiguityChannels (margin : Q) : Z * Z :=
  let t := max 0 (min 1 (Double.div margin (Double.round 0.3))) in
  let r := floor (Double.mul (Double.sub 1 t) 255) in
  let g := floor (Double.add (Double.mul t 200) 55) in
  (r, g).

(** An underline: its colour and its columns on the cursor's line. *)
Record Underline := mkUnderline {
  color : string; startChar : nat; endChar : nat
}.

(** [showAmbiguityIndicator]: the decoration it sets. *)
Definition showAmbiguityIndicator (lineText : string) (character : nat)
           (ghostData : GhostResponse) : Underline :=
  let (r, g) := ambiguityChannels (margin ghostData) in
  mkUnderline (rgba06 r g) (wordStart lineText character) character.

(** [showGhostToken]: the text it shows after the cursor, if any. *)
Definition showGhostToken (ghostData : GhostResponse) : option string :=
  let ghostText := token (secondary ghostData) in
  if String.eqb ghostText "" || String.eqb ghostText HudClient.newline then None
  else Some ghostText.

(** What [updateGhostToken] draws once [fetchGhost] has answered: nothing
    for [null]; otherwise the ghost text when the response asks for it,
    and the underline when the margin is below [0.3]. *)
Definition drawn (lineText : string) (character : nat)
           (ghostData : option GhostResponse) : option string * option Underline :=
  match ghostData with
  | None => (None, None)
  | Some ghostData =>
      (if shouldShowGhost ghostData then showGhostToken ghostData else None,
       if Qltb (margin ghostData) (Double.round 0.3)
       then Some (showAmbiguityIndicator lineText character ghostData)
       else None)
  end.
End GhostToken.

(* ================================================================== *)
(** * [extension]: the legacy log-probability highlighting *)
(* ================================================================== *)

Module LegacyHighlight.
Import Types JSMath.
Local Open Scope Q_scope.
Local Open Scope string_scope.

Definition CONFUSION_THRESHOLD : Q := -1.

(** The template [`rgba(255, ${g}, 0, 0.4)`] on an integer. *)
Definition rgba255 (g : Z) : string :=
  "rgba(255, " ++ CacheKey.toString10 g ++ ", 0, 0.4)".

(** The green channel [getColor] computes. *)
Definition greenChannel (logprob : Q) : Z :=
  let t := max 0 (min 1 (Double.div (Double.sub (Qabs logprob) 1) 4)) in
  floor (Double.mul (Double.sub 1 t) 255).

(** [getColor] *)
Definition getColor (logprob : Q) : string := rgba255 (greenChannel logprob).

(** White space and line terminators among the code units below 256:
    tab, line feed, vertical tab, form feed, carriage return, space and
    the no-break space. *)
Definition isWhitespace (c : ascii) : bool :=
  let n := nat_of_ascii c in
  ((9 <=? n) && (n <=? 13) || (n =? 32) || (n =? 160))%nat.

Fixpoint trimStart (s : string) : string :=
  match s with
  | EmptyString => EmptyString
  | String c rest => if isWhitespace c then trimStart rest else s
  end.

Fixpoint trimEnd (s : string) : string :=
  match s with
  | EmptyString => EmptyString
  | String c rest =>
      match trimEnd rest with
      | EmptyString => if isWhitespace c then EmptyString else String c EmptyString
      | kept => String c kept
      end
  end.

(** [s.trim()] *)
Definition trim (s : string) : string := trimEnd (trimStart s).

(** [lineText.indexOf(searchString, position)] for a [searchString] that
    is not empty; [None] stands for [-1]. *)
Definition indexOf (lineText searchString : string) (position : nat)
  : option nat :=
  String.index position searchString lineText.

(** A highlight on one line: its columns and its background colour. *)
Record Highlight := mkHighlight {
  startChar : nat; endChar : nat; backgroundColor : string
}.

(** The inner loop of [applyDecorations] over the tokens of one line,
    from [searchPos] on: the highlights it creates, in order. *)
Fixpoint lineHighlights (lineText : string) (tokens : list TokenProb)
         (searchPos : nat) : list Highlight :=
  match tokens with
  | [] => []
  | tok :: rest =>
      if Qeq_bool (logprob tok) 0 then lineHighlights lineText rest searchPos
      else
        let trimmed := trim (token tok) in
        if String.eqb trimmed "" then lineHighlights lineText rest searchPos
        else if Qle_bool CONFUSION_THRESHOLD (logprob tok)
        then lineHighlights lineText rest searchPos
        else
          match indexOf lineText trimmed searchPos with
          | Some tokenPos =>
              mkHighlight tokenPos (tokenPos + String.length trimmed)
                          (getColor (logprob tok))
              :: lineHighlights lineText rest (tokenPos + String.length trimmed)
          | None => lineHighlights lineText rest searchPos
          end
  end.
End LegacyHighlight.

(* ================================================================== *)
(** * [features/unifiedHud]: [renderSaliency] *)
(* ================================================================== *)

Module UnifiedSaliency.
Import Types JSMath SaliencyLens.
Local Open Scope Q_scope.





End UnifiedSaliency.

(* ================================================================== *)
(** * [api/hudClient]: what a lookup is keyed by, and what it touches *)
(* ================================================================== *)

Module FetchProps.
Import HudClient.
Local Open Scope Z_scope.

(** The cache key each fetch function computes. *)
Definition prefixKey (feature code uri : string) (cursorLine cursorChar : Z)
  : string :=
  CacheKey.makeCacheKey feature (buildPrefix (split_lines code) cursorLine cursorChar).
Definition positionKey (code uri : string) (cursorLine cursorChar : Z)
  : string :=
  CacheKey.makeCacheKey
    "saliency"
    (uri ++ ":" ++ CacheKey.toString10 cursorLine ++ ":"
         ++ CacheKey.toString10 cursorChar)%string.

(** The request each fetch function hands to [fetch]. *)
Definition entropyRequest (code uri : string) (cursorLine cursorChar : Z) :=
  PostEntropy (buildPrefix (split_lines code) cursorLine cursorChar) uri.
Definition ghostRequest (code uri : string) (cursorLine cursorChar : Z) :=
  PostGhost (buildPrefix (split_lines code) cursorLine cursorChar) uri.
Definition autopanicRequest (code uri : string) (cursorLine cursorChar : Z) :=
  PostAutopanic (buildPrefix (split_lines code) cursorLine cursorChar) uri.




(** The caches a call leaves alone, and the requests it may add. *)
Definition same_entropyCache (s s' : State) : Prop :=
  entropyCache s' = entropyCache s.
Definition same_ghostCache (s s' : State) : Prop :=
  ghostCache s' = ghostCache s.
Definition same_autopanicCache (s s' : State) : Prop :=
  autopanicCache s' = autopanicCache s.
Definition same_saliencyCache (s s' : State) : Prop :=
  saliencyCache s' = saliencyCache s.
Definition at_most_one_request (s s' : State) : Prop :=
  sent s' = sent s \/ exists request, sent s' = (sent s ++ [request])%list.

(** A reply with a 2xx status whose body [response.json()] cannot parse. *)
Definition malformed {T : Type} (status : Z) : Reply T :=
  Response true status None.


(** A call of [fetch] leaves the state related by [others] and sends at
    most one request. *)
Definition touches_only {T : Type} (others : State -> State -> Prop)
           (fetch : State -> Z -> Z -> string -> string -> Z -> Z -> Reply T
                    -> option T * State)
  : Prop :=
  forall s now later code uri cursorLine cursorChar reply,
    let s' := snd (fetch s now later code uri cursorLine cursorChar reply) in
    others s s' /\ at_most_one_request s s'.

(** Whatever a call of [fetch] returns other than [null] is, when the call
    returns, the value stored in [cacheOf] under the call's key. *)
Definition returns_what_is_cached {T : Type}
           (cacheOf : State -> PredictionCache.t T)
           (keyOf : string -> string -> Z -> Z -> string)
           (fetch : State -> Z -> Z -> string -> string -> Z -> Z -> Reply T
                    -> option T * State)
  : Prop :=
  forall s now later code uri cursorLine cursorChar reply v,
    fst (fetch s now later code uri cursorLine cursorChar reply) = Some v ->
    exists e,
      JSMap.get (PredictionCache.cache
                   (cacheOf (snd (fetch s now later code uri cursorLine
                                        cursorChar reply))))
                (keyOf code uri cursorLine cursorChar) = Some e /\
      PredictionCache.value e = v.

(** What a call that goes to the backend returns and stores, by reply:
    - on a failure or a body that cannot be parsed it returns [null] and
      ends in the state in which the request was sent: nothing is stored;
    - a body that parses is stored under the call's key with the time of
      the reply and returned, whatever its value, [null] and the other
      falsy values included;
    - so the caller sees [null] exactly when the reply is a failure,
      cannot be parsed, or parses to [null]. *)
Definition result_by_reply
           (cacheOf : State -> PredictionCache.t Json.t)
           (start : State -> Z -> string -> string -> Z -> Z
                    -> Pending Json.t * State)
           (fetch : State -> Z -> Z -> string -> string -> Z -> Z
                    -> Reply Json.t -> option Json.t * State)
  : Prop :=
  forall s now later code uri cursorLine cursorChar reply cacheKey,
    fst (start s now code uri cursorLine cursorChar) = Awaiting cacheKey ->
    let r := fetch s now later code uri cursorLine cursorChar reply in
    (failed reply = true \/ (exists status, reply = malformed status) ->
     r = (None, snd (start s now code uri cursorLine cursorChar))) /\
    (forall status data,
       reply = Response true status (Some data) ->
       fst r = Some data /\
       JSMap.get (PredictionCache.cache (cacheOf (snd r))) cacheKey
       = Some (PredictionCache.mkEntry data later)) /\
    (Json.of_result (fst r) = Json.Null <->
     failed reply = true \/ (exists status, reply = malformed status) \/
     exists status, reply = Response true status (Some Json.Null)).

(** After [clearCaches], a lookup misses and hands [request] to [fetch]. *)
Definition misses_after_clear {T : Type}
           (start : State -> Z -> string -> string -> Z -> Z -> Pending T * State)
           (keyOf : string -> string -> Z -> Z -> string)
           (request : string -> string -> Z -> Z -> Request)
  : Prop :=
  forall s now code uri cursorLine cursorChar,
    start (clearCaches s) now code uri cursorLine cursorChar
    = (Awaiting (keyOf code uri cursorLine cursorChar),
       send (clearCaches s) (request code uri cursorLine cursorChar)).
End FetchProps.

(* ================================================================== *)
(** * [utils/math]: auxiliary notions for the metrics *)
(* ================================================================== *)

Module MetricProps.
Local Open Scope R_scope.

End MetricProps.

(* ================================================================== *)
(** * Properties of [JSMap] *)
(* ================================================================== *)

Section JSMapFacts.
Context {V : Type}.
Implicit Types (m : JSMap.t V) (k : string) (v : V).

Lemma jsmap_get_in_keys m k :
  JSMap.get m k <> None <-> In k (JSMap.keys m).
Proof.
  induction m as [|[k' v'] rest IH]; simpl.
  - split; [congruence | tauto].
  - destruct (String.eqb_spec k' k) as [->|Hne].
    + split; [auto | discriminate].
    + rewrite IH. split; [auto | intros [H|H]; [contradiction | exact H]].
Qed.

Lemma jsmap_has_true m k : JSMap.has m k = true <-> In k (JSMap.keys m).
Proof.
  unfold JSMap.has. rewrite <- jsmap_get_in_keys.
  destruct (JSMap.get m k); split; congruence.
Qed.

Lemma jsmap_has_false m k : JSMap.has m k = false <-> ~ In k (JSMap.keys m).
Proof.
  rewrite <- jsmap_has_true. destruct (JSMap.has m k); split; congruence.
Qed.

Lemma jsmap_size_set m k v :
  JSMap.size (JSMap.set m k v) =
  if JSMap.has m k then JSMap.size m else S (JSMap.size m).
Proof.
  unfold JSMap.has, JSMap.size.
  induction m as [|[k' v'] rest IH]; simpl; [reflexivity|].
  destruct (String.eqb k' k); simpl; [reflexivity|].
  rewrite IH. destruct (JSMap.get rest k); reflexivity.
Qed.

Lemma jsmap_size_delete m k :
  JSMap.size (JSMap.delete m k) =
  if JSMap.has m k then pred (JSMap.size m) else JSMap.size m.
Proof.
  unfold JSMap.has, JSMap.size.
  induction m as [|[k' v'] rest IH]; simpl; [reflexivity|].
  destruct (String.eqb k' k); simpl; [reflexivity|].
  rewrite IH. destruct (JSMap.get rest k) eqn:E; [|reflexivity].
  destruct rest; [discriminate | reflexivity].
Qed.

Lemma jsmap_keys_delete_notin m k :
  ~ In k (JSMap.keys m) -> JSMap.delete m k = m.
Proof.
  induction m as [|[k' v'] rest IH]; simpl; [reflexivity|].
  intros Hn. destruct (String.eqb_spec k' k) as [->|Hne]; [tauto|].
  f_equal. apply IH. tauto.
Qed.

Lemma jsmap_in_keys_delete m k k' :
  In k' (JSMap.keys (JSMap.delete m k)) -> In k' (JSMap.keys m).
Proof.
  induction m as [|[k0 v0] rest IH]; simpl; [tauto|].
  destruct (String.eqb k0 k); simpl; tauto.
Qed.

Lemma jsmap_delete_wf m k : JSMap.wf m -> JSMap.wf (JSMap.delete m k).
Proof.
  unfold JSMap.wf.
  induction m as [|[k0 v0] rest IH]; simpl; [auto|].
  intros Hnd. inversion Hnd as [|? ? Hni Hnd']; subst.
  destruct (String.eqb k0 k); simpl; [assumption|].
  constructor; [|auto].
  intros Hin. apply Hni. eapply jsmap_in_keys_delete; eassumption.
Qed.

Lemma jsmap_not_in_delete m k :
  JSMap.wf m -> ~ In k (JSMap.keys (JSMap.delete m k)).
Proof.
  unfold JSMap.wf.
  induction m as [|[k0 v0] rest IH]; simpl; [tauto|].
  intros Hnd. inversion Hnd as [|? ? Hni Hnd']; subst.
  destruct (String.eqb_spec k0 k) as [->|Hne]; simpl; [assumption|].
  intros [H|H]; [contradiction | exact (IH Hnd' H)].
Qed.

Lemma jsmap_keys_set m k v :
  JSMap.keys (JSMap.set m k v) =
  if JSMap.has m k then JSMap.keys m else JSMap.keys m ++ [k].
Proof.
  unfold JSMap.has.
  induction m as [|[k' v'] rest IH]; simpl; [reflexivity|].
  destruct (String.eqb k' k); simpl; [reflexivity|].
  rewrite IH. destruct (JSMap.get rest k); reflexivity.
Qed.

Lemma jsmap_set_wf m k v : JSMap.wf m -> JSMap.wf (JSMap.set m k v).
Proof.
  unfold JSMap.wf. intros Hnd. rewrite jsmap_keys_set.
  destruct (JSMap.has m k) eqn:E; [assumption|].
  apply jsmap_has_false in E.
  apply NoDup_rev in Hnd. rewrite <- (rev_involutive (_ ++ _)).
  apply NoDup_rev. rewrite rev_app_distr. simpl.
  constructor; [rewrite <- in_rev; assumption | assumption].
Qed.

Lemma jsmap_get_set_same m k v : JSMap.get (JSMap.set m k v) k = Some v.
Proof.
  induction m as [|[k' v'] rest IH]; simpl.
  - rewrite String.eqb_refl. reflexivity.
  - destruct (String.eqb k' k) eqn:E; simpl; rewrite E; auto.
Qed.

Lemma jsmap_get_set_other m k k' v :
  k' <> k -> JSMap.get (JSMap.set m k v) k' = JSMap.get m k'.
Proof.
  intros Hne. induction m as [|[k0 v0] rest IH]; simpl.
  - destruct (String.eqb_spec k k'); [congruence | reflexivity].
  - destruct (String.eqb_spec k0 k) as [->|Hk]; simpl.
    + destruct (String.eqb_spec k k'); [congruence | reflexivity].
    + rewrite IH. reflexivity.
Qed.

Lemma jsmap_get_delete_other m k k' :
  k' <> k -> JSMap.get (JSMap.delete m k) k' = JSMap.get m k'.
Proof.
  intros Hne. induction m as [|[k0 v0] rest IH]; simpl; [reflexivity|].
  destruct (String.eqb_spec k0 k) as [->|Hk]; simpl.
  - destruct (String.eqb_spec k k'); [congruence | reflexivity].
  - rewrite IH. reflexivity.
Qed.
End JSMapFacts.

(* ================================================================== *)
(** * Properties of [PredictionCache] *)
(* ================================================================== *)

Section CacheFacts.
Context {T : Type}.
Import PredictionCache.
Implicit Types (c : PredictionCache.t T) (key : string) (now : Z).
Local Open Scope Z_scope.

Lemma cache_inv_new cap ttl : 0 <= cap -> cache_inv cap ttl (new (T:=T) cap ttl).
Proof.
  intros Hcap. unfold cache_inv, new, size; simpl.
  repeat split; try assumption. constructor.
Qed.

Lemma cache_inv_get cap ttl c now key :
  cache_inv cap ttl c -> cache_inv cap ttl (snd (get c now key)).
Proof.
  intros (Hm & Ht & Hwf & Hsz). unfold get.
  destruct (JSMap.get (cache c) key) as [entry|] eqn:Hget;
    [|repeat split; assumption].
  assert (Hhas : JSMap.has (cache c) key = true)
    by (unfold JSMap.has; rewrite Hget; reflexivity).
  destruct (now - timestamp entry >? ttlMs c); simpl;
    unfold cache_inv, size; simpl; repeat split; try assumption.
  - apply jsmap_delete_wf; assumption.
  - rewrite jsmap_size_delete, Hhas. unfold size in Hsz. lia.
  - apply jsmap_set_wf, jsmap_delete_wf; assumption.
  - rewrite jsmap_size_set.
    assert (Hno : JSMap.has (JSMap.delete (cache c) key) key = false)
      by (apply jsmap_has_false, jsmap_not_in_delete; assumption).
    rewrite Hno, jsmap_size_delete, Hhas.
    unfold size in Hsz.
    assert (JSMap.size (cache c) <> 0%nat).
    { unfold JSMap.size. destruct (cache c); [discriminate | simpl; lia]. }
    lia.
Qed.

Lemma jsmap_first_key_has (m : JSMap.t (CacheEntry T)) k :
  JSMap.first_key m = Some k -> JSMap.has m k = true.
Proof.
  destruct m as [|[k0 e0] rest]; simpl; [discriminate|].
  intros [= ->]. unfold JSMap.has; simpl. rewrite String.eqb_refl. reflexivity.
Qed.

Lemma cache_inv_set cap ttl c now key v :
  1 <= cap -> cache_inv cap ttl c -> cache_inv cap ttl (set c now key v).
Proof.
  intros Hcap (Hm & Ht & Hwf & Hsz). unfold set.
  unfold cache_inv, size in *; simpl.
  repeat split; try assumption.
  - apply jsmap_set_wf.
    destruct (_ && _); [|assumption].
    destruct (JSMap.first_key (cache c)); [apply jsmap_delete_wf|]; assumption.
  - rewrite jsmap_size_set.
    destruct (Z.geb_spec (Z.of_nat (JSMap.size (cache c))) (maxSize c)) as [Hge|Hlt];
      simpl.
    + destruct (JSMap.has (cache c) key) eqn:Hhas; simpl.
      * rewrite Hhas. assumption.
      * destruct (JSMap.first_key (cache c)) as [fk|] eqn:Hfk.
        -- assert (Hne : fk <> key).
           { intros ->. apply jsmap_first_key_has in Hfk. congruence. }
           assert (Hno : JSMap.has (JSMap.delete (cache c) fk) key = false).
           { apply jsmap_has_false. intros Hin.
             apply jsmap_in_keys_delete in Hin.
             apply jsmap_has_false in Hhas. contradiction. }
           rewrite Hno, jsmap_size_delete, (jsmap_first_key_has _ Hfk).
           assert (JSMap.size (cache c) <> 0%nat).
           { unfold JSMap.size. destruct (cache c); [discriminate | simpl; lia]. }
           lia.
        -- destruct (cache c) as [|[? ?] ?]; [|discriminate].
           simpl in *. lia.
    + destruct (JSMap.has (cache c) key); lia.
Qed.

Lemma cache_inv_step cap ttl c o :
  1 <= cap -> cache_inv cap ttl c -> cache_inv cap ttl (step c o).
Proof.
  intros Hcap Hinv. destruct o; simpl.
  - apply cache_inv_get; assumption.
  - apply cache_inv_set; assumption.
  - destruct Hinv as (Hm & Ht & _ & _). unfold cache_inv, clear, size; simpl.
    repeat split; try assumption; [constructor | lia].
  - assumption.
Qed.

Lemma cache_inv_run cap ttl ops : forall c,
  1 <= cap -> cache_inv cap ttl c -> cache_inv cap ttl (run c ops).
Proof.
  unfold run. induction ops as [|o ops IH]; intros c Hcap Hinv; simpl.
  - assumption.
  - apply IH; [assumption|]. apply cache_inv_step; assumption.
Qed.

  (** A hit comes from an entry that is present and no older than the TTL. *)
Lemma cache_get_hit c now key v :
  fst (get c now key) = Some v ->
  exists e, JSMap.get (cache c) key = Some e /\ value e = v /\
            now - timestamp e <= ttlMs c.
Proof.
  unfold get. destruct (JSMap.get (cache c) key) as [e|]; [|discriminate].
  destruct (Z.gtb_spec (now - timestamp e) (ttlMs c)); simpl; [discriminate|].
  intros [= <-]. exists e. repeat split. assumption.
Qed.

  (** A lookup of an entry older than the TTL deletes it and misses. *)
Lemma cache_get_expired c now key e :
  JSMap.get (cache c) key = Some e -> ttlMs c < now - timestamp e ->
  get c now key = (None, with_cache c (JSMap.delete (cache c) key)).
Proof.
  intros Hget Hold. unfold get. rewrite Hget.
  destruct (Z.gtb_spec (now - timestamp e) (ttlMs c)); [reflexivity | lia].
Qed.
End CacheFacts.

(* ================================================================== *)
(** * Building a [Map] by successive [set] *)
(* ================================================================== *)

Section JSMapBuild.
Context {V : Type}.
Implicit Types (m l : JSMap.t V) (k : string) (v : V).

Lemma jsmap_set_notin m k v :
  ~ In k (JSMap.keys m) -> JSMap.set m k v = m ++ [(k, v)].
Proof.
  induction m as [|[k' v'] rest IH]; simpl; [reflexivity|].
  intros Hn. destruct (String.eqb_spec k' k) as [->|Hne]; [tauto|].
  f_equal. apply IH. tauto.
Qed.

Lemma jsmap_get_app m l k :
  JSMap.get (m ++ l) k =
  match JSMap.get m k with Some v => Some v | None => JSMap.get l k end.
Proof.
  induction m as [|[k' v'] rest IH]; simpl; [reflexivity|].
  destruct (String.eqb k' k); [reflexivity | apply IH].
Qed.

Lemma jsmap_get_wf_in m k v :
  JSMap.wf m -> In (k, v) m -> JSMap.get m k = Some v.
Proof.
  unfold JSMap.wf.
  induction m as [|[k' v'] rest IH]; simpl; [tauto|].
  intros Hnd Hin. inversion Hnd as [|? ? Hni Hnd']; subst.
  destruct Hin as [[= -> ->]|Hin].
  - rewrite String.eqb_refl. reflexivity.
  - destruct (String.eqb_spec k' k) as [->|Hne].
    + exfalso. apply Hni. change k with (fst (k, v)). apply in_map. assumption.
    + apply IH; assumption.
Qed.

Lemma jsmap_get_some_in m k v : JSMap.get m k = Some v -> In (k, v) m.
Proof.
  induction m as [|[k' v'] rest IH]; simpl; [discriminate|].
  destruct (String.eqb_spec k' k) as [->|Hne].
  - intros [= ->]. left. reflexivity.
  - intros H. right. apply IH. assumption.
Qed.

Lemma set_all_app m l1 l2 : JSMap.set_all m (l1 ++ l2) = JSMap.set_all (JSMap.set_all m l1) l2.
Proof. unfold JSMap.set_all. apply fold_left_app. Qed.

Lemma set_all_wf l : forall m, JSMap.wf m -> JSMap.wf (JSMap.set_all m l).
Proof.
  induction l as [|[k v] l IH]; intros m Hwf; simpl; [assumption|].
  apply IH. apply jsmap_set_wf. assumption.
Qed.

(** A lookup after the loop finds the last write to the key. *)
Lemma set_all_get l : forall m k,
  JSMap.get (JSMap.set_all m l) k =
  match JSMap.get (rev l) k with
  | Some v => Some v
  | None => JSMap.get m k
  end.
Proof.
  induction l as [|[k0 v0] l IH]; intros m k; simpl; [reflexivity|].
  change (fold_left _ l ?a) with (JSMap.set_all a l).
  rewrite IH, jsmap_get_app. simpl.
  destruct (JSMap.get (rev l) k); [reflexivity|].
  destruct (String.eqb_spec k0 k) as [->|Hne].
  - apply jsmap_get_set_same.
  - apply jsmap_get_set_other. congruence.
Qed.

Lemma set_all_keys l : forall m k,
  In k (JSMap.keys (JSMap.set_all m l)) <->
  In k (JSMap.keys m) \/ In k (JSMap.keys l).
Proof.
  induction l as [|[k0 v0] l IH]; intros m k; simpl; [tauto|].
  change (fold_left _ l ?a) with (JSMap.set_all a l).
  rewrite IH, jsmap_keys_set.
  destruct (JSMap.has m k0) eqn:E.
  - apply jsmap_has_true in E. split; [tauto|].
    intros [H|[<-|H]]; tauto.
  - rewrite in_app_iff. simpl. tauto.
Qed.

(** With pairwise distinct keys the loop appends the entries in order. *)
Lemma set_all_nodup l : forall m,
  NoDup (JSMap.keys m ++ JSMap.keys l) -> JSMap.set_all m l = m ++ l.
Proof.
  induction l as [|[k v] l IH]; intros m Hnd; simpl.
  - rewrite app_nil_r. reflexivity.
  - change (fold_left _ l ?a) with (JSMap.set_all a l).
    simpl in Hnd.
    assert (Hk : ~ In k (JSMap.keys m)).
    { apply NoDup_remove_2 in Hnd. intros Hin. apply Hnd.
      apply in_or_app. left. assumption. }
    rewrite jsmap_set_notin by exact Hk. rewrite IH.
    + rewrite <- app_assoc. reflexivity.
    + unfold JSMap.keys in *. rewrite map_app, <- app_assoc. simpl. assumption.
Qed.
End JSMapBuild.

(* ================================================================== *)
(** * Sums over the values of a [Map] *)
(* ================================================================== *)

Section RsumFacts.
Import MathUtils.
Local Open Scope R_scope.
Implicit Types (m l : JSMap.t R) (k : string) (v : R).

Lemma Rsum_app (l1 l2 : list R) : Rsum (l1 ++ l2) = Rsum l1 + Rsum l2.
Proof. induction l1 as [|x l1 IH]; simpl; [lra | rewrite IH; lra]. Qed.

Lemma Rsum_nonneg (l : list R) : (forall x, In x l -> 0 <= x) -> 0 <= Rsum l.
Proof.
  induction l as [|x l IH]; simpl; intros H; [lra|].
  assert (0 <= x) by (apply H; auto).
  assert (0 <= Rsum l) by (apply IH; intros; apply H; auto).
  lra.
Qed.

Lemma Rsum_map_div {A : Type} (f : A -> R) (s : R) (l : list A) :
  Rsum (map (fun x => f x / s) l) = Rsum (map f l) / s.
Proof.
  induction l as [|x l IH]; simpl; [unfold Rdiv; ring|].
  rewrite IH. unfold Rdiv. ring.
Qed.

Lemma fold_left_sum_snd {A : Type} (l : list (A * R)) (a : R) :
  fold_left (fun sum e => sum + snd e) l a = a + Rsum (map snd l).
Proof.
  revert a. induction l as [|e l IH]; intros a; simpl; [lra|].
  rewrite IH. lra.
Qed.


Lemma get_in_values m k v : JSMap.get m k = Some v -> In v (JSMap.values m).
Proof.
  intros H. apply jsmap_get_some_in in H.
  change v with (snd (k, v)). apply in_map. assumption.
Qed.

Lemma Rsum_values_set m k v :
  Rsum (JSMap.values (JSMap.set m k v)) =
  Rsum (JSMap.values m) + v -
  match JSMap.get m k with Some old => old | None => 0 end.
Proof.
  induction m as [|[k' v'] rest IH]; simpl; [lra|].
  destruct (String.eqb k' k); simpl; [lra|].
  rewrite IH. lra.
Qed.

Lemma NoDup_snoc {A : Type} (l : list A) (a : A) :
  NoDup (l ++ [a]) <-> ~ In a l /\ NoDup l.
Proof.
  rewrite <- NoDup_cons_iff. split; apply Permutation_NoDup.
  - apply Permutation_sym, Permutation_cons_append.
  - apply Permutation_cons_append.
Qed.

End RsumFacts.

(* ================================================================== *)
(** * [logprobsToProbs] *)
(* ================================================================== *)

Section ProbsFacts.
Import MathUtils.
Local Open Scope R_scope.
Implicit Types (l : list TokenProb) (t : string).

Lemma fold_left_map_ext {A B C : Type} (f g : C -> B -> C) (h1 h2 : A -> B)
      (l : list A) :
  (forall c a, f c (h1 a) = g c (h2 a)) ->
  forall c, fold_left f (map h1 l) c = fold_left g (map h2 l) c.
Proof.
  intros H. induction l as [|a l IH]; intros c; simpl; [reflexivity|].
  rewrite H. apply IH.
Qed.

(** The function is its three named stages followed by the writing loop. *)
Lemma logprobsToProbs_normalized l :
  logprobsToProbs l = JSMap.set_all [] (normalized l).
Proof.
  destruct l as [|lp0 rest]; [reflexivity|].
  unfold logprobsToProbs, JSMap.set_all, normalized, JSMap.empty.
  apply fold_left_map_ext. intros c a. simpl fst. simpl snd.
  f_equal. f_equal.
  rewrite fold_left_sum_snd, map_map. simpl snd.
  unfold sumExpOf. simpl maxLogprobOf. lra.
Qed.

Lemma Rsum_pos {A : Type} (f : A -> R) (l : list A) :
  l <> [] -> (forall x, 0 < f x) -> 0 < Rsum (map f l).
Proof.
  intros Hne Hf. destruct l as [|a l]; [congruence|]. simpl.
  assert (0 <= Rsum (map f l)).
  { apply Rsum_nonneg. intros x Hx. apply in_map_iff in Hx.
    destruct Hx as (y & <- & _). left. apply Hf. }
  specialize (Hf a). lra.
Qed.

Lemma Rsum_ge_member (l : list R) x :
  (forall y, In y l -> 0 <= y) -> In x l -> x <= Rsum l.
Proof.
  induction l as [|y l IH]; simpl; [tauto|].
  intros Hpos [->|Hin].
  - assert (0 <= Rsum l) by (apply Rsum_nonneg; auto). lra.
  - assert (0 <= y) by auto. assert (x <= Rsum l) by auto. lra.
Qed.

Lemma sumExpOf_pos l : l <> [] -> 0 < sumExpOf l.
Proof. intros Hne. apply Rsum_pos; [assumption | intros; apply exp_pos]. Qed.

Lemma normalized_keys l : JSMap.keys (normalized l) = map token l.
Proof. unfold JSMap.keys, normalized. rewrite map_map. reflexivity. Qed.





(** Subtracting the maximum changes nothing in exact arithmetic. *)
Lemma normalized_softmax l x :
  l <> [] -> exp (x - maxLogprobOf l) / sumExpOf l = softmax l x.
Proof.
  intros Hne. unfold softmax, sumExpOf.
  set (M := maxLogprobOf l).
  assert (Hm : forall y, exp (y - M) = exp y / exp M).
  { intros y. unfold Rminus, Rdiv. rewrite exp_plus, exp_Ropp. reflexivity. }
  rewrite (map_ext _ (fun lp => exp (logprob lp) / exp M))
    by (intros; apply Hm).
  rewrite (Rsum_map_div (fun lp => exp (logprob lp))), Hm.
  assert (0 < Rsum (map (fun lp => exp (logprob lp)) l))
    by (apply Rsum_pos; [assumption | intros; apply exp_pos]).
  pose proof (exp_pos M). field. split; lra.
Qed.

Lemma exp_le_iff x y : exp x <= exp y <-> x <= y.
Proof.
  split; intros H.
  - destruct (Rle_or_lt x y) as [|Hlt]; [assumption|].
    apply exp_increasing in Hlt. lra.
  - destruct H as [Hlt | ->]; [left; apply exp_increasing; assumption | right; reflexivity].
Qed.
End ProbsFacts.

Section ExpFacts.
Import MathUtils.
Local Open Scope R_scope.
Implicit Types (l : list TokenProb) (t : string).

(** [MathUtils] is [ExpMath] at the real exponential, which is [sane]. *)
Lemma MathUtils_instance :
  (forall l, logprobsToProbs l = ExpMath.logprobsToProbs exp l) /\
  (forall l, calculateEntropyFromLogprobs l
             = ExpMath.calculateEntropyFromLogprobs exp l) /\
  (forall l, calculateMargin l = ExpMath.calculateMargin exp l) /\
  ExpMath.sane exp.
Proof.
  repeat split; try reflexivity.
  - apply exp_0.
  - intros x. left. apply exp_pos.
  - intros x y. apply exp_le_iff.
Qed.

Lemma underflowing_sane : ExpMath.sane ExpMath.underflowing.
Proof.
  unfold ExpMath.sane, ExpMath.underflowing. split; [|split].
  - destruct (Rlt_dec 0 (-746)); [lra | apply exp_0].
  - intros x. destruct (Rlt_dec x (-746)); [lra | left; apply exp_pos].
  - intros x y Hxy.
    destruct (Rlt_dec x (-746)), (Rlt_dec y (-746)); try lra.
    + left. apply exp_pos.
    + apply exp_le_iff. assumption.
Qed.

Lemma underflowing_zero x : x < -746 -> ExpMath.underflowing x = 0.
Proof.
  intros H. unfold ExpMath.underflowing.
  destruct (Rlt_dec x (-746)); [reflexivity | contradiction].
Qed.

Lemma fold_Rmax_ge (xs : list R) : forall a,
  a <= fold_left Rmax xs a /\ forall x, In x xs -> x <= fold_left Rmax xs a.
Proof.
  induction xs as [|y xs IH]; intros a; simpl.
  - split; [lra | tauto].
  - destruct (IH (Rmax a y)) as [Hge Hall].
    pose proof (Rmax_l a y). pose proof (Rmax_r a y).
    split; [lra|]. intros x [<-|Hx]; [lra | auto].
Qed.

Lemma fold_Rmax_in (xs : list R) : forall a,
  fold_left Rmax xs a = a \/ In (fold_left Rmax xs a) xs.
Proof.
  induction xs as [|y xs IH]; intros a; simpl; [auto|].
  destruct (IH (Rmax a y)) as [H|H]; [|auto].
  rewrite H. unfold Rmax. destruct (Rle_dec a y); auto.
Qed.

Lemma maxLogprobOf_ge l lp : In lp l -> logprob lp <= maxLogprobOf l.
Proof.
  destruct l as [|lp0 rest]; [intros []|]. simpl.
  destruct (fold_Rmax_ge (map logprob rest) (logprob lp0)) as [H0 Hall].
  intros [<-|Hin]; [assumption|]. apply Hall, in_map. assumption.
Qed.

Lemma maxLogprobOf_in l :
  l <> [] -> exists lp, In lp l /\ logprob lp = maxLogprobOf l.
Proof.
  destruct l as [|lp0 rest]; [congruence|]. intros _. simpl.
  destruct (fold_Rmax_in (map logprob rest) (logprob lp0)) as [H|H].
  - exists lp0. split; [left; reflexivity | symmetry; assumption].
  - apply in_map_iff in H. destruct H as (lp & Hlp & Hin).
    exists lp. split; [right; assumption | assumption].
Qed.

Lemma get_normalized_map (w : TokenProb -> R) l t :
  JSMap.get (map (fun lp => (token lp, w lp)) l) t =
  option_map w (find (fun lp => String.eqb (token lp) t) l).
Proof.
  induction l as [|lp l IH]; simpl; [reflexivity|].
  destruct (String.eqb (token lp) t); [reflexivity | apply IH].
Qed.

Lemma find_snoc {A : Type} (f : A -> bool) (l : list A) (x : A) :
  find f (l ++ [x]) =
  match find f l with
  | Some y => Some y
  | None => if f x then Some x else None
  end.
Proof.
  induction l as [|y l IH]; simpl; [reflexivity|].
  destruct (f y); [reflexivity | apply IH].
Qed.

Lemma last_occurrence_in l t lp :
  last_occurrence l t = Some lp -> In lp l /\ token lp = t.
Proof.
  unfold last_occurrence. intros H. apply find_some in H.
  destruct H as [Hin Heq]. split; [apply in_rev; assumption|].
  apply String.eqb_eq. assumption.
Qed.

Lemma last_occurrence_none l t :
  last_occurrence l t = None <->
  existsb (fun later => String.eqb (token later) t) l = false.
Proof.
  unfold last_occurrence. split.
  - intros H. destruct (existsb _ l) eqn:E; [|reflexivity].
    apply existsb_exists in E. destruct E as (x & Hin & Hx).
    apply in_rev in Hin. pose proof (find_none _ _ H _ Hin) as Hn.
    simpl in Hn. congruence.
  - intros H. destruct (find _ (rev l)) as [x|] eqn:E; [|reflexivity].
    apply find_some in E. destruct E as [Hin Hx]. apply in_rev in Hin.
    assert (existsb (fun later => String.eqb (token later) t) l = true)
      by (apply existsb_exists; exists x; auto).
    congruence.
Qed.

Lemma last_occurrence_cons l t lp :
  last_occurrence (lp :: l) t =
  match last_occurrence l t with
  | Some x => Some x
  | None => if String.eqb (token lp) t then Some lp else None
  end.
Proof.
  unfold last_occurrence. simpl rev. rewrite find_snoc.
  destruct (find _ (rev l)); reflexivity.
Qed.

Lemma last_occurrence_nodup l lp :
  NoDup (map token l) -> In lp l -> last_occurrence l (token lp) = Some lp.
Proof.
  induction l as [|x l IH]; simpl; [tauto|].
  intros Hnd Hin. inversion Hnd as [|? ? Hni Hnd']; subst.
  rewrite last_occurrence_cons. destruct Hin as [->|Hin].
  - destruct (last_occurrence l (token lp)) as [y|] eqn:E.
    + exfalso. apply last_occurrence_in in E. destruct E as [Hy Hty].
      apply Hni. rewrite <- Hty. apply in_map. assumption.
    + rewrite String.eqb_refl. reflexivity.
  - rewrite (IH Hnd' Hin). reflexivity.
Qed.

(** What the entries written over add up to, one entry further. *)
Lemma Rsum_cons (x : R) (xs : list R) : Rsum (x :: xs) = x + Rsum xs.
Proof. reflexivity. Qed.

Lemma overwritten_snoc (w : TokenProb -> R) l x :
  Rsum (map w (ExpMath.overwritten (l ++ [x]))) =
  Rsum (map w (ExpMath.overwritten l))
  + match last_occurrence l (token x) with Some y => w y | None => 0 end.
Proof.
  induction l as [|y l IH]; [simpl; lra|].
  change ((y :: l) ++ [x]) with (y :: (l ++ [x])).
  cbn [ExpMath.overwritten]. rewrite existsb_app. cbn [existsb].
  rewrite orb_false_r, last_occurrence_cons.
  destruct (existsb (fun later => String.eqb (token later) (token y)) l) eqn:E.
  - cbn [orb map]. rewrite !Rsum_cons, IH.
    destruct (last_occurrence l (token x)) as [z|] eqn:Ez; [lra|].
    destruct (String.eqb_spec (token y) (token x)) as [Heq|Hne]; [|lra].
    apply last_occurrence_none in Ez. rewrite <- Heq in Ez. congruence.
  - cbn [orb].
    destruct (String.eqb_spec (token x) (token y)) as [Heq|Hne].
    + cbn [map]. rewrite Rsum_cons, IH.
      apply last_occurrence_none in E. rewrite Heq, E.
      rewrite String.eqb_refl. lra.
    + rewrite IH.
      destruct (last_occurrence l (token x)) as [z|]; [lra|].
      destruct (String.eqb_spec (token y) (token x)); [congruence | lra].
Qed.

(** Writing one entry per element of [l] into an empty map: what each key
    holds, and what the values add up to. *)
Lemma written_get (w : TokenProb -> R) l t :
  JSMap.get (JSMap.set_all [] (map (fun lp => (token lp, w lp)) l)) t
  = option_map w (last_occurrence l t).
Proof.
  rewrite set_all_get. simpl. unfold last_occurrence.
  rewrite <- map_rev, get_normalized_map.
  destruct (find _ (rev l)); reflexivity.
Qed.

Lemma written_sum (w : TokenProb -> R) l :
  Rsum (JSMap.values (JSMap.set_all [] (map (fun lp => (token lp, w lp)) l)))
  = Rsum (map w l) - Rsum (map w (ExpMath.overwritten l)).
Proof.
  induction l as [|x l IH] using rev_ind; [simpl; lra|].
  rewrite map_app, set_all_app. cbn [map JSMap.set_all fold_left fst snd].
  rewrite Rsum_values_set, IH, written_get, overwritten_snoc.
  rewrite map_app, Rsum_app. cbn [map]. rewrite Rsum_cons.
  change (Rsum []) with 0.
  destruct (last_occurrence l (token x)); cbn [option_map]; lra.
Qed.

Lemma overwritten_in l lp : In lp (ExpMath.overwritten l) -> In lp l.
Proof.
  induction l as [|x l IH]; simpl; [tauto|].
  destruct (existsb _ l); simpl; tauto.
Qed.

Lemma overwritten_nodup l : NoDup (map token l) -> ExpMath.overwritten l = [].
Proof.
  induction l as [|x l IH]; simpl; [reflexivity|].
  intros Hnd. inversion Hnd as [|? ? Hni Hnd']; subst.
  destruct (existsb _ l) eqn:E; [|auto].
  exfalso. apply existsb_exists in E. destruct E as (y & Hy & Hty).
  apply String.eqb_eq in Hty. apply Hni. rewrite <- Hty.
  apply in_map. assumption.
Qed.

Section WithExp.
Variable Math_exp : R -> R.
Hypothesis Hsane : ExpMath.sane Math_exp.

Lemma expm_logprobsToProbs_written l :
  ExpMath.logprobsToProbs Math_exp l
  = JSMap.set_all [] (map (fun lp => (token lp, ExpMath.weight Math_exp l lp)) l).
Proof.
  destruct l as [|lp0 rest]; [reflexivity|].
  unfold ExpMath.logprobsToProbs, JSMap.set_all, JSMap.empty.
  apply fold_left_map_ext. intros c a. simpl fst. simpl snd.
  f_equal. unfold ExpMath.weight. f_equal.
  rewrite fold_left_sum_snd, map_map. simpl snd.
  unfold ExpMath.sumExpOf. simpl maxLogprobOf. lra.
Qed.

Lemma expm_term_range l lp :
  In lp l -> 0 <= Math_exp (logprob lp - maxLogprobOf l) <= 1.
Proof.
  destruct Hsane as (H0 & Hpos & Hmono). intros Hin.
  split; [apply Hpos|]. rewrite <- H0. apply Hmono.
  pose proof (maxLogprobOf_ge l lp Hin). lra.
Qed.

Lemma expm_sumExpOf_ge l lp :
  In lp l -> 
  Math_exp (logprob lp - maxLogprobOf l) <= ExpMath.sumExpOf Math_exp l.
Proof.
  intros Hin. unfold ExpMath.sumExpOf. apply Rsum_ge_member.
  - intros y Hy. apply in_map_iff in Hy. destruct Hy as (z & <- & _).
    apply Hsane.
  - apply in_map_iff. exists lp. split; [reflexivity | assumption].
Qed.

Lemma expm_sumExpOf_pos l : l <> [] -> 1 <= ExpMath.sumExpOf Math_exp l.
Proof.
  intros Hne. destruct (maxLogprobOf_in Hne) as (lp & Hin & Hmax).
  pose proof (expm_sumExpOf_ge l lp Hin) as H.
  rewrite Hmax in H. replace (maxLogprobOf l - maxLogprobOf l) with 0 in H by lra.
  rewrite (proj1 Hsane) in H. exact H.
Qed.

Lemma expm_weight_range l lp :
  In lp l -> 0 <= ExpMath.weight Math_exp l lp <= 1.
Proof.
  intros Hin. assert (Hne : l <> []) by (intros ->; destruct Hin).
  pose proof (expm_sumExpOf_pos Hne) as HS.
  pose proof (expm_sumExpOf_ge l lp Hin) as Hle.
  pose proof (expm_term_range l lp Hin) as [Hpos _].
  unfold ExpMath.weight. split.
  - apply Rmult_le_pos; [assumption | left; apply Rinv_0_lt_compat; lra].
  - apply Rmult_le_reg_r with (r := ExpMath.sumExpOf Math_exp l); [lra|].
    unfold Rdiv. rewrite Rmult_assoc, Rinv_l, Rmult_1_r, Rmult_1_l by lra.
    assumption.
Qed.

Lemma expm_weight_sum l :
  l <> [] -> Rsum (map (ExpMath.weight Math_exp l) l) = 1.
Proof.
  intros Hne. pose proof (expm_sumExpOf_pos Hne) as HS.
  unfold ExpMath.weight.
  rewrite (Rsum_map_div (fun lp => Math_exp (logprob lp - maxLogprobOf l))).
  fold (ExpMath.sumExpOf Math_exp l). field. lra.
Qed.

Lemma expm_weight_mono l a b :
  l <> [] -> logprob a <= logprob b ->
  ExpMath.weight Math_exp l a <= ExpMath.weight Math_exp l b.
Proof.
  intros Hne Hle. pose proof (expm_sumExpOf_pos Hne) as HS.
  unfold ExpMath.weight. apply Rmult_le_compat_r.
  - left. apply Rinv_0_lt_compat. lra.
  - apply Hsane. lra.
Qed.

Lemma expm_get l t :
  JSMap.get (ExpMath.logprobsToProbs Math_exp l) t
  = option_map (ExpMath.weight Math_exp l) (last_occurrence l t).
Proof. rewrite expm_logprobsToProbs_written. apply written_get. Qed.

Lemma expm_wf l : JSMap.wf (ExpMath.logprobsToProbs Math_exp l).
Proof. rewrite expm_logprobsToProbs_written. apply set_all_wf. constructor. Qed.

Lemma expm_keys l t :
  In t (JSMap.keys (ExpMath.logprobsToProbs Math_exp l)) <-> In t (map token l).
Proof.
  rewrite expm_logprobsToProbs_written, set_all_keys.
  unfold JSMap.keys at 2. rewrite map_map. simpl. tauto.
Qed.

Lemma expm_range l t p :
  JSMap.get (ExpMath.logprobsToProbs Math_exp l) t = Some p -> 0 <= p <= 1.
Proof.
  rewrite expm_get.
  destruct (last_occurrence l t) as [lp|] eqn:E; [|discriminate].
  intros [= <-]. apply expm_weight_range.
  apply (last_occurrence_in _ _ E).
Qed.

Lemma expm_sum l :
  l <> [] ->
  Rsum (JSMap.values (ExpMath.logprobsToProbs Math_exp l))
  = 1 - Rsum (map (ExpMath.weight Math_exp l) (ExpMath.overwritten l)).
Proof.
  intros Hne.
  rewrite expm_logprobsToProbs_written, written_sum, expm_weight_sum by assumption.
  reflexivity.
Qed.

Lemma expm_overwritten_nonneg l :
  0 <= Rsum (map (ExpMath.weight Math_exp l) (ExpMath.overwritten l)).
Proof.
  apply Rsum_nonneg. intros x Hx. apply in_map_iff in Hx.
  destruct Hx as (lp & <- & Hin). apply expm_weight_range.
  apply overwritten_in. assumption.
Qed.

Lemma expm_sum_nodup l :
  l <> [] -> NoDup (map token l) ->
  Rsum (JSMap.values (ExpMath.logprobsToProbs Math_exp l)) = 1.
Proof.
  intros Hne Hnd. rewrite (expm_sum Hne), (overwritten_nodup _ Hnd). simpl. lra.
Qed.

End WithExp.
End ExpFacts.

Section ProbsClaims.
Import MathUtils.
Local Open Scope R_scope.
Implicit Types (l : list TokenProb) (t : string).

Lemma logprobsToProbs_nodup l :
  NoDup (map token l) -> logprobsToProbs l = normalized l.
Proof.
  intros Hnd. rewrite logprobsToProbs_normalized, set_all_nodup; [reflexivity|].
  simpl. rewrite normalized_keys. assumption.
Qed.

Lemma logprobsToProbs_get l t :
  JSMap.get (logprobsToProbs l) t =
  option_map (fun lp => softmax l (logprob lp)) (last_occurrence l t).
Proof.
  rewrite logprobsToProbs_normalized, set_all_get. simpl.
  unfold normalized, last_occurrence. rewrite <- map_rev, get_normalized_map.
  destruct (find _ (rev l)) as [lp|] eqn:E; simpl; [|reflexivity].
  f_equal. apply normalized_softmax.
  intros ->. discriminate.
Qed.

Lemma Rabs_small_of_eq x : x = 1 -> Rabs (x - 1) <= 1e-9.
Proof. intros ->. replace (1 - 1) with 0 by lra. rewrite Rabs_R0. lra. Qed.



Lemma logprobsToProbs_order l a b :
  l <> [] -> NoDup (map token l) -> In a l -> In b l ->
  exists pa pb,
    JSMap.get (logprobsToProbs l) (token a) = Some pa /\
    JSMap.get (logprobsToProbs l) (token b) = Some pb /\
    (logprob a <= logprob b <-> pa <= pb).
Proof.
  intros Hne Hnd Ha Hb. rewrite (logprobsToProbs_nodup l Hnd).
  set (w := fun lp => exp (logprob lp - maxLogprobOf l) / sumExpOf l).
  assert (Hwf : JSMap.wf (normalized l))
    by (unfold JSMap.wf; rewrite normalized_keys; assumption).
  assert (Hget : forall x, In x l -> JSMap.get (normalized l) (token x) = Some (w x)).
  { intros x Hx. apply jsmap_get_wf_in; [assumption|].
    unfold normalized. apply in_map_iff. exists x. split; [reflexivity | assumption]. }
  exists (w a), (w b). repeat split; auto; unfold w; intros H.
  - apply Rmult_le_compat_r.
    + left. apply Rinv_0_lt_compat, sumExpOf_pos. assumption.
    + apply (proj2 (exp_le_iff _ _)). lra.
  - pose proof (sumExpOf_pos Hne) as HS.
    apply Rmult_le_reg_r in H; [|apply Rinv_0_lt_compat; assumption].
    apply (proj1 (exp_le_iff _ _)) in H. lra.
Qed.

Lemma Rmax_0_neg (x : R) : x <= 0 -> Rmax 0 x = 0.
Proof. intros H. apply Rmax_left. assumption. Qed.

(** C1 (as amended): for every [Math.exp] that is exact at zero, never
    negative and non-decreasing, [logprobsToProbs] returns the empty map
    on the empty input, and on every input
    - each probability it returns lies in [0,1];
    - when the input is non-empty and its tokens are pairwise distinct,
      the probabilities sum to 1 (so also within 1e-9);
    - the probabilities follow the log-probabilities weakly: of two
      entries that are the last of their token, the one whose
      log-probability is not smaller gets a probability that is not
      smaller, and a strictly larger probability comes only from a
      strictly larger log-probability;
    - when the tokens are pairwise distinct, every entry is the last of
      its token. *)
Theorem logprobsToProbs_distribution : forall Math_exp : R -> R,
  ExpMath.sane Math_exp ->
  ExpMath.logprobsToProbs Math_exp [] = JSMap.empty /\
  forall l,
    (forall t p,
       JSMap.get (ExpMath.logprobsToProbs Math_exp l) t = Some p ->
       0 <= p <= 1) /\
    (l <> [] -> NoDup (map token l) ->
     Rsum (JSMap.values (ExpMath.logprobsToProbs Math_exp l)) = 1 /\
     Rabs (Rsum (JSMap.values (ExpMath.logprobsToProbs Math_exp l)) - 1)
     <= 1e-9) /\
    (forall a b,
       last_occurrence l (token a) = Some a ->
       last_occurrence l (token b) = Some b ->
       exists pa pb,
         JSMap.get (ExpMath.logprobsToProbs Math_exp l) (token a) = Some pa /\
         JSMap.get (ExpMath.logprobsToProbs Math_exp l) (token b) = Some pb /\
         (logprob a <= logprob b -> pa <= pb) /\
         (pa < pb -> logprob a < logprob b)) /\
    (NoDup (map token l) ->
     forall a, In a l -> last_occurrence l (token a) = Some a).
Proof.
  intros Math_exp Hsane. split; [reflexivity|].
  intros l. split; [|split; [|split]].
  - intros t p. apply expm_range. assumption.
  - intros Hne Hnd. pose proof (expm_sum_nodup Hsane Hne Hnd) as Hsum.
    split; [assumption | apply Rabs_small_of_eq; assumption].
  - intros a b Ha Hb.
    assert (Hne : l <> []).
    { intros ->. discriminate. }
    exists (ExpMath.weight Math_exp l a), (ExpMath.weight Math_exp l b).
    rewrite !expm_get, Ha, Hb. split; [reflexivity|]. split; [reflexivity|].
    split.
    + apply expm_weight_mono; assumption.
    + intros Hlt. destruct (Rlt_le_dec (logprob a) (logprob b)) as [|Hge];
        [assumption|].
      pose proof (expm_weight_mono Hsane b a Hne Hge). lra.
  - intros Hnd a Ha. apply last_occurrence_nodup; assumption.
Qed.

Lemma logprobsToProbs_distribution_witness :
  let l := [mkTokenProb "def" (-0.1); mkTokenProb " add" (-0.2)] in
  ExpMath.sane ExpMath.underflowing /\
  l <> [] /\ NoDup (map token l) /\
  Rabs (Rsum (JSMap.values (ExpMath.logprobsToProbs ExpMath.underflowing l)) - 1)
  <= 1e-9.
Proof.
  assert (Hne : [mkTokenProb "def" (-0.1); mkTokenProb " add" (-0.2)] <> [])
    by discriminate.
  assert (Hnd : NoDup (map token [mkTokenProb "def" (-0.1);
                                  mkTokenProb " add" (-0.2)])).
  { simpl. repeat constructor; simpl; intuition discriminate. }
  split; [exact underflowing_sane|]. split; [exact Hne|]. split; [exact Hnd|].
  exact (proj2 (proj1 (proj2 (proj2 (logprobsToProbs_distribution
                                       underflowing_sane) _))
                      Hne Hnd)).
Defined.

(** C1, the claim as stated, fails on three counts.  On an input that
    repeats a token the two entries collapse onto one key and the values
    sum to 1/2, whatever [Math.exp] is taken.  An entry whose token
    occurs again has no probability of its own: the first entry of
    [(a,-5), (b,-1), (a,0)] has the smaller log-probability, and its token
    the larger probability.  And where [Math.exp] underflows the order of
    the log-probabilities is lost: the entries at -800 and -900 both get
    probability 0. *)
Lemma logprobsToProbs_counterexample :
  (forall Math_exp : R -> R,
     ExpMath.sane Math_exp ->
     let l := [mkTokenProb "a" 0; mkTokenProb "a" 0] in
     l <> [] /\
     Rsum (JSMap.values (ExpMath.logprobsToProbs Math_exp l)) = 1 / 2 /\
     ~ Rabs (Rsum (JSMap.values (ExpMath.logprobsToProbs Math_exp l)) - 1)
       <= 1e-9) /\
  (let a := mkTokenProb "a" (-5) in
   let b := mkTokenProb "b" (-1) in
   let l := [a; b; mkTokenProb "a" 0] in
   In a l /\ In b l /\ logprob a < logprob b /\
   exists pa pb,
     JSMap.get (ExpMath.logprobsToProbs ExpMath.underflowing l) (token a)
     = Some pa /\
     JSMap.get (ExpMath.logprobsToProbs ExpMath.underflowing l) (token b)
     = Some pb /\
     pb < pa) /\
  (ExpMath.sane ExpMath.underflowing /\
   let b := mkTokenProb "b" (-800) in
   let c := mkTokenProb "c" (-900) in
   let l := [mkTokenProb "a" 0; b; c] in
   NoDup (map token l) /\
   logprob c < logprob b /\
   JSMap.get (ExpMath.logprobsToProbs ExpMath.underflowing l) (token b) = Some 0 /\
   JSMap.get (ExpMath.logprobsToProbs ExpMath.underflowing l) (token c) = Some 0).
Proof.
  split; [|split].
  - intros Math_exp Hsane. cbv zeta.
    assert (Hsum : Rsum (JSMap.values
                           (ExpMath.logprobsToProbs
                              Math_exp [mkTokenProb "a" 0; mkTokenProb "a" 0]))
                   = 1 / 2).
    { rewrite (expm_sum Hsane) by discriminate. cbn [ExpMath.overwritten existsb].
      rewrite String.eqb_refl. cbn [orb map]. rewrite Rsum_cons.
      change (Rsum []) with 0.
      unfold ExpMath.weight, ExpMath.sumExpOf.
      cbn [maxLogprobOf map fold_left logprob].
      rewrite Rmax_0_neg by lra. rewrite !Rsum_cons. change (Rsum []) with 0.
      replace (0 - 0) with 0 by lra. rewrite (proj1 Hsane). lra. }
    split; [discriminate|]. split; [exact Hsum|]. rewrite Hsum.
    replace (1 / 2 - 1) with (- (1 / 2)) by lra.
    rewrite Rabs_Ropp, Rabs_pos_eq by lra. lra.
  - cbv zeta. split; [left; reflexivity|].
    split; [right; left; reflexivity|]. split; [simpl; lra|].
    do 2 eexists. rewrite !expm_get. unfold last_occurrence. simpl.
    split; [reflexivity|]. split; [reflexivity|].
    set (l := [mkTokenProb "a" (-5); mkTokenProb "b" (-1); mkTokenProb "a" 0]).
    assert (Hmax : maxLogprobOf l = 0).
    { unfold l. cbn [maxLogprobOf map fold_left logprob].
      unfold Rmax. repeat destruct (Rle_dec _ _); lra. }
    pose proof (@expm_sumExpOf_pos _ underflowing_sane l ltac:(discriminate)).
    unfold ExpMath.weight. rewrite Hmax. cbn [logprob].
    apply Rmult_lt_compat_r; [apply Rinv_0_lt_compat; lra|].
    unfold ExpMath.underflowing.
    destruct (Rlt_dec (-1 - 0) (-746)); [lra|].
    destruct (Rlt_dec (0 - 0) (-746)); [lra|].
    apply exp_increasing. lra.
  - pose proof underflowing_sane as Hsane. split; [exact Hsane|]. cbv zeta.
    assert (Hmax : maxLogprobOf [mkTokenProb "a" 0; mkTokenProb "b" (-800);
                                 mkTokenProb "c" (-900)] = 0).
    { cbn [maxLogprobOf map fold_left logprob]. rewrite !Rmax_0_neg by lra.
      reflexivity. }
    split; [simpl; repeat constructor; simpl; intuition discriminate|].
    split; [simpl; lra|].
    rewrite !expm_get. unfold last_occurrence. simpl.
    unfold ExpMath.weight. rewrite Hmax. cbn [logprob].
    rewrite !underflowing_zero by lra. unfold Rdiv. rewrite Rmult_0_l.
    split; reflexivity.
Qed.

(** C10: for every [Math.exp] that is exact at zero, never negative and
    non-decreasing, [logprobsToProbs] keeps one entry per distinct token,
    holding the normalized weight of the token's last occurrence.  On a
    non-empty input the values sum to 1 less the weights of the entries
    written over; so they never sum to more than 1, they sum to 1 when the
    tokens are pairwise distinct, and they sum to strictly less than 1 as
    soon as an entry written over has a weight above zero; there are
    inputs with a repeated token on which they do. *)
Theorem logprobsToProbs_duplicates : forall Math_exp : R -> R,
  ExpMath.sane Math_exp -> forall l,
  JSMap.wf (ExpMath.logprobsToProbs Math_exp l) /\
  (forall t, In t (JSMap.keys (ExpMath.logprobsToProbs Math_exp l))
             <-> In t (map token l)) /\
  (forall t, JSMap.get (ExpMath.logprobsToProbs Math_exp l) t =
             option_map (ExpMath.weight Math_exp l) (last_occurrence l t)) /\
  (l <> [] ->
   Rsum (JSMap.values (ExpMath.logprobsToProbs Math_exp l))
   = 1 - Rsum (map (ExpMath.weight Math_exp l) (ExpMath.overwritten l))) /\
  Rsum (JSMap.values (ExpMath.logprobsToProbs Math_exp l)) <= 1 /\
  (l <> [] -> NoDup (map token l) ->
   Rsum (JSMap.values (ExpMath.logprobsToProbs Math_exp l)) = 1) /\
  (forall lp, In lp (ExpMath.overwritten l) ->
              0 < Math_exp (logprob lp - maxLogprobOf l) ->
              Rsum (JSMap.values (ExpMath.logprobsToProbs Math_exp l)) < 1) /\
  (exists dup,
     ~ NoDup (map token dup) /\
     Rsum (JSMap.values (ExpMath.logprobsToProbs Math_exp dup)) < 1).
Proof.
  intros Math_exp Hsane l.
  assert (Hlt : forall l lp,
             In lp (ExpMath.overwritten l) ->
             0 < Math_exp (logprob lp - maxLogprobOf l) ->
             Rsum (JSMap.values (ExpMath.logprobsToProbs Math_exp l)) < 1);
    [clear l; intros l lp Hin Hpos|].
  2: {
    split; [apply expm_wf|]. split; [apply expm_keys|].
    split; [apply expm_get|]. split; [apply expm_sum; assumption|].
    split; [|split; [apply expm_sum_nodup; assumption|split; [apply Hlt|]]].
    - destruct l as [|x l]; [simpl; lra|].
      rewrite (expm_sum Hsane) by discriminate.
      pose proof (expm_overwritten_nonneg Hsane (x :: l)). lra.
    - exists [mkTokenProb "a" 0; mkTokenProb "a" 0]. split.
      + simpl. intros H. inversion H as [|? ? Hni _]; subst.
        apply Hni. left. reflexivity.
      + apply (Hlt _ (mkTokenProb "a" 0)).
        * simpl. left. reflexivity.
        * cbn [maxLogprobOf map fold_left logprob]. rewrite Rmax_0_neg by lra.
          replace (0 - 0) with 0 by lra. rewrite (proj1 Hsane). lra. }
  - 
    assert (Hne : l <> []) by (intros ->; destruct Hin).
    rewrite (expm_sum Hsane Hne).
    assert (Hw : 0 < ExpMath.weight Math_exp l lp).
    { unfold ExpMath.weight. apply Rdiv_lt_0_compat; [assumption|].
      pose proof (expm_sumExpOf_pos Hsane Hne). lra. }
    assert (Hle : ExpMath.weight Math_exp l lp
                  <= Rsum (map (ExpMath.weight Math_exp l) (ExpMath.overwritten l))).
    { apply Rsum_ge_member.
      - intros y Hy. apply in_map_iff in Hy. destruct Hy as (z & <- & Hz).
        apply (expm_weight_range Hsane). apply overwritten_in. assumption.
      - apply in_map. assumption. }
    lra.
Qed.

Lemma logprobsToProbs_duplicates_witness :
  let l := [mkTokenProb "a" 0; mkTokenProb "b" (-1); mkTokenProb "a" (-2)] in
  ExpMath.sane ExpMath.underflowing /\
  In (mkTokenProb "a" 0) (ExpMath.overwritten l) /\
  0 < ExpMath.underflowing (logprob (mkTokenProb "a" 0) - maxLogprobOf l) /\
  Rsum (JSMap.values (ExpMath.logprobsToProbs ExpMath.underflowing l)) < 1.
Proof.
  assert (Hin : In (mkTokenProb "a" 0)
                   (ExpMath.overwritten [mkTokenProb "a" 0; mkTokenProb "b" (-1);
                                         mkTokenProb "a" (-2)])).
  { simpl. left. reflexivity. }
  assert (Hpos : 0 < ExpMath.underflowing
                       (logprob (mkTokenProb "a" 0)
                        - maxLogprobOf [mkTokenProb "a" 0; mkTokenProb "b" (-1);
                                        mkTokenProb "a" (-2)])).
  { cbn [maxLogprobOf map fold_left logprob]. rewrite !Rmax_0_neg by lra.
    replace (0 - 0) with 0 by lra. rewrite (proj1 underflowing_sane). lra. }
  split; [exact underflowing_sane|]. split; [exact Hin|]. split; [exact Hpos|].
  exact (proj1 (proj2 (proj2 (proj2 (proj2 (proj2 (proj2
           (logprobsToProbs_duplicates underflowing_sane _)))))))
           _ Hin Hpos).
Defined.

(** With duplicates the values can still sum to exactly 1: where
    [Math.exp] underflows, the entry written over weighs nothing. *)
Lemma logprobsToProbs_duplicates_underflow :
  let l := [mkTokenProb "a" 0; mkTokenProb "b" (-800); mkTokenProb "b" (-900)] in
  ~ NoDup (map token l) /\
  Rsum (JSMap.values (ExpMath.logprobsToProbs ExpMath.underflowing l)) = 1.
Proof.
  split.
  - simpl. intros H. inversion H as [|? ? _ H']; subst.
    inversion H' as [|? ? Hni _]; subst. apply Hni. left. reflexivity.
  - rewrite (expm_sum underflowing_sane) by discriminate.
    cbn [ExpMath.overwritten existsb token]. simpl String.eqb. cbn [orb map].
    rewrite Rsum_cons. change (Rsum []) with 0.
    unfold ExpMath.weight. cbn [maxLogprobOf map fold_left logprob].
    rewrite !Rmax_0_neg by lra. rewrite underflowing_zero by lra. lra.
Qed.
End ProbsClaims.

(* ================================================================== *)
(** * [calculateEntropy] *)
(* ================================================================== *)

Section EntropyFacts.
Import MathUtils.
Local Open Scope R_scope.
Implicit Types (probs : JSMap.t R) (p : R).

Lemma Rltb_true x y : Rltb x y = true <-> x < y.
Proof. unfold Rltb. destruct (Rlt_dec x y); split; auto; discriminate. Qed.

Lemma Rltb_false x y : Rltb x y = false <-> ~ x < y.
Proof. unfold Rltb. destruct (Rlt_dec x y); split; auto; try discriminate; tauto. Qed.

Lemma Rleb_true x y : Rleb x y = true <-> x <= y.
Proof. unfold Rleb. destruct (Rle_dec x y); split; auto; discriminate. Qed.

Lemma Rleb_false x y : Rleb x y = false <-> ~ x <= y.
Proof. unfold Rleb. destruct (Rle_dec x y); split; auto; try discriminate; tauto. Qed.

Lemma ln2_pos : 0 < ln 2.
Proof. pose proof ln_lt_2. lra. Qed.

Lemma ln_le_minus_1 y : 0 < y -> ln y <= y - 1.
Proof.
  intros Hy. pose proof (exp_ineq1_le (ln y)) as H.
  rewrite exp_ln in H by assumption. lra.
Qed.

Lemma ln_nonpos p : 0 < p -> p <= 1 -> ln p <= 0.
Proof. intros H0 H1. pose proof (ln_le_minus_1 H0). lra. Qed.












End EntropyFacts.

Section EntropyClaims.
Import MathUtils.
Local Open Scope R_scope.
Implicit Types (probs : JSMap.t R) (p : R).









End EntropyClaims.

(* ================================================================== *)
(** * The stable sort *)
(* ================================================================== *)

Section SortFacts.
Context {A : Type} (before : A -> A -> bool).
Hypothesis before_total : forall a b, before a b = false -> before b a = true.
Hypothesis before_trans :
  forall a b c, before a b = true -> before b c = true -> before a c = true.

Let ordered (a b : A) : Prop := before a b = true.

Lemma insert_perm x l : Permutation (x :: l) (JSArray.insert before x l).
Proof.
  induction l as [|y ys IH]; simpl; [reflexivity|].
  destruct (before x y); [reflexivity|].
  rewrite perm_swap. apply perm_skip. assumption.
Qed.

Lemma sort_perm l : Permutation l (JSArray.sort before l).
Proof.
  induction l as [|x l IH]; simpl; [constructor|].
  rewrite <- insert_perm. apply perm_skip. assumption.
Qed.

Lemma sort_length l : List.length (JSArray.sort before l) = List.length l.
Proof. symmetry. apply Permutation_length, sort_perm. Qed.

Lemma insert_sorted x l :
  StronglySorted ordered l -> StronglySorted ordered (JSArray.insert before x l).
Proof.
  induction l as [|y ys IH]; simpl; intros Hs.
  - repeat constructor.
  - inversion Hs as [|? ? Hys Hall]; subst.
    destruct (before x y) eqn:E.
    + constructor; [assumption|]. constructor; [exact E|].
      eapply Forall_impl; [|exact Hall].
      intros z Hz. eapply before_trans; eassumption.
    + constructor; [apply IH; assumption|].
      apply (Permutation_Forall (insert_perm x ys)).
      constructor; [apply before_total; assumption | assumption].
Qed.

Lemma sort_sorted l : StronglySorted ordered (JSArray.sort before l).
Proof.
  induction l as [|x l IH]; simpl; [constructor | apply insert_sorted; assumption].
Qed.
End SortFacts.

(* ================================================================== *)
(** * [calculateMargin] and [calculateKL] *)
(* ================================================================== *)

Section MarginFacts.
Import MathUtils.
Local Open Scope R_scope.

Lemma by_logprob_desc_true a b :
  by_logprob_desc a b = true <-> logprob b <= logprob a.
Proof. unfold by_logprob_desc. rewrite Rleb_true. lra. Qed.

Lemma StronglySorted_impl {A : Type} (P Q : A -> A -> Prop) (l : list A) :
  (forall a b, P a b -> Q a b) -> StronglySorted P l -> StronglySorted Q l.
Proof.
  intros HPQ Hs. induction Hs as [|a l Hs IH Hall]; constructor; [assumption|].
  eapply Forall_impl; [|exact Hall]. intros b. apply HPQ.
Qed.

Lemma sort_by_logprob_sorted l :
  StronglySorted (fun a b => logprob b <= logprob a)
                 (JSArray.sort by_logprob_desc l).
Proof.
  eapply StronglySorted_impl; [|apply (sort_sorted by_logprob_desc)].
  - intros a b. apply by_logprob_desc_true.
  - intros a b H. apply by_logprob_desc_true.
    destruct (by_logprob_desc a b) eqn:E; [discriminate|].
    unfold by_logprob_desc in E. apply Rleb_false in E. lra.
  - intros a b c Hab Hbc. apply by_logprob_desc_true in Hab, Hbc.
    apply by_logprob_desc_true. lra.
Qed.

Lemma or_else_zero x : or_else (Some x) 0 = x.
Proof. simpl. destruct (Req_dec_T x 0); congruence. Qed.

End MarginFacts.

Section MarginClaims.
Import MathUtils.
Local Open Scope R_scope.

(** The two lookups of a descending pair, over any [Math.exp]. *)
Lemma expm_top_two (Math_exp : R -> R) s0 s1 :
  ExpMath.sane Math_exp ->
  logprob s1 <= logprob s0 ->
  let e := Math_exp (logprob s1 - logprob s0) in
  let p1 :=
    or_else (JSMap.get (ExpMath.logprobsToProbs Math_exp [s0; s1]) (token s0)) 0 in
  let p2 :=
    or_else (JSMap.get (ExpMath.logprobsToProbs Math_exp [s0; s1]) (token s1)) 0 in
  0 <= e <= 1 /\
  p2 = e / (1 + e) /\
  (token s0 <> token s1 -> p1 = 1 / (1 + e)) /\
  (token s0 = token s1 -> p1 = e / (1 + e)).
Proof.
  intros Hsane Hle e p1 p2.
  assert (He : 0 <= e <= 1).
  { destruct Hsane as (H0 & Hpos & Hmono). split; [apply Hpos|].
    rewrite <- H0. apply Hmono. lra. }
  assert (Hmax : maxLogprobOf [s0; s1] = logprob s0).
  { cbn [maxLogprobOf map fold_left]. apply Rmax_left. assumption. }
  assert (Hw0 : ExpMath.weight Math_exp [s0; s1] s0 = 1 / (1 + e)).
  { unfold ExpMath.weight, ExpMath.sumExpOf. rewrite Hmax. cbn [map].
    rewrite !Rsum_cons. change (Rsum []) with 0.
    replace (logprob s0 - logprob s0) with 0 by lra.
    rewrite (proj1 Hsane). fold e. f_equal. lra. }
  assert (Hw1 : ExpMath.weight Math_exp [s0; s1] s1 = e / (1 + e)).
  { unfold ExpMath.weight, ExpMath.sumExpOf. rewrite Hmax. cbn [map].
    rewrite !Rsum_cons. change (Rsum []) with 0.
    replace (logprob s0 - logprob s0) with 0 by lra.
    rewrite (proj1 Hsane). fold e. f_equal. lra. }
  assert (H2 : p2 = e / (1 + e)).
  { unfold p2. rewrite expm_get. unfold last_occurrence. simpl.
    rewrite String.eqb_refl. simpl option_map. rewrite or_else_zero. exact Hw1. }
  split; [exact He|]. split; [exact H2|]. split.
  - intros Hne. unfold p1. rewrite expm_get. unfold last_occurrence. simpl.
    rewrite String.eqb_refl.
    destruct (String.eqb_spec (token s1) (token s0)) as [Heq|_]; [congruence|].
    simpl option_map. rewrite or_else_zero. exact Hw0.
  - intros Heq. unfold p1. rewrite Heq. exact H2.
Qed.

(** C6: for every [Math.exp] that is exact at zero, never negative and
    non-decreasing, [calculateMargin] returns exactly 1 on fewer than two
    entries.  On two or more it sorts them by descending log-probability,
    renormalizes the first two, [s0] and [s1], alone, and returns
    [p1 - p2], the difference of what the map holds for the two tokens.
    With [e = Math.exp(s1.logprob - s0.logprob)], which lies in [0,1],
    [p2] is [e / (1 + e)]; [p1] is [1 / (1 + e)] when the two tokens
    differ, and is [p2] when they are the same token, for then both
    lookups read the one key.  So the margin is [(1 - e) / (1 + e)] or
    [0]; it lies in [0,1]. *)
Theorem calculateMargin_spec : forall Math_exp : R -> R,
  ExpMath.sane Math_exp -> forall topLogprobs,
  ((List.length topLogprobs < 2)%nat ->
   ExpMath.calculateMargin Math_exp topLogprobs = 1) /\
  ((2 <= List.length topLogprobs)%nat ->
   exists s0 s1 rest p1 p2,
     JSArray.sort by_logprob_desc topLogprobs = s0 :: s1 :: rest /\
     Permutation topLogprobs (s0 :: s1 :: rest) /\
     StronglySorted (fun a b => logprob b <= logprob a) (s0 :: s1 :: rest) /\
     ExpMath.calculateMargin Math_exp topLogprobs = p1 - p2 /\
     0 <= Math_exp (logprob s1 - logprob s0) <= 1 /\
     p2 = Math_exp (logprob s1 - logprob s0)
          / (1 + Math_exp (logprob s1 - logprob s0)) /\
     (token s0 <> token s1 ->
      p1 = 1 / (1 + Math_exp (logprob s1 - logprob s0)) /\
      ExpMath.calculateMargin Math_exp topLogprobs
      = (1 - Math_exp (logprob s1 - logprob s0))
        / (1 + Math_exp (logprob s1 - logprob s0))) /\
     (token s0 = token s1 ->
      p1 = p2 /\ ExpMath.calculateMargin Math_exp topLogprobs = 0) /\
     0 <= ExpMath.calculateMargin Math_exp topLogprobs <= 1).
Proof.
  intros Math_exp Hsane [|a [|b rest]].
  - split; [reflexivity | simpl; lia].
  - split; [reflexivity | simpl; lia].
  - split; [simpl; lia | intros _].
    pose proof (sort_length by_logprob_desc (a :: b :: rest)) as Hlen.
    pose proof (sort_perm by_logprob_desc (a :: b :: rest)) as Hperm.
    pose proof (sort_by_logprob_sorted (a :: b :: rest)) as Hsorted.
    destruct (JSArray.sort by_logprob_desc (a :: b :: rest))
      as [|s0 [|s1 rest']] eqn:Hsort; simpl in Hlen; try lia.
    assert (Hm : ExpMath.calculateMargin Math_exp (a :: b :: rest) =
                 or_else (JSMap.get (ExpMath.logprobsToProbs Math_exp [s0; s1])
                                    (token s0)) 0 -
                 or_else (JSMap.get (ExpMath.logprobsToProbs Math_exp [s0; s1])
                                    (token s1)) 0).
    { unfold ExpMath.calculateMargin. rewrite Hsort. reflexivity. }
    assert (Hle : logprob s1 <= logprob s0).
    { inversion Hsorted as [|? ? _ Hall]; subst.
      inversion Hall; subst. assumption. }
    destruct (expm_top_two s0 s1 Hsane Hle) as (He & H2 & Hdiff & Hsame).
    set (e := Math_exp (logprob s1 - logprob s0)) in *.
    set (p1 := or_else (JSMap.get (ExpMath.logprobsToProbs Math_exp [s0; s1])
                                  (token s0)) 0) in *.
    set (p2 := or_else (JSMap.get (ExpMath.logprobsToProbs Math_exp [s0; s1])
                                  (token s1)) 0) in *.
    assert (Hinv : 0 < / (1 + e)) by (apply Rinv_0_lt_compat; lra).
    assert (Hclosed : token s0 <> token s1 ->
                      p1 - p2 = (1 - e) / (1 + e)).
    { intros Hne. rewrite (Hdiff Hne), H2. field. lra. }
    exists s0, s1, rest', p1, p2. rewrite Hm.
    split; [reflexivity|]. split; [assumption|]. split; [assumption|].
    split; [reflexivity|]. split; [exact He|]. split; [exact H2|].
    split; [|split].
    + intros Hne. split; [exact (Hdiff Hne) | exact (Hclosed Hne)].
    + intros Heq. rewrite (Hsame Heq), H2. split; [reflexivity | lra].
    + destruct (string_dec (token s0) (token s1)) as [Heq|Hne].
      * rewrite (Hsame Heq), H2. lra.
      * rewrite (Hclosed Hne). split.
        -- apply Rmult_le_pos; lra.
        -- apply Rmult_le_reg_r with (r := 1 + e); [lra|].
           unfold Rdiv. rewrite Rmult_assoc, Rinv_l by lra. lra.
Qed.

Lemma calculateMargin_spec_witness :
  let single := [mkTokenProb "x" (-0.05)] in
  let pair := [mkTokenProb "b" (-2); mkTokenProb "a" (-1)] in
  ExpMath.sane ExpMath.underflowing /\
  ((List.length single < 2)%nat /\
   ExpMath.calculateMargin ExpMath.underflowing single = 1) /\
  ((2 <= List.length pair)%nat /\
   0 <= ExpMath.calculateMargin ExpMath.underflowing pair <= 1).
Proof.
  split; [exact underflowing_sane|]. split.
  - split; [simpl; lia|].
    apply (proj1 (calculateMargin_spec underflowing_sane _)). simpl; lia.
  - split; [simpl; lia|].
    destruct (proj2 (calculateMargin_spec
                       underflowing_sane
                       [mkTokenProb "b" (-2); mkTokenProb "a" (-1)]))
      as (s0 & s1 & rest & p1 & p2 & _ & _ & _ & _ & _ & _ & _ & _ & H);
      [simpl; lia | exact H].
Defined.

Lemma calculateKL_fold (p : JSMap.t R) (l : list (string * R)) : forall a,
  (forall e, In e l -> JSMap.get p (fst e) = Some (snd e)) ->
  fold_left (fun kl e =>
               let qVal := or_else (JSMap.get p (fst e)) 1e-10 in
               if Rltb 0 (snd e) then kl + snd e * ln (snd e / qVal) else kl)
            l a = a.
Proof.
  induction l as [|[t v] l IH]; intros a Hl; [reflexivity|].
  cbn [fold_left fst snd].
  rewrite IH by (intros; apply Hl; right; assumption).
  pose proof (Hl (t, v) (or_introl eq_refl)) as Hg. cbn [fst snd] in Hg.
  rewrite Hg. cbn [or_else].
  destruct (Rltb 0 v) eqn:E; [|reflexivity].
  apply Rltb_true in E.
  destruct (Req_dec_T v 0); [lra|].
  replace (v / v) with 1 by (field; assumption).
  rewrite ln_1. lra.
Qed.

Lemma calculateKL_self_zero (p : JSMap.t R) : JSMap.wf p -> calculateKL p p = 0.
Proof.
  intros Hwf. unfold calculateKL, JSMap.entries. apply calculateKL_fold.
  intros [t v] Hin. apply jsmap_get_wf_in; assumption.
Qed.

(** C7: the KL divergence of a distribution against itself is 0 within
    1e-6 (it is exactly 0, for every map, whether or not it is
    normalized). *)
Theorem calculateKL_self : forall p : JSMap.t R,
  JSMap.wf p -> Rabs (calculateKL p p) <= 1e-6.
Proof.
  intros p Hwf. rewrite (calculateKL_self_zero Hwf), Rabs_R0. lra.
Qed.

Lemma calculateKL_self_witness :
  let p : JSMap.t R := [("a"%string, 0.9); ("b"%string, 0.1)] in
  JSMap.wf p /\ Rabs (calculateKL p p) <= 1e-6.
Proof.
  assert (Hwf : JSMap.wf [("a"%string, 0.9); ("b"%string, 0.1)]).
  { unfold JSMap.wf. simpl. repeat constructor; simpl; intuition discriminate. }
  split; [exact Hwf | exact (calculateKL_self Hwf)].
Defined.
End MarginClaims.

(* ================================================================== *)
(** * [PredictionCache]: the bound, the TTL and the eviction order *)
(* ================================================================== *)

Section CacheClaims.
Import PredictionCache.
Local Open Scope Z_scope.

(** C2 (as amended): for a cache constructed with [maxSize >= 1],
    [size() <= maxSize] holds after every sequence of [get], [set],
    [clear] and [size] calls; a value returned by [get] comes from an entry
    whose age is at most the TTL; and a [get] on an entry older than the
    TTL deletes that entry and returns a miss. *)
Theorem cache_bound_and_ttl : forall (T : Type) (cap ttl : Z),
  1 <= cap ->
  (forall ops : list (op T), size (run (new cap ttl) ops) <= cap) /\
  (forall (ops : list (op T)) now key v,
     fst (get (run (new cap ttl) ops) now key) = Some v ->
     exists e, JSMap.get (cache (run (new cap ttl) ops)) key = Some e /\
               value e = v /\ now - timestamp e <= ttl) /\
  (forall (ops : list (op T)) now key e,
     JSMap.get (cache (run (new cap ttl) ops)) key = Some e ->
     ttl < now - timestamp e ->
     fst (get (run (new cap ttl) ops) now key) = None /\
     cache (snd (get (run (new cap ttl) ops) now key)) =
       JSMap.delete (cache (run (new cap ttl) ops)) key /\
     JSMap.get (cache (snd (get (run (new cap ttl) ops) now key))) key = None).
Proof.
  intros T cap ttl Hcap.
  assert (Hinv : forall ops : list (op T), cache_inv cap ttl (run (new cap ttl) ops)).
  { intros ops. apply cache_inv_run; [assumption|]. apply cache_inv_new. lia. }
  split; [|split].
  - intros ops. apply (Hinv ops).
  - intros ops now key v Hhit.
    destruct (Hinv ops) as (_ & Httl & _ & _).
    destruct (cache_get_hit _ _ _ Hhit) as (e & He & Hv & Hage).
    rewrite Httl in Hage. exists e. auto.
  - intros ops now key e He Hold.
    destruct (Hinv ops) as (_ & Httl & Hwf & _).
    rewrite (@cache_get_expired T _ now key e He)
      by (rewrite Httl; assumption).
    simpl. repeat split.
    destruct (JSMap.get (JSMap.delete _ key) key) eqn:E; [|reflexivity].
    exfalso. apply (jsmap_not_in_delete key Hwf).
    apply jsmap_get_in_keys. congruence.
Qed.

Lemma cache_bound_and_ttl_witness :
  let ops := [OpSet 0 "a" 1%nat; OpSet 1 "b" 2%nat; OpGet 2 "a";
              OpSet 3 "c" 3%nat] in
  1 <= 2 /\ size (run (new 2 1000) ops) <= 2.
Proof.
  split; [lia|].
  apply (proj1 (@cache_bound_and_ttl nat 2 1000 ltac:(lia))).
Defined.

(** C2, the claim as stated, fails for [maxSize = 0]: the guard
    [firstKey !== undefined] finds nothing to evict and the entry is stored
    all the same. *)
Lemma cache_bound_counterexample :
  let c := set (new 0 1000) 5 "a" 1%nat in
  ~ size c <= maxSize c.
Proof. vm_compute. intros H. apply H. reflexivity. Qed.

(** [set] on a key that is present overwrites value and timestamp and
    leaves the iteration order, hence the eviction order, as it was. *)
Lemma cache_set_present (T : Type) (c : PredictionCache.t T) now key v :
  JSMap.has (cache c) key = true ->
  JSMap.keys (cache (set c now key v)) = JSMap.keys (cache c) /\
  JSMap.get (cache (set c now key v)) key = Some (mkEntry v now).
Proof.
  intros Hhas. unfold set. rewrite Hhas, andb_false_r. simpl.
  rewrite jsmap_keys_set, Hhas, jsmap_get_set_same. auto.
Qed.

(** [set] on an absent key of a full cache evicts the first key in
    iteration order and appends the new one. *)
Lemma cache_set_full (T : Type) (c : PredictionCache.t T) now key v :
  1 <= maxSize c -> size c = maxSize c -> JSMap.wf (cache c) ->
  JSMap.has (cache c) key = false ->
  JSMap.keys (cache (set c now key v)) = tl (JSMap.keys (cache c)) ++ [key].
Proof.
  intros Hcap Hfull Hwf Hhas. unfold set.
  rewrite Hhas, Hfull, Z.geb_leb, Z.leb_refl. simpl.
  unfold size, JSMap.size in Hfull.
  destruct (cache c) as [|[k0 e0] rest] eqn:Hc; simpl in *; [lia|].
  rewrite String.eqb_refl, jsmap_keys_set.
  unfold JSMap.has in Hhas. simpl in Hhas.
  destruct (String.eqb k0 key); [discriminate|].
  unfold JSMap.has. destruct (JSMap.get rest key); [discriminate | reflexivity].
Qed.

Lemma cache_set_room (T : Type) (c : PredictionCache.t T) now key v :
  size c < maxSize c -> JSMap.has (cache c) key = false ->
  JSMap.keys (cache (set c now key v)) = (JSMap.keys (cache c) ++ [key])%list.
Proof.
  intros Hroom Hhas. unfold set.
  destruct (Z.geb_spec (size c) (maxSize c)); [lia|]. simpl.
  rewrite jsmap_keys_set, Hhas. reflexivity.
Qed.

(** C3 at its failing input: after [set a; set b; set a; set c] on a cache
    of capacity 2 the key written last before the insertion, [a], is the
    one evicted; [b], untouched since its insertion, survives. *)
Theorem cache_set_overwrite_not_refreshed :
  let c := run (new 2 1000)
               [OpSet 1 "a" 10; OpSet 2 "b" 20; OpSet 3 "a" 30; OpSet 4 "c" 40] in
  JSMap.keys (cache c) = ["b"; "c"]%string /\
  fst (get c 5 "a") = None /\
  fst (get c 5 "b") = Some 20.
Proof. vm_compute. repeat split. Qed.
End CacheClaims.

(* ================================================================== *)
(** * [api/hudClient]: failures and overlapping lookups *)
(* ================================================================== *)

Section FetchFacts.
Import HudClient.
Local Open Scope Z_scope.
Implicit Types (c : PredictionCache.t Json.t) (key : string).

Lemma settle_failed (T : Type) (c : PredictionCache.t T) now key
      (reply : Reply T) :
  failed reply = true -> settle c now key reply = (None, c).
Proof.
  destruct reply as [|ok status body]; simpl; [reflexivity|].
  intros ->. reflexivity.
Qed.

Lemma if_truthy_some (cached : option Json.t) v :
  Json.if_truthy cached = Some v -> cached = Some v /\ Json.truthy v = true.
Proof.
  destruct cached as [w|]; simpl; [|discriminate].
  destruct (Json.truthy w) eqn:E; [|discriminate].
  intros [= ->]. auto.
Qed.

Lemma lookup_miss_effect c now key :
  Json.if_truthy (fst (PredictionCache.get c now key)) = None ->
  lookup_effect c (snd (PredictionCache.get c now key)) now key.
Proof.
  unfold PredictionCache.get, lookup_effect.
  destruct (JSMap.get (PredictionCache.cache c) key) as [e|]; [|reflexivity].
  destruct (now - PredictionCache.timestamp e >? PredictionCache.ttlMs c);
    simpl; [reflexivity|].
  destruct (Json.truthy (PredictionCache.value e)); [discriminate|].
  intros _. split; reflexivity.
Qed.

Lemma get_nothing_added c now key :
  JSMap.wf (PredictionCache.cache c) ->
  nothing_added c (snd (PredictionCache.get c now key)).
Proof.
  intros Hwf k e. unfold PredictionCache.get.
  destruct (JSMap.get (PredictionCache.cache c) key) as [e0|] eqn:E;
    [|exact (fun H => H)].
  destruct (now - PredictionCache.timestamp e0 >? PredictionCache.ttlMs c); simpl.
  - destruct (String.eqb_spec k key) as [->|Hne].
    + intros Hget. exfalso. apply (jsmap_not_in_delete key Hwf).
      apply jsmap_get_in_keys. congruence.
    + rewrite jsmap_get_delete_other by exact Hne. exact (fun H => H).
  - destruct (String.eqb_spec k key) as [->|Hne].
    + rewrite jsmap_get_set_same. congruence.
    + rewrite jsmap_get_set_other, jsmap_get_delete_other by exact Hne.
      exact (fun H => H).
Qed.

(** A lookup that sent the caller to the backend sends it there again
    when repeated, at whatever time, before anything is stored. *)
Lemma lookup_miss_again c now1 now2 key :
  JSMap.wf (PredictionCache.cache c) ->
  Json.if_truthy (fst (PredictionCache.get c now1 key)) = None ->
  Json.if_truthy
    (fst (PredictionCache.get (snd (PredictionCache.get c now1 key)) now2 key))
  = None.
Proof.
  intros Hwf. unfold PredictionCache.get at 1 3.
  destruct (JSMap.get (PredictionCache.cache c) key) as [e|] eqn:E.
  - destruct (now1 - PredictionCache.timestamp e >? PredictionCache.ttlMs c);
      simpl.
    + intros _. unfold PredictionCache.get. simpl.
      destruct (JSMap.get (JSMap.delete _ key) key) eqn:E'; [|reflexivity].
      exfalso. apply (jsmap_not_in_delete key Hwf).
      apply jsmap_get_in_keys. congruence.
    + intros Hfalsy. unfold PredictionCache.get. simpl.
      rewrite jsmap_get_set_same.
      destruct (now2 - PredictionCache.timestamp e >? PredictionCache.ttlMs c);
        simpl; [reflexivity | exact Hfalsy].
  - intros _. simpl. unfold PredictionCache.get. rewrite E. reflexivity.
Qed.


Lemma get_ttl (T : Type) (c : PredictionCache.t T) now key :
  PredictionCache.ttlMs (snd (PredictionCache.get c now key))
  = PredictionCache.ttlMs c.
Proof.
  unfold PredictionCache.get.
  destruct (JSMap.get (PredictionCache.cache c) key) as [e|]; [|reflexivity].
  destruct (_ >? _); reflexivity.
Qed.

Lemma get_absent (T : Type) (c : PredictionCache.t T) now key :
  JSMap.get (PredictionCache.cache c) key = None ->
  PredictionCache.get c now key = (None, c).
Proof. intros H. unfold PredictionCache.get. rewrite H. reflexivity. Qed.

End FetchFacts.

Section FetchClaims.
Import HudClient FetchProps.
Local Open Scope Z_scope.

Ltac split_lookup Hstart :=
  match type of Hstart with
  | context [PredictionCache.get ?cache ?now ?key] =>
      pose proof (@lookup_miss_effect cache now key) as Heffect;
      pose proof (@get_nothing_added cache now key) as Hadded;
      pose proof (fun Hwf now2 => @lookup_miss_again cache now now2 key Hwf)
        as Hagain;
      pose proof (@get_ttl _ cache now key) as Httl;
      destruct (PredictionCache.get cache now key) as [cached c'] eqn:Hget;
      simpl in Hstart, Heffect, Hadded, Hagain, Httl;
      destruct (Json.if_truthy cached) as [v|] eqn:Htruthy;
      simpl in Hstart; [discriminate|];
      injection Hstart as <-
  end.

Ltac failure_tac start finish :=
  split;
  [ intros s later cacheKey reply Hfailed; unfold finish;
    rewrite settle_failed by exact Hfailed; destruct s; reflexivity
  | intros s now later code uri cursorLine cursorChar reply cacheKey
           Hwf Hfailed Hstart;
    unfold run_fetch; unfold start in *; cbv zeta in *; split_lookup Hstart;
    simpl;
    split;
    [ unfold finish; simpl; rewrite settle_failed by exact Hfailed; reflexivity
    | split;
      [ match goal with
        | Heff : _ -> lookup_effect _ _ _ _ |- _ => apply Heff; reflexivity
        end
      | match goal with
        | Hadd : _ -> nothing_added _ _ |- _ => apply Hadd; exact Hwf
        end ] ] ].

Lemma fetchEntropy_failure :
  failure_caches_nothing entropyCache fetchEntropy_start fetchEntropy_finish.
Proof. failure_tac fetchEntropy_start fetchEntropy_finish. Qed.

Lemma fetchGhost_failure :
  failure_caches_nothing ghostCache fetchGhost_start fetchGhost_finish.
Proof. failure_tac fetchGhost_start fetchGhost_finish. Qed.

Lemma fetchAutopanic_failure :
  failure_caches_nothing autopanicCache fetchAutopanic_start fetchAutopanic_finish.
Proof. failure_tac fetchAutopanic_start fetchAutopanic_finish. Qed.

Lemma fetchSaliency_failure :
  failure_caches_nothing saliencyCache fetchSaliency_start fetchSaliency_finish.
Proof. failure_tac fetchSaliency_start fetchSaliency_finish. Qed.

(** C4 (as amended): when the backend call fails (transport error or
    non-2xx status), each of [fetchEntropy], [fetchGhost],
    [fetchAutopanic] and [fetchSaliency] returns [null]; handling the
    failed reply leaves the whole state, caches included, exactly as it
    was; and the call adds no entry: whatever the cache holds afterwards
    it held before, with the same value and timestamp.  The cache after
    the call differs from the one before it by the call's own lookup only,
    which drops an expired entry of the call's key and moves a live falsy
    entry of the call's key to the most recent position. *)
Theorem fetch_failure_caches_nothing :
  failure_caches_nothing entropyCache fetchEntropy_start fetchEntropy_finish /\
  failure_caches_nothing ghostCache fetchGhost_start fetchGhost_finish /\
  failure_caches_nothing autopanicCache fetchAutopanic_start fetchAutopanic_finish /\
  failure_caches_nothing saliencyCache fetchSaliency_start fetchSaliency_finish.
Proof.
  exact (conj fetchEntropy_failure
          (conj fetchGhost_failure
             (conj fetchAutopanic_failure fetchSaliency_failure))).
Qed.











(** A state of the module that holds a reply: [fetchEntropy] was called at
    time 0 for the prefix [x = 1] and its reply, an object, was stored at
    time 10. *)
Definition warm : State :=
  snd (fetchEntropy HudClient.init 0 10 "x = 1" "file:///a.py" 1 5
         (Response true 200
            (Some (Json.Object [("entropy"%string, Json.Number 1)])))).

Lemma fetch_failure_caches_nothing_witness :
  let reply : Reply Json.t := Response false 500 None in
  let s' := snd (fetchEntropy_start warm 3000 "x = 1" "file:///a.py" 1 5) in
  JSMap.wf (PredictionCache.cache (entropyCache warm)) /\
  failed reply = true /\
  PredictionCache.size (entropyCache warm) = 1 /\
  fetchEntropy warm 3000 3010 "x = 1" "file:///a.py" 1 5 reply = (None, s') /\
  nothing_added (entropyCache warm) (entropyCache s').
Proof.
  assert (Hwf : JSMap.wf (PredictionCache.cache (entropyCache warm))).
  { repeat constructor. simpl. tauto. }
  pose proof (proj2 (proj1 fetch_failure_caches_nothing)
                warm 3000 3010 "x = 1"%string "file:///a.py"%string
                1 5 (Response false 500 None) _ Hwf eq_refl eq_refl) as H.
  split; [exact Hwf|]. split; [reflexivity|]. split; [reflexivity|].
  split; [exact (proj1 H) | exact (proj2 (proj2 H))].
Defined.

(** A state that holds a falsy reply: [null] stored at time 10 for the
    prefix [x = 1], then an object stored at time 20 for [y = 2]. *)
Definition warm_null : State :=
  let s := snd (fetchEntropy HudClient.init 0 10 "x = 1" "file:///a.py" 1 5
                  (Response true 200 (Some Json.Null))) in
  snd (fetchEntropy s 15 20 "y = 2" "file:///a.py" 1 5
         (Response true 200
            (Some (Json.Object [("entropy"%string, Json.Number 1)])))).

(** C4, the claim as stated, fails: a failed call can change the cache.
    From a state whose entropy cache holds one entry, a call for that
    entry's key made after the entry has expired, and answered with status
    500, returns [null] and leaves the cache empty: the call's own lookup
    has dropped the expired entry.  And from a state that holds a live
    [null] under the call's key, the same failing call moves that entry
    behind the other one. *)
Lemma fetch_failure_changes_cache :
  let reply : Reply Json.t := Response false 500 None in
  failed reply = true /\
  (let r := fetchEntropy warm 3000 3010 "x = 1" "file:///a.py" 1 5 reply in
   fst r = None /\
   PredictionCache.size (entropyCache warm) = 1 /\
   PredictionCache.size (entropyCache (snd r)) = 0 /\
   entropyCache (snd r) <> entropyCache warm) /\
  (let r := fetchEntropy warm_null 30 40 "x = 1" "file:///a.py" 1 5 reply in
   fst r = None /\
   JSMap.keys (PredictionCache.cache (entropyCache warm_null))
   = [prefixKey "entropy" "x = 1" "file:///a.py" 1 5;
      prefixKey "entropy" "y = 2" "file:///a.py" 1 5] /\
   JSMap.keys (PredictionCache.cache (entropyCache (snd r)))
   = [prefixKey "entropy" "y = 2" "file:///a.py" 1 5;
      prefixKey "entropy" "x = 1" "file:///a.py" 1 5] /\
   entropyCache (snd r) <> entropyCache warm_null).
Proof.
  vm_compute. repeat split; discriminate.
Qed.



End FetchClaims.

(* ================================================================== *)
(** * [features/saliencyLens]: the tokens retained for display *)
(* ================================================================== *)

Section SaliencyFacts.
Import Types SaliencyLens.
Local Open Scope Q_scope.

Lemma is_salient_true t : is_salient t = true <-> KL_THRESHOLD <= klDivergence t.
Proof. unfold is_salient. apply Qle_bool_iff. Qed.

Lemma by_kl_desc_true a b :
  by_kl_desc a b = true <-> klDivergence b <= klDivergence a.
Proof. unfold by_kl_desc. rewrite Qle_bool_iff. lra. Qed.

Lemma by_kl_desc_total a b : by_kl_desc a b = false -> by_kl_desc b a = true.
Proof.
  intros H. apply by_kl_desc_true.
  destruct (Qlt_le_dec (klDivergence a) (klDivergence b)) as [Hlt|Hle].
  - lra.
  - apply by_kl_desc_true in Hle. congruence.
Qed.

Lemma by_kl_desc_trans a b c :
  by_kl_desc a b = true -> by_kl_desc b c = true -> by_kl_desc a c = true.
Proof. rewrite !by_kl_desc_true. lra. Qed.

Lemma StronglySorted_app_inv {A : Type} (P : A -> A -> Prop) (l1 l2 : list A) :
  StronglySorted P (l1 ++ l2) ->
  StronglySorted P l1 /\
  (forall a b, In a l1 -> In b l2 -> P a b).
Proof.
  induction l1 as [|x l1 IH]; simpl; intros Hs.
  - split; [constructor | intros a b []].
  - inversion Hs as [|? ? Hs' Hall]; subst.
    destruct (IH Hs') as [IH1 IH2]. split.
    + constructor; [assumption|].
      apply Forall_forall. intros y Hy.
      rewrite Forall_forall in Hall. apply Hall. apply in_or_app. auto.
    + intros a b [<-|Ha] Hb.
      * rewrite Forall_forall in Hall. apply Hall. apply in_or_app. auto.
      * apply IH2; assumption.
Qed.

Lemma sort_by_kl_sorted (l : list SaliencyToken) :
  StronglySorted (fun a b => klDivergence b <= klDivergence a)
                 (JSArray.sort by_kl_desc l).
Proof.
  eapply StronglySorted_impl;
    [|apply (sort_sorted by_kl_desc by_kl_desc_total by_kl_desc_trans)].
  intros a b. apply by_kl_desc_true.
Qed.

(** C8 (as amended): the tokens retained for display are tokens of the
    input whose KL divergence is at least 0.05 (the bound included), in
    descending order of KL divergence, at most 5 of them.  Every token of
    the input at or above 0.05 is retained, unless five tokens are
    retained and none of them has a smaller KL divergence than it.
    Counted with multiplicity: the retained tokens together with the
    dropped ones are the input's tokens at or above 0.05, every dropped
    token is at most every retained one, and tokens are dropped only when
    five are retained. *)
Theorem salientTokens_spec : forall tokens : list SaliencyToken,
  (forall t, In t (salientTokens tokens) ->
             In t tokens /\ 0.05 <= klDivergence t) /\
  StronglySorted (fun a b => klDivergence b <= klDivergence a)
                 (salientTokens tokens) /\
  (List.length (salientTokens tokens) <= 5)%nat /\
  (forall t, In t tokens -> 0.05 <= klDivergence t ->
             In t (salientTokens tokens) \/
             (List.length (salientTokens tokens) = 5%nat /\
              forall k, In k (salientTokens tokens) ->
                        klDivergence t <= klDivergence k)) /\
  exists dropped,
    Permutation (salientTokens tokens ++ dropped)
                (filter (fun t => Qle_bool 0.05 (klDivergence t)) tokens) /\
    (forall d k, In d dropped -> In k (salientTokens tokens) ->
                 klDivergence d <= klDivergence k) /\
    (dropped <> [] -> List.length (salientTokens tokens) = 5%nat).
Proof.
  intros tokens.
  assert (Hfilter : filter (fun t => Qle_bool 0.05 (klDivergence t)) tokens
                    = filter is_salient tokens).
  { apply filter_ext. intros t. reflexivity. }
  rewrite Hfilter. clear Hfilter.
  unfold salientTokens, JSArray.slice0.
  set (sorted := JSArray.sort by_kl_desc (filter is_salient tokens)).
  pose proof (sort_by_kl_sorted (filter is_salient tokens)) as Hsorted.
  pose proof (sort_perm by_kl_desc (filter is_salient tokens)) as Hperm.
  fold sorted in Hsorted, Hperm.
  rewrite <- (firstn_skipn MAX_DISPLAY_TOKENS sorted) in Hsorted.
  apply StronglySorted_app_inv in Hsorted. destruct Hsorted as [Hkept Hcut].
  assert (Hfull : skipn MAX_DISPLAY_TOKENS sorted <> [] ->
                  List.length (firstn MAX_DISPLAY_TOKENS sorted) = 5%nat).
  { intros Hne. apply firstn_length_le.
    destruct (Nat.le_gt_cases MAX_DISPLAY_TOKENS (List.length sorted))
      as [|Hlt]; [assumption|].
    exfalso. apply Hne. apply skipn_all2. lia. }
  split; [|split; [|split; [|split]]].
  - intros t Ht.
    assert (Hin : In t (filter is_salient tokens)).
    { apply (Permutation_in _ (Permutation_sym Hperm)).
      rewrite <- (firstn_skipn MAX_DISPLAY_TOKENS sorted).
      apply in_or_app. left. assumption. }
    apply filter_In in Hin. destruct Hin as [Hin Hsal].
    split; [assumption | apply is_salient_true in Hsal; exact Hsal].
  - exact Hkept.
  - apply firstn_le_length.
  - intros t Hin Hkl.
    assert (Hs : In t sorted).
    { apply (Permutation_in _ Hperm). apply filter_In.
      split; [assumption | apply is_salient_true; exact Hkl]. }
    rewrite <- (firstn_skipn MAX_DISPLAY_TOKENS sorted) in Hs.
    apply in_app_or in Hs. destruct Hs as [Hs|Hs]; [left; exact Hs|].
    right. split.
    + apply Hfull. intros Hnil. rewrite Hnil in Hs. exact Hs.
    + intros k Hk. apply Hcut; assumption.
  - exists (skipn MAX_DISPLAY_TOKENS sorted). split; [|split].
    + rewrite firstn_skipn. apply Permutation_sym. assumption.
    + intros d k Hd Hk. apply Hcut; assumption.
    + exact Hfull.
Qed.

(** C8, the claim as stated, fails at the bound: a token whose KL
    divergence equals the threshold is retained, though it is not above
    it. *)
Lemma salientTokens_threshold_counterexample :
  let t := mkSaliencyToken 1 0 0.05 "x" in
  In t (salientTokens [t]) /\ ~ KL_THRESHOLD < klDivergence t.
Proof.
  split.
  - vm_compute. left. reflexivity.
  - vm_compute. discriminate.
Qed.
End SaliencyFacts.

(* ================================================================== *)
(** * Further properties of the cache *)
(* ================================================================== *)

Section CacheOrder.
Import PredictionCache.
Local Open Scope Z_scope.
Context {T : Type}.
Implicit Types (c : PredictionCache.t T) (m : JSMap.t (CacheEntry T)).

Lemma jsmap_keys_delete m k :
  JSMap.wf m -> JSMap.keys (JSMap.delete m k) = List.remove string_dec k (JSMap.keys m).
Proof.
  unfold JSMap.wf.
  induction m as [|[k0 e0] rest IH]; simpl; intros Hnd; [reflexivity|].
  inversion Hnd as [|? ? Hni Hnd']; subst.
  destruct (String.eqb_spec k0 k) as [->|Hne].
  - destruct (string_dec k k) as [_|Hn]; [|congruence].
    symmetry. apply notin_remove. assumption.
  - destruct (string_dec k k0) as [->|_]; [congruence|].
    simpl. f_equal. apply IH. assumption.
Qed.

(** X1: a hit moves the key to the most-recent end of the iteration order
    and leaves its entry, timestamp included, as it was. *)
Theorem cache_get_hit_moves_to_end : forall c now key e,
  JSMap.wf (cache c) ->
  JSMap.get (cache c) key = Some e ->
  now - timestamp e <= ttlMs c ->
  fst (get c now key) = Some (value e) /\
  JSMap.keys (cache (snd (get c now key)))
  = (List.remove string_dec key (JSMap.keys (cache c)) ++ [key])%list /\
  JSMap.get (cache (snd (get c now key))) key = Some e.
Proof.
  intros c now key e Hwf Hget Hfresh. unfold get. rewrite Hget.
  destruct (Z.gtb_spec (now - timestamp e) (ttlMs c)); [lia|]. simpl.
  split; [reflexivity|]. split.
  - rewrite jsmap_keys_set.
    assert (Hno : JSMap.has (JSMap.delete (cache c) key) key = false)
      by (apply jsmap_has_false, jsmap_not_in_delete; assumption).
    rewrite Hno, jsmap_keys_delete by assumption. reflexivity.
  - apply jsmap_get_set_same.
Qed.

(** X2: what [set] does to the iteration order, which is the eviction
    order: a key that is present keeps its place (only value and timestamp
    change); an absent key is appended, after the first key has been
    evicted when the cache is full. *)
Theorem cache_set_order : forall c now key (v : T),
  JSMap.wf (cache c) -> 1 <= maxSize c ->
  (JSMap.has (cache c) key = true ->
   JSMap.keys (cache (set c now key v)) = JSMap.keys (cache c) /\
   JSMap.get (cache (set c now key v)) key = Some (mkEntry v now)) /\
  (JSMap.has (cache c) key = false -> size c = maxSize c ->
   JSMap.keys (cache (set c now key v))
   = (tl (JSMap.keys (cache c)) ++ [key])%list) /\
  (JSMap.has (cache c) key = false -> size c < maxSize c ->
   JSMap.keys (cache (set c now key v))
   = (JSMap.keys (cache c) ++ [key])%list).
Proof.
  intros c now key v Hwf Hcap. split; [|split].
  - apply cache_set_present.
  - intros Hhas Hfull. apply cache_set_full; assumption.
  - intros Hhas Hroom. apply cache_set_room; assumption.
Qed.
End CacheOrder.

Section CacheOrderExamples.
Import PredictionCache.
Local Open Scope Z_scope.

Lemma cache_get_hit_moves_to_end_witness :
  let c := run (new 3 1000) [OpSet 0 "a" 1%nat; OpSet 1 "b" 2%nat] in
  fst (get c 5 "a") = Some 1%nat /\
  JSMap.keys (cache (snd (get c 5 "a"))) = ["b"; "a"]%string.
Proof.
  assert (Hwf : JSMap.wf
                  (cache (run (new 3 1000) [OpSet 0 "a" 1%nat; OpSet 1 "b" 2%nat]))).
  { unfold JSMap.wf. vm_compute. repeat constructor; simpl; intuition discriminate. }
  destruct (@cache_get_hit_moves_to_end nat
              (run (new 3 1000) [OpSet 0 "a" 1%nat; OpSet 1 "b" 2%nat])
              5 "a"%string (mkEntry 1%nat 0) Hwf eq_refl ltac:(vm_compute; discriminate))
    as (H1 & H2 & _).
  split; [exact H1 | exact H2].
Defined.

Lemma cache_set_order_witness :
  let c := run (new 2 1000) [OpSet 0 "a" 1%nat; OpSet 1 "b" 2%nat] in
  JSMap.wf (cache c) /\ 1 <= maxSize c /\
  JSMap.keys (cache (set c 7 "a" 9%nat)) = ["a"; "b"]%string /\
  JSMap.keys (cache (set c 7 "c" 3%nat)) = ["b"; "c"]%string.
Proof.
  assert (Hwf : JSMap.wf
                  (cache (run (new 2 1000) [OpSet 0 "a" 1%nat; OpSet 1 "b" 2%nat]))).
  { unfold JSMap.wf. vm_compute. repeat constructor; simpl; intuition discriminate. }
  assert (Hcap : 1 <= maxSize (run (new 2 1000) [OpSet 0 "a" 1%nat; OpSet 1 "b" 2%nat]))
    by (vm_compute; discriminate).
  split; [exact Hwf|]. split; [exact Hcap|]. split.
  - exact (proj1 (proj1 (cache_set_order _ 7 "a"%string 9%nat Hwf Hcap) eq_refl)).
  - exact (proj1 (proj2 (cache_set_order _ 7 "c"%string 3%nat Hwf Hcap))
                 eq_refl eq_refl).
Defined.
End CacheOrderExamples.

Section CacheInserts.
Import PredictionCache.
Local Open Scope Z_scope.
Context {T : Type}.
Implicit Types (c : PredictionCache.t T).

Lemma tl_skipn {A : Type} (n : nat) (l : list A) : tl (skipn n l) = skipn (S n) l.
Proof.
  revert l. induction n as [|n IH]; intros [|x l]; simpl; try reflexivity.
  apply IH.
Qed.

Lemma in_skipn {A : Type} (n : nat) (l : list A) x : In x (skipn n l) -> In x l.
Proof.
  intros H. rewrite <- (firstn_skipn n l). apply in_or_app. right. assumption.
Qed.

(** X3: inserting pairwise distinct keys, none of them read in between,
    into a fresh cache of capacity [cap >= 1] leaves the last [cap] keys,
    oldest first: each insertion beyond the capacity evicts exactly the
    oldest key. *)
Theorem cache_distinct_inserts_keep_last :
  forall (cap : nat) (ttl : Z) (inserts : list (Z * (string * T))),
  (1 <= cap)%nat ->
  NoDup (inserts_keys inserts) ->
  JSMap.keys (cache (run (new (Z.of_nat cap) ttl) (inserts_ops inserts)))
  = skipn (List.length (inserts_keys inserts) - cap) (inserts_keys inserts).
Proof.
  intros cap ttl inserts Hcap.
  induction inserts as [|[now [key v]] l IH] using rev_ind; intros Hnd.
  - reflexivity.
  - unfold inserts_ops, inserts_keys in *. rewrite !map_app in *. simpl in *.
    apply NoDup_snoc in Hnd. destruct Hnd as [Hni Hnd].
    specialize (IH Hnd).
    set (ks := map (fun x => fst (snd x)) l) in *.
    set (ops := map (fun x => OpSet (fst x) (fst (snd x)) (snd (snd x))) l) in *.
    unfold run in *. rewrite fold_left_app.
    set (st := fold_left step ops (new (Z.of_nat cap) ttl)) in *.
    change (fold_left step [OpSet now key v] st) with (set st now key v).
    assert (Hinv : cache_inv (Z.of_nat cap) ttl st).
    { apply (cache_inv_run ops); [lia|]. apply cache_inv_new. lia. }
    destruct Hinv as (Hmax & _ & Hwf & _).
    assert (Hhas : JSMap.has (cache st) key = false).
    { apply jsmap_has_false. rewrite IH. intros Hin. apply in_skipn in Hin.
      contradiction. }
    assert (Hsize : size st = Z.of_nat (List.length ks - (List.length ks - cap))).
    { unfold size, JSMap.size.
      replace (List.length (cache st)) with (List.length (JSMap.keys (cache st)))
        by (unfold JSMap.keys; apply length_map).
      rewrite IH, length_skipn. reflexivity. }
    rewrite length_app. cbn [List.length].
    destruct (Nat.le_gt_cases cap (List.length ks)) as [Hfull|Hroom].
    + rewrite cache_set_full; try assumption; try lia.
      rewrite IH, tl_skipn.
      replace (List.length ks + 1 - cap)%nat with (S (List.length ks - cap)) by lia.
      rewrite skipn_app.
      replace (S (List.length ks - cap) - List.length ks)%nat with 0%nat by lia.
      reflexivity.
    + rewrite cache_set_room; try assumption; try lia.
      rewrite IH.
      replace (List.length ks - cap)%nat with 0%nat by lia.
      replace (List.length ks + 1 - cap)%nat with 0%nat by lia.
      reflexivity.
Qed.
End CacheInserts.

Section CacheInsertsExample.
Import PredictionCache.
Local Open Scope Z_scope.

Lemma cache_distinct_inserts_keep_last_witness :
  let inserts := [(0, ("a"%string, 1%nat)); (1, ("b"%string, 2%nat));
                  (2, ("c"%string, 3%nat))] in
  NoDup (inserts_keys inserts) /\
  JSMap.keys (cache (run (new (Z.of_nat 2) 1000) (inserts_ops inserts)))
  = ["b"; "c"]%string.
Proof.
  assert (Hnd : NoDup (inserts_keys
                         [(0, ("a"%string, 1%nat)); (1, ("b"%string, 2%nat));
                          (2, ("c"%string, 3%nat))])).
  { simpl. repeat constructor; simpl; intuition discriminate. }
  split; [exact Hnd|].
  exact (@cache_distinct_inserts_keep_last nat 2%nat 1000 _ ltac:(lia) Hnd).
Defined.
End CacheInsertsExample.

(* ================================================================== *)
(** * Further properties of the metrics *)
(* ================================================================== *)

Section MetricExtras.
Import MathUtils.
Local Open Scope R_scope.




(** Where [Math.exp] underflows the entropy of two distinct tokens is
    exactly 0. *)
Lemma calculateEntropyFromLogprobs_underflow :
  ExpMath.calculateEntropyFromLogprobs
    ExpMath.underflowing [mkTokenProb "a" 0; mkTokenProb "b" (-800)]
  = 0.
Proof.
  unfold ExpMath.calculateEntropyFromLogprobs, ExpMath.logprobsToProbs.
  cbn [map fold_left logprob token fst snd].
  rewrite Rmax_0_neg by lra.
  replace (0 - 0) with 0 by lra.
  rewrite (proj1 underflowing_sane), underflowing_zero by lra.
  replace (0 + 1 + 0) with 1 by lra.
  replace (1 / 1) with 1 by lra. replace (0 / 1) with 0 by lra.
  simpl. unfold calculateEntropy. simpl.
  assert (H1 : Rltb 0 1 = true) by (apply Rltb_true; lra).
  assert (H0 : Rltb 0 0 = false) by (apply Rltb_false; lra).
  rewrite H1, H0. unfold log2. rewrite ln_1. lra.
Qed.

(** X5: for two entries with different tokens the margin is the
    normalized gap between the two likelihoods. *)
Theorem calculateMargin_two_tokens : forall a b : TokenProb,
  token a <> token b ->
  calculateMargin [a; b]
  = Rabs (exp (logprob a) - exp (logprob b))
    / (exp (logprob a) + exp (logprob b)).
Proof.
  intros a b Hab.
  assert (Hba : token b <> token a) by congruence.
  assert (Hcase : forall s0 s1 : TokenProb,
             token s0 <> token s1 ->
             or_else (JSMap.get (logprobsToProbs [s0; s1]) (token s0)) 0
             - or_else (JSMap.get (logprobsToProbs [s0; s1]) (token s1)) 0
             = (exp (logprob s0) - exp (logprob s1))
               / (exp (logprob s0) + exp (logprob s1))).
  { intros s0 s1 Hne. rewrite !logprobsToProbs_get.
    unfold last_occurrence. simpl.
    rewrite String.eqb_refl.
    destruct (String.eqb_spec (token s1) (token s0)) as [Heq|_]; [congruence|].
    rewrite String.eqb_refl. simpl option_map. rewrite !or_else_zero.
    unfold softmax. simpl.
    pose proof (exp_pos (logprob s0)). pose proof (exp_pos (logprob s1)).
    field. lra. }
  pose proof (exp_pos (logprob a)) as Ha. pose proof (exp_pos (logprob b)) as Hb.
  unfold calculateMargin, JSArray.sort. cbn [fold_right JSArray.insert].
  destruct (by_logprob_desc a b) eqn:E.
  - cbn [JSArray.slice0 firstn nth]. rewrite (Hcase a b Hab).
    apply by_logprob_desc_true in E.
    assert (exp (logprob b) <= exp (logprob a))
      by (apply (proj2 (exp_le_iff _ _)); assumption).
    rewrite Rabs_pos_eq by lra. reflexivity.
  - cbn [JSArray.slice0 firstn nth]. rewrite (Hcase b a Hba).
    unfold by_logprob_desc in E. apply Rleb_false in E.
    assert (exp (logprob a) <= exp (logprob b))
      by (apply (proj2 (exp_le_iff _ _)); lra).
    rewrite Rabs_left1 by lra. field. lra.
Qed.

Lemma calculateMargin_two_tokens_witness :
  let a := mkTokenProb "def" (-0.1) in
  let b := mkTokenProb " add" (-0.2) in
  token a <> token b /\
  calculateMargin [a; b]
  = Rabs (exp (logprob a) - exp (logprob b))
    / (exp (logprob a) + exp (logprob b)).
Proof.
  assert (Hne : token (mkTokenProb "def" (-0.1)) <> token (mkTokenProb " add" (-0.2)))
    by (simpl; discriminate).
  split; [exact Hne|].
  exact (calculateMargin_two_tokens _ _ Hne).
Defined.
End MetricExtras.

(* ================================================================== *)
(** * Further properties of the cache key *)
(* ================================================================== *)

Section CacheKeyExtras.
Import CacheKey.
Local Open Scope Z_scope.

Lemma toInt32_range z : - 2 ^ 31 <= toInt32 z < 2 ^ 31.
Proof.
  unfold toInt32.
  pose proof (Z.mod_pos_bound (z + 2 ^ 31) (2 ^ 32) ltac:(lia)). lia.
Qed.

Lemma hashStep_range hash char : - 2 ^ 31 <= hashStep hash char < 2 ^ 31.
Proof. unfold hashStep. rewrite Z.land_diag. apply toInt32_range. Qed.

(** X6: the number that [hashString] prints in base 16 is a signed 32-bit
    integer, whatever the string. *)
Theorem hashString_int32 : forall str : string,
  - 2 ^ 31 <= fold_left hashStep (charCodes str) 0 < 2 ^ 31 /\
  hashString str = toString16 (fold_left hashStep (charCodes str) 0).
Proof.
  intros str. split; [|reflexivity].
  generalize (charCodes str). intros codes.
  assert (H : forall h, - 2 ^ 31 <= h < 2 ^ 31 ->
                        - 2 ^ 31 <= fold_left hashStep codes h < 2 ^ 31).
  { induction codes as [|c codes IH]; intros h Hh; simpl; [assumption|].
    apply IH. apply hashStep_range. }
  apply H. lia.
Qed.
End CacheKeyExtras.

(* ================================================================== *)
(** * [features/entropyLens]: one update in flight *)
(* ================================================================== *)

Section LensFacts.
Import EntropyLens.
Local Open Scope Z_scope.

(** X7: while a call of [highlightEntropy] waits for the backend, a second
    call returns at the [isAnalyzing] guard: it looks nothing up, sends
    nothing and leaves the state as it is, whatever the editor shows by
    then.  The second update is dropped, not attached to the first. *)
Theorem highlightEntropy_drops_overlapping_update :
  forall s now1 now2 editor1 editor2 cacheKey,
    fst (highlightEntropy_start s now1 editor1) = Waiting cacheKey ->
    highlightEntropy_start (snd (highlightEntropy_start s now1 editor1))
                           now2 editor2
    = (Skipped, snd (highlightEntropy_start s now1 editor1)).
Proof.
  intros s now1 now2 editor1 editor2 cacheKey Hwait.
  assert (Hs : exists c, snd (highlightEntropy_start s now1 editor1)
                         = mkState true true c).
  { unfold highlightEntropy_start in *.
    destruct (entropyEnabled s); simpl in *; [|discriminate].
    destruct (isAnalyzing s); [discriminate|].
    destruct editor1 as [editor|]; [|discriminate].
    destruct (HudClient.fetchEntropy_start _ _ _ _ _ _) as [[data|key] c];
      simpl in *; [discriminate|].
    exists c. reflexivity. }
  destruct Hs as (c & ->). reflexivity.
Qed.

Lemma highlightEntropy_drops_overlapping_update_witness :
  let editor := Some (mkEditor "x = " "file:///a.py" 0 4) in
  let s1 := snd (highlightEntropy_start EntropyLens.init 0 editor) in
  (exists cacheKey,
     fst (highlightEntropy_start EntropyLens.init 0 editor) = Waiting cacheKey) /\
  highlightEntropy_start s1 1 editor = (Skipped, s1).
Proof.
  split; [eexists; vm_compute; reflexivity|].
  exact (@highlightEntropy_drops_overlapping_update
           EntropyLens.init 0 1 (Some (mkEditor "x = " "file:///a.py" 0 4))
           (Some (mkEditor "x = " "file:///a.py" 0 4)) _ eq_refl).
Defined.
End LensFacts.

(* ================================================================== *)
(** * [PredictionCache]: what is stored is what is found *)
(* ================================================================== *)

Section CacheRoundTrip.
Import PredictionCache.
Local Open Scope Z_scope.
Context {T : Type}.
Implicit Types (c : PredictionCache.t T).

(** X8: a value written with [set] at time [now] is what [get] returns for
    that key at any later time within the TTL, and is a miss once the TTL
    has passed; this holds for every cache, full or not. *)
Theorem cache_set_then_get : forall c now later key (v : T),
  (later - now <= ttlMs c -> fst (get (set c now key v) later key) = Some v) /\
  (ttlMs c < later - now -> fst (get (set c now key v) later key) = None).
Proof.
  intros c now later key v.
  assert (Hget : JSMap.get (cache (set c now key v)) key = Some (mkEntry v now)).
  { unfold set. simpl. apply jsmap_get_set_same. }
  unfold get. rewrite Hget.
  change (ttlMs (set c now key v)) with (ttlMs c).
  change (timestamp (mkEntry v now)) with now.
  split; intros H;
    destruct (Z.gtb_spec (later - now) (ttlMs c)); simpl; try reflexivity; lia.
Qed.

(** X9: a call on one key leaves every other key's entry alone, with one
    exception: [set] may evict the first key in iteration order.  So for
    [k' <> key], [get] never changes what is stored under [k'], and [set]
    does not either unless [k'] is the first key. *)
Theorem cache_other_keys_untouched : forall c now key k' (v : T),
  k' <> key ->
  JSMap.get (cache (snd (get c now key))) k' = JSMap.get (cache c) k' /\
  (JSMap.first_key (cache c) <> Some k' ->
   JSMap.get (cache (set c now key v)) k' = JSMap.get (cache c) k').
Proof.
  intros c now key k' v Hne. split.
  - unfold get. destruct (JSMap.get (cache c) key) as [e|]; [|reflexivity].
    destruct (_ >? _); simpl.
    + apply jsmap_get_delete_other. assumption.
    + rewrite jsmap_get_set_other by assumption.
      apply jsmap_get_delete_other. assumption.
  - intros Hfirst. unfold set. simpl.
    rewrite jsmap_get_set_other by assumption.
    destruct (_ && _); [|reflexivity].
    destruct (JSMap.first_key (cache c)) as [fk|] eqn:Hfk; [|reflexivity].
    apply jsmap_get_delete_other. congruence.
Qed.
End CacheRoundTrip.

Section CacheRoundTripExample.
Import PredictionCache.
Local Open Scope Z_scope.

Lemma cache_set_then_get_witness :
  let c := run (new 2 1000) [OpSet 0 "a" 1%nat; OpSet 1 "b" 2%nat] in
  7 - 5 <= ttlMs c /\ fst (get (set c 5 "c" 3%nat) 7 "c") = Some 3%nat.
Proof.
  assert (H : 7 - 5 <= ttlMs (run (new 2 1000) [OpSet 0 "a" 1%nat; OpSet 1 "b" 2%nat]))
    by (vm_compute; discriminate).
  split; [exact H|].
  exact (proj1 (cache_set_then_get _ 5 7 "c"%string 3%nat) H).
Defined.

Lemma cache_other_keys_untouched_witness :
  let c := run (new 2 1000) [OpSet 0 "a" 1%nat; OpSet 1 "b" 2%nat] in
  "b"%string <> "c"%string /\
  JSMap.get (cache (set c 5 "c" 3%nat)) "b" = JSMap.get (cache c) "b".
Proof.
  assert (Hne : "b"%string <> "c"%string) by discriminate.
  split; [exact Hne|].
  refine (proj2 (cache_other_keys_untouched
                   (run (new 2 1000) [OpSet 0 "a" 1%nat; OpSet 1 "b" 2%nat])
                   5 3%nat Hne) _).
  vm_compute. discriminate.
Defined.
End CacheRoundTripExample.

(* ================================================================== *)
(** * [api/hudClient]: the prefix sent to the backend *)
(* ================================================================== *)

Section PrefixFacts.
Import HudClient.
Local Open Scope string_scope.

Lemma string_app_assoc (a b c : string) : (a ++ b) ++ c = a ++ (b ++ c).
Proof. induction a as [|x a IH]; simpl; [reflexivity | now rewrite IH]. Qed.

Lemma string_app_nil_r (a : string) : a ++ "" = a.
Proof. induction a as [|x a IH]; simpl; [reflexivity | now rewrite IH]. Qed.

Lemma substring_is_prefix (k : nat) (s : string) :
  exists rest, s = String.substring 0 k s ++ rest.
Proof.
  revert k. induction s as [|x s IH]; intros [|k]; simpl.
  - exists "". reflexivity.
  - exists "". reflexivity.
  - exists (String x s). reflexivity.
  - destruct (IH k) as [r Hr]. exists r. now rewrite <- Hr.
Qed.

Lemma join_lines_cons (l l' : string) (ls : list string) :
  join_lines (l :: l' :: ls) = l ++ newline ++ join_lines (l' :: ls).
Proof. reflexivity. Qed.

Lemma join_lines_cons_char (c : ascii) (l : string) (ls : list string) :
  join_lines (String c l :: ls) = String c (join_lines (l :: ls)).
Proof. destruct ls; reflexivity. Qed.

Lemma split_lines_nonempty (code : string) : split_lines code <> [].
Proof.
  destruct code as [|c rest]; simpl; [discriminate|].
  destruct (Ascii.eqb c "010"); [discriminate|].
  destruct (split_lines rest); discriminate.
Qed.

Lemma join_split_lines (code : string) : join_lines (split_lines code) = code.
Proof.
  induction code as [|c rest IH]; [reflexivity|].
  simpl. destruct (Ascii.eqb_spec c "010") as [-> | Hc].
  - destruct (split_lines rest) as [|l ls] eqn:E.
    + now apply split_lines_nonempty in E.
    + rewrite join_lines_cons, IH. reflexivity.
  - destruct (split_lines rest) as [|l ls] eqn:E.
    + now apply split_lines_nonempty in E.
    + rewrite join_lines_cons_char, IH. reflexivity.
Qed.

Lemma join_firstn_prefix (k : nat) (lines : list string) (n : nat) :
  (n < List.length lines)%nat ->
  exists rest,
    join_lines lines
    = join_lines (firstn n lines ++ [String.substring 0 k (nth n lines "")])%list
      ++ rest.
Proof.
  revert n. induction lines as [|l ls IH]; intros n Hn; simpl in Hn; [lia|].
  destruct n as [|n].
  - cbn [firstn nth app]. destruct (substring_is_prefix k l) as [r Hr].
    destruct ls as [|l' ls].
    + exists r. exact Hr.
    + exists (r ++ newline ++ join_lines (l' :: ls)).
      rewrite join_lines_cons.
      change (join_lines [String.substring 0 k l]) with (String.substring 0 k l).
      rewrite <- (string_app_assoc (String.substring 0 k l) r), <- Hr.
      reflexivity.
  - destruct ls as [|l' ls]; [simpl in Hn; lia|].
    destruct (IH n) as [r Hr]; [simpl in *; lia|].
    exists r. rewrite join_lines_cons, Hr.
    cbn [firstn app nth].
    set (tail := (firstn n (l' :: ls) ++ _)%list).
    assert (Htail : exists t ts, tail = t :: ts).
    { subst tail. destruct n; cbn [firstn app]; eauto. }
    destruct Htail as (t & ts & ->).
    rewrite join_lines_cons, !string_app_assoc. reflexivity.
Qed.

(** X10: the prefix [buildPrefix] cuts from a document split at its line
    feeds is an initial segment of the document, for every cursor, in or
    out of range: empty when [cursorLine < 1], and the whole document when
    [cursorLine] lies beyond the last line. *)
Theorem buildPrefix_is_prefix : forall code cursorLine cursorChar,
  (exists rest,
     code = buildPrefix (split_lines code) cursorLine cursorChar ++ rest) /\
  ((cursorLine < 1)%Z ->
   buildPrefix (split_lines code) cursorLine cursorChar = "") /\
  ((cursorLine > Z.of_nat (List.length (split_lines code)))%Z ->
   buildPrefix (split_lines code) cursorLine cursorChar = code).
Proof.
  intros code cursorLine cursorChar. unfold buildPrefix. cbv zeta.
  destruct (Z.ltb_spec (cursorLine - 1) 0) as [Hneg | Hpos].
  - split; [exists code; reflexivity|]. split; [reflexivity | lia].
  - destruct (Z.geb_spec (cursorLine - 1) (Z.of_nat (List.length (split_lines code))))
      as [Hout | Hin].
    + rewrite join_split_lines.
      split; [exists ""; now rewrite string_app_nil_r|].
      split; [lia | reflexivity].
    + split; [|split; lia].
      destruct (@join_firstn_prefix (Z.to_nat cursorChar) (split_lines code)
                                    (Z.to_nat (cursorLine - 1))) as [r Hr]; [lia|].
      exists r. rewrite <- Hr. symmetry. apply join_split_lines.
Qed.
End PrefixFacts.

(* ================================================================== *)
(** * [api/hudClient]: cache keys, isolation and clearing *)
(* ================================================================== *)

Section FetchExtras.
Import HudClient FetchProps.
Local Open Scope Z_scope.












Ltac run_cases fetch start finish :=
  unfold fetch, run_fetch, start, finish, settle; cbv zeta;
  match goal with
  | |- context [PredictionCache.get ?cache ?now ?key] =>
      destruct (PredictionCache.get cache now key) as [cached c'] eqn:Hget;
      destruct (Json.if_truthy cached) as [w|] eqn:Htruthy
  end.

Ltac touches_tac fetch start finish :=
  intros s now later code uri cursorLine cursorChar reply; cbv zeta;
  run_cases fetch start finish;
  [ simpl; repeat split; left; reflexivity
  | destruct reply as [|[] status [data|]]; simpl; repeat split;
    right; eexists; reflexivity ].

Lemma fetchEntropy_touches :
  touches_only (fun s s' => same_ghostCache s s' /\ same_autopanicCache s s' /\
                            same_saliencyCache s s') fetchEntropy.
Proof. touches_tac fetchEntropy fetchEntropy_start fetchEntropy_finish. Qed.

Lemma fetchGhost_touches :
  touches_only (fun s s' => same_entropyCache s s' /\ same_autopanicCache s s' /\
                            same_saliencyCache s s') fetchGhost.
Proof. touches_tac fetchGhost fetchGhost_start fetchGhost_finish. Qed.

Lemma fetchAutopanic_touches :
  touches_only (fun s s' => same_entropyCache s s' /\ same_ghostCache s s' /\
                            same_saliencyCache s s') fetchAutopanic.
Proof. touches_tac fetchAutopanic fetchAutopanic_start fetchAutopanic_finish. Qed.

Lemma fetchSaliency_touches :
  touches_only (fun s s' => same_entropyCache s s' /\ same_ghostCache s s' /\
                            same_autopanicCache s s') fetchSaliency.
Proof. touches_tac fetchSaliency fetchSaliency_start fetchSaliency_finish. Qed.

(** X13: the four features are isolated from each other.  A call of
    [fetchEntropy], [fetchGhost], [fetchAutopanic] or [fetchSaliency],
    whatever its arguments and whatever the backend replies, leaves the
    three other features' caches exactly as they were, and hands at most
    one request to the backend. *)
Theorem fetch_touches_own_cache_only :
  touches_only (fun s s' => same_ghostCache s s' /\ same_autopanicCache s s' /\
                            same_saliencyCache s s') fetchEntropy /\
  touches_only (fun s s' => same_entropyCache s s' /\ same_autopanicCache s s' /\
                            same_saliencyCache s s') fetchGhost /\
  touches_only (fun s s' => same_entropyCache s s' /\ same_ghostCache s s' /\
                            same_saliencyCache s s') fetchAutopanic /\
  touches_only (fun s s' => same_entropyCache s s' /\ same_ghostCache s s' /\
                            same_autopanicCache s s') fetchSaliency.
Proof.
  exact (conj fetchEntropy_touches
           (conj fetchGhost_touches
              (conj fetchAutopanic_touches fetchSaliency_touches))).
Qed.

Lemma get_hit_cached {T : Type} (c : PredictionCache.t T) now key v :
  fst (PredictionCache.get c now key) = Some v ->
  exists e,
    JSMap.get (PredictionCache.cache (snd (PredictionCache.get c now key))) key
    = Some e /\ PredictionCache.value e = v.
Proof.
  unfold PredictionCache.get.
  destruct (JSMap.get (PredictionCache.cache c) key) as [e|]; [|discriminate].
  destruct (_ >? _); simpl; [discriminate|].
  intros [= <-]. exists e. split; [apply jsmap_get_set_same | reflexivity].
Qed.

Ltac cached_tac fetch start finish keyOf :=
  intros s now later code uri cursorLine cursorChar reply v;
  unfold fetch, run_fetch, start, finish, settle, keyOf; cbv zeta;
  match goal with
  | |- context [PredictionCache.get ?cache ?now ?key] =>
      pose proof (@get_hit_cached _ cache now key) as Hhit;
      destruct (PredictionCache.get cache now key) as [cached c'] eqn:Hget;
      destruct (Json.if_truthy cached) as [w|] eqn:Htruthy;
      [ apply if_truthy_some in Htruthy; destruct Htruthy as [-> _] | ]
  end;
  [ simpl; intros [= <-];
    match goal with H : forall v, _ -> exists e, _ |- _ => apply H; reflexivity end
  | destruct reply as [|[] status [data|]]; simpl; try discriminate;
    intros [= <-]; eexists; split; [apply jsmap_get_set_same | reflexivity] ].

Lemma fetchEntropy_cached :
  returns_what_is_cached entropyCache (prefixKey "entropy") fetchEntropy.
Proof. cached_tac fetchEntropy fetchEntropy_start fetchEntropy_finish prefixKey. Qed.

Lemma fetchGhost_cached :
  returns_what_is_cached ghostCache (prefixKey "ghost") fetchGhost.
Proof. cached_tac fetchGhost fetchGhost_start fetchGhost_finish prefixKey. Qed.

Lemma fetchAutopanic_cached :
  returns_what_is_cached autopanicCache (prefixKey "autopanic") fetchAutopanic.
Proof.
  cached_tac fetchAutopanic fetchAutopanic_start fetchAutopanic_finish prefixKey.
Qed.

Lemma fetchSaliency_cached :
  returns_what_is_cached saliencyCache positionKey fetchSaliency.
Proof.
  cached_tac fetchSaliency fetchSaliency_start fetchSaliency_finish positionKey.
Qed.

(** X14: whatever one of the four fetch functions returns other than
    [null] is, at the moment the call returns, the value its cache holds
    under the call's key: a hit returns the stored value and keeps it, a
    successful reply is stored before it is returned. *)
Theorem fetch_returns_what_is_cached :
  returns_what_is_cached entropyCache (prefixKey "entropy") fetchEntropy /\
  returns_what_is_cached ghostCache (prefixKey "ghost") fetchGhost /\
  returns_what_is_cached autopanicCache (prefixKey "autopanic") fetchAutopanic /\
  returns_what_is_cached saliencyCache positionKey fetchSaliency.
Proof.
  exact (conj fetchEntropy_cached
           (conj fetchGhost_cached
              (conj fetchAutopanic_cached fetchSaliency_cached))).
Qed.

Lemma fetch_returns_what_is_cached_witness :
  let data := Json.Object [("margin"%string, Json.Number 1)] in
  let reply := Response true 200 (Some data) in
  let r := fetchGhost HudClient.init 0 10 "x = " "file:///a.py" 1 4 reply in
  fst r = Some data /\
  exists e,
    JSMap.get (PredictionCache.cache (ghostCache (snd r)))
              (prefixKey "ghost" "x = " "file:///a.py" 1 4) = Some e /\
    PredictionCache.value e = data.
Proof.
  assert (H : fst (fetchGhost HudClient.init 0 10 "x = " "file:///a.py" 1 4
                              (Response true 200
                                        (Some (Json.Object
                                                 [("margin"%string, Json.Number 1)]))))
              = Some (Json.Object [("margin"%string, Json.Number 1)]))
    by reflexivity.
  split; [exact H|].
  exact (proj1 (proj2 fetch_returns_what_is_cached)
               HudClient.init 0 10 "x = "%string "file:///a.py"%string 1 4
               _ _ H).
Defined.

Lemma settle_by_reply (T : Type) (c : PredictionCache.t T) later key
      (reply : Reply T) :
  (failed reply = true \/ (exists status, reply = malformed status) ->
   settle c later key reply = (None, c)) /\
  (forall status data,
     reply = Response true status (Some data) ->
     settle c later key reply = (Some data, PredictionCache.set c later key data)).
Proof.
  split.
  - intros [Hfailed | [status ->]];
      [apply settle_failed; exact Hfailed | reflexivity].
  - intros status data ->. reflexivity.
Qed.

Lemma reply_cases (reply : Reply Json.t) :
  failed reply = true \/ (exists status, reply = malformed status) \/
  exists status data, reply = Response true status (Some data).
Proof.
  destruct reply as [|[] status [data|]]; simpl; eauto.
  right. left. exists status. reflexivity.
Qed.

Ltac reply_tac fetch start finish :=
  intros s now later code uri cursorLine cursorChar reply cacheKey Hstart;
  cbv zeta; unfold fetch, run_fetch, finish;
  unfold start in *; cbv zeta in *;
  match goal with
  | |- context [PredictionCache.get ?cache ?now ?key] =>
      destruct (PredictionCache.get cache now key) as [cached c'] eqn:Hget;
      destruct (Json.if_truthy cached) as [w|] eqn:Htruthy;
      simpl in Hstart; [discriminate|]; injection Hstart as <-
  end;
  simpl;
  match goal with
  | |- context [settle ?c ?l ?k reply] =>
      destruct (reply_cases reply) as [Hf | [[st Hm] | [st [d Hd]]]];
      [ rewrite (proj1 (settle_by_reply c l k reply) (or_introl Hf)); simpl;
        split; [reflexivity|];
        split; [intros status data Heq; rewrite Heq in Hf; discriminate|];
        split; [intros _; left; exact Hf | reflexivity]
      | rewrite (proj1 (settle_by_reply c l k reply)
                       (or_intror (ex_intro _ st Hm))); simpl;
        split; [reflexivity|];
        split; [intros status data Heq; rewrite Heq in Hm; discriminate|];
        split; [intros _; right; left; exists st; exact Hm | reflexivity]
      | rewrite (proj2 (settle_by_reply c l k reply) st d Hd); simpl;
        split; [intros [Hf | [st' Hm]]; rewrite Hd in *; discriminate|];
        split;
        [ intros status data Heq; rewrite Heq in Hd; injection Hd as <- <-;
          split; [reflexivity | apply jsmap_get_set_same]
        | split;
          [ intros Hnull; rewrite Hnull in Hd; right; right; exists st; exact Hd
          | intros [Hf | [[st' Hm] | [st' Hn]]]; rewrite Hd in *;
            [discriminate | discriminate | injection Hn as _ <-; reflexivity] ] ] ]
  end.

Lemma fetchEntropy_reply :
  result_by_reply entropyCache fetchEntropy_start fetchEntropy.
Proof. reply_tac fetchEntropy fetchEntropy_start fetchEntropy_finish. Qed.

Lemma fetchGhost_reply : result_by_reply ghostCache fetchGhost_start fetchGhost.
Proof. reply_tac fetchGhost fetchGhost_start fetchGhost_finish. Qed.

Lemma fetchAutopanic_reply :
  result_by_reply autopanicCache fetchAutopanic_start fetchAutopanic.
Proof. reply_tac fetchAutopanic fetchAutopanic_start fetchAutopanic_finish. Qed.

Lemma fetchSaliency_reply :
  result_by_reply saliencyCache fetchSaliency_start fetchSaliency.
Proof. reply_tac fetchSaliency fetchSaliency_start fetchSaliency_finish. Qed.

(** X15: what each of the four fetch functions returns and stores once it
    has gone to the backend.  On a failure (transport error, non-2xx
    status) or a 2xx reply whose body cannot be parsed it returns [null]
    and the state is the one in which the request was sent: nothing is
    stored.  A 2xx reply whose body parses is stored under the call's key
    and returned, whatever the value, so a body that parses to [null] is
    stored and the caller still sees [null].  The caller sees [null]
    exactly in these three cases: failure, unparsable body, body
    [null]. *)
Theorem fetch_result_by_reply :
  result_by_reply entropyCache fetchEntropy_start fetchEntropy /\
  result_by_reply ghostCache fetchGhost_start fetchGhost /\
  result_by_reply autopanicCache fetchAutopanic_start fetchAutopanic /\
  result_by_reply saliencyCache fetchSaliency_start fetchSaliency.
Proof.
  exact (conj fetchEntropy_reply
           (conj fetchGhost_reply
              (conj fetchAutopanic_reply fetchSaliency_reply))).
Qed.

Lemma fetch_result_by_reply_witness :
  let key := prefixKey "autopanic" "x = " "file:///a.py" 1 4 in
  let s1 := snd (fetchAutopanic_start HudClient.init 0 "x = " "file:///a.py" 1 4) in
  let run := fetchAutopanic HudClient.init 0 10 "x = " "file:///a.py" 1 4 in
  fst (fetchAutopanic_start HudClient.init 0 "x = " "file:///a.py" 1 4)
  = Awaiting key /\
  run (malformed 200) = (None, s1) /\
  fst (run (Response true 200 (Some Json.Null))) = Some Json.Null /\
  JSMap.get (PredictionCache.cache
               (autopanicCache (snd (run (Response true 200 (Some Json.Null))))))
            key
  = Some (PredictionCache.mkEntry Json.Null 10).
Proof.
  assert (Hstart :
            fst (fetchAutopanic_start HudClient.init 0 "x = " "file:///a.py" 1 4)
            = Awaiting (prefixKey "autopanic" "x = " "file:///a.py" 1 4))
    by reflexivity.
  pose proof (fun reply =>
                proj1 (proj2 (proj2 fetch_result_by_reply))
                  HudClient.init 0 10 "x = "%string "file:///a.py"%string 1 4
                  reply _ Hstart) as H.
  split; [exact Hstart|].
  split.
  - apply (proj1 (H (malformed 200))). right. exists 200. reflexivity.
  - exact (proj1 (proj2 (H (Response true 200 (Some Json.Null))))
                 200 Json.Null eq_refl).
Defined.

Ltac clear_tac start :=
  intros s now code uri cursorLine cursorChar; unfold start; cbv zeta;
  rewrite get_absent by reflexivity; reflexivity.

Lemma fetchEntropy_after_clear :
  misses_after_clear fetchEntropy_start (prefixKey "entropy") entropyRequest.
Proof. clear_tac fetchEntropy_start. Qed.

Lemma fetchGhost_after_clear :
  misses_after_clear fetchGhost_start (prefixKey "ghost") ghostRequest.
Proof. clear_tac fetchGhost_start. Qed.

Lemma fetchAutopanic_after_clear :
  misses_after_clear fetchAutopanic_start (prefixKey "autopanic") autopanicRequest.
Proof. clear_tac fetchAutopanic_start. Qed.

Lemma fetchSaliency_after_clear :
  misses_after_clear fetchSaliency_start positionKey PostSaliency.
Proof. clear_tac fetchSaliency_start. Qed.

(** X16: after [clearCaches], the next lookup of every feature misses, for
    any document and cursor and whatever had been stored before, and hands
    its request to the backend; [clearCaches] itself sends nothing and
    keeps each cache's capacity and TTL. *)
Theorem clearCaches_forces_miss :
  (misses_after_clear fetchEntropy_start (prefixKey "entropy") entropyRequest /\
   misses_after_clear fetchGhost_start (prefixKey "ghost") ghostRequest /\
   misses_after_clear fetchAutopanic_start (prefixKey "autopanic") autopanicRequest /\
   misses_after_clear fetchSaliency_start positionKey PostSaliency) /\
  (forall s,
     sent (clearCaches s) = sent s /\
     PredictionCache.maxSize (entropyCache (clearCaches s))
     = PredictionCache.maxSize (entropyCache s) /\
     PredictionCache.ttlMs (entropyCache (clearCaches s))
     = PredictionCache.ttlMs (entropyCache s) /\
     PredictionCache.maxSize (ghostCache (clearCaches s))
     = PredictionCache.maxSize (ghostCache s) /\
     PredictionCache.ttlMs (ghostCache (clearCaches s))
     = PredictionCache.ttlMs (ghostCache s) /\
     PredictionCache.maxSize (autopanicCache (clearCaches s))
     = PredictionCache.maxSize (autopanicCache s) /\
     PredictionCache.ttlMs (autopanicCache (clearCaches s))
     = PredictionCache.ttlMs (autopanicCache s) /\
     PredictionCache.maxSize (saliencyCache (clearCaches s))
     = PredictionCache.maxSize (saliencyCache s) /\
     PredictionCache.ttlMs (saliencyCache (clearCaches s))
     = PredictionCache.ttlMs (saliencyCache s)).
Proof.
  split.
  - exact (conj fetchEntropy_after_clear
             (conj fetchGhost_after_clear
                (conj fetchAutopanic_after_clear fetchSaliency_after_clear))).
  - intros s. repeat split.
Qed.
End FetchExtras.

(* ================================================================== *)
(** * [utils/math]: shift invariance, divergence and surprisal *)
(* ================================================================== *)

Section DivergenceFacts.
Import MathUtils MetricProps.
Local Open Scope R_scope.

Lemma fold_Rmax_shift (c : R) (l : list R) (a : R) :
  fold_left Rmax (map (fun x => x + c) l) (a + c) = fold_left Rmax l a + c.
Proof.
  revert a. induction l as [|x l IH]; intros a; simpl; [reflexivity|].
  rewrite <- IH. f_equal. unfold Rmax.
  destruct (Rle_dec (a + c) (x + c)), (Rle_dec a x); lra.
Qed.

Lemma logprobsToProbs_shift (c : R) (l : list TokenProb) :
  logprobsToProbs (map (fun lp => mkTokenProb (token lp) (logprob lp + c)) l)
  = logprobsToProbs l.
Proof.
  rewrite !logprobsToProbs_normalized. f_equal.
  destruct l as [|lp0 rest]; [reflexivity|].
  set (l := lp0 :: rest).
  set (shift := fun lp => mkTokenProb (token lp) (logprob lp + c)).
  assert (Hmax : maxLogprobOf (map shift l) = maxLogprobOf l + c).
  { subst l. cbn [map maxLogprobOf]. subst shift. cbn [logprob].
    rewrite map_map. cbn [logprob].
    rewrite <- (map_map logprob (fun x => x + c)). apply fold_Rmax_shift. }
  assert (Hexp : forall lp,
             exp (logprob (shift lp) - maxLogprobOf (map shift l))
             = exp (logprob lp - maxLogprobOf l)).
  { intros lp. rewrite Hmax. subst shift. cbn [logprob]. f_equal. lra. }
  assert (Hsum : sumExpOf (map shift l) = sumExpOf l).
  { unfold sumExpOf. rewrite map_map. f_equal. apply map_ext. exact Hexp. }
  unfold normalized. rewrite map_map. apply map_ext. intros lp.
  rewrite Hexp, Hsum. reflexivity.
Qed.

(** X17: [logprobsToProbs] depends only on the differences between the
    log-probabilities: adding one constant to every entry's logprob leaves
    the resulting map unchanged, keys, order and values (over the reals). *)
Theorem logprobsToProbs_shift_invariant : forall (c : R) (l : list TokenProb),
  logprobsToProbs (map (fun lp => mkTokenProb (token lp) (logprob lp + c)) l)
  = logprobsToProbs l /\
  calculateEntropyFromLogprobs
    (map (fun lp => mkTokenProb (token lp) (logprob lp + c)) l)
  = calculateEntropyFromLogprobs l.
Proof.
  intros c l. split.
  - apply logprobsToProbs_shift.
  - unfold calculateEntropyFromLogprobs. now rewrite logprobsToProbs_shift.
Qed.











Lemma ln_inv_pow2 : ln (/ 2 ^ 10) = - (10 * ln 2).
Proof.
  rewrite ln_Rinv by (apply pow_lt; lra).
  rewrite ln_pow by lra. simpl INR. f_equal. f_equal. lra.
Qed.

(** X19: [calculateSurprisal] on a map of probabilities (values in
    [[0,1]]) is never negative; a token that is absent or has probability
    [0] gets exactly [10]; and [10] is no upper bound: a present token gets
    more than [10] exactly when its probability is below [2^-10]. *)
Theorem calculateSurprisal_range : forall (probs : JSMap.t R) (tok : string),
  (forall p, In p (JSMap.values probs) -> 0 <= p <= 1) ->
  0 <= calculateSurprisal tok probs /\
  (JSMap.get probs tok = None \/ JSMap.get probs tok = Some 0 ->
   calculateSurprisal tok probs = 10) /\
  (forall p, JSMap.get probs tok = Some p -> 0 < p ->
             calculateSurprisal tok probs = - log2 p /\
             (10 < calculateSurprisal tok probs <-> p < / 2 ^ 10)).
Proof.
  intros probs tok Hrange. unfold calculateSurprisal, log2.
  pose proof ln2_pos as H2.
  split; [|split].
  - destruct (JSMap.get probs tok) as [p|] eqn:E; [|lra].
    destruct (Req_dec_T p 0); [lra|].
    assert (Hp : 0 <= p <= 1) by (apply Hrange; eapply get_in_values; exact E).
    assert (Hln : ln p <= 0) by (apply ln_nonpos; lra).
    assert (0 <= - ln p / ln 2).
    { apply Rmult_le_pos; [lra|]. left. apply Rinv_0_lt_compat. exact H2. }
    unfold Rdiv in *. lra.
  - intros [-> | ->]; [reflexivity|].
    destruct (Req_dec_T 0 0); [reflexivity | lra].
  - intros p -> Hp. destruct (Req_dec_T p 0); [lra|].
    split; [reflexivity|].
    assert (Hpow : 0 < / 2 ^ 10) by (apply Rinv_0_lt_compat, pow_lt; lra).
    assert (Heq : - (ln p / ln 2) - 10 = (ln (/ 2 ^ 10) - ln p) / ln 2).
    { rewrite ln_inv_pow2. field. lra. }
    split; intros H.
    + apply ln_lt_inv; [assumption..|].
      assert (0 < (ln (/ 2 ^ 10) - ln p) / ln 2) by lra.
      assert (0 < (ln (/ 2 ^ 10) - ln p) / ln 2 * ln 2)
        by (apply Rmult_lt_0_compat; assumption).
      replace ((ln (/ 2 ^ 10) - ln p) / ln 2 * ln 2)
        with (ln (/ 2 ^ 10) - ln p) in * by (field; lra).
      lra.
    + pose proof (ln_increasing p (/ 2 ^ 10) Hp H) as Hlt.
      assert (0 < (ln (/ 2 ^ 10) - ln p) / ln 2).
      { apply Rdiv_lt_0_compat; lra. }
      lra.
Qed.

Lemma calculateSurprisal_range_witness :
  let probs : JSMap.t R := [("a"%string, 1 / 2); ("b"%string, 1 / 2)] in
  (forall p, In p (JSMap.values probs) -> 0 <= p <= 1) /\
  0 <= calculateSurprisal "a" probs /\
  calculateSurprisal "c" probs = 10.
Proof.
  assert (H : forall p, In p (JSMap.values [("a"%string, 1 / 2); ("b"%string, 1 / 2)])
                        -> 0 <= p <= 1).
  { simpl. intros p [<- | [<- | []]]; lra. }
  split; [exact H|]. split.
  - exact (proj1 (calculateSurprisal_range
                    [("a"%string, 1 / 2); ("b"%string, 1 / 2)] "a" H)).
  - apply (proj1 (proj2 (calculateSurprisal_range
                           [("a"%string, 1 / 2); ("b"%string, 1 / 2)] "c" H))).
    left. reflexivity.
Defined.
End DivergenceFacts.

(* ================================================================== *)
(** * [utils/math]: the colour maps stay inside their ranges *)
(* ================================================================== *)

(* ================================================================== *)
(** * Rounding to the nearest number *)
(* ================================================================== *)

Section DoubleFacts.
Import Double.
Local Open Scope Q_scope.
Local Unset Implicit Arguments.

Lemma pow2_pos e : 0 < pow2 e.
Proof. apply Qpower_0_lt. reflexivity. Qed.

Lemma pow2_plus a b : pow2 (a + b) == pow2 a * pow2 b.
Proof. apply Qpower_plus. discriminate. Qed.

Lemma pow2_minus a b : pow2 (a - b) == pow2 a / pow2 b.
Proof. apply Qpower_minus. discriminate. Qed.

Lemma pow2_Z n : (0 <= n)%Z -> pow2 n == inject_Z (2 ^ n).
Proof. intros H. symmetry. apply (Zpower_Qpower 2 n H). Qed.

Lemma pow2_le a b : (a <= b)%Z -> pow2 a <= pow2 b.
Proof. intros H. apply Qpower_le_compat_l; [assumption | discriminate]. Qed.

Lemma log2_floor_spec a :
  0 < a -> pow2 (log2_floor a) <= a /\ a < pow2 (log2_floor a + 1).
Proof.
  intros Ha. destruct a as [n d].
  assert (Hn : (0 < n)%Z).
  { unfold Qlt in Ha. simpl in Ha. lia. }
  unfold log2_floor. cbn [Qnum Qden].
  set (p := Z.log2 n). set (q := Z.log2 (Z.pos d)).
  assert (Hp : (0 <= p)%Z) by apply Z.log2_nonneg.
  assert (Hq : (0 <= q)%Z) by apply Z.log2_nonneg.
  destruct (Z.log2_spec n Hn) as [Hp1 Hp2]. fold p in Hp1, Hp2.
  destruct (Z.log2_spec (Z.pos d) (Pos2Z.is_pos d)) as [Hq1 Hq2].
  fold q in Hq1, Hq2.
  assert (H2p : (0 < 2 ^ p)%Z) by (apply Z.pow_pos_nonneg; lia).
  assert (H2q : (0 < 2 ^ q)%Z) by (apply Z.pow_pos_nonneg; lia).
  assert (Hupper : n # d < pow2 (p - q + 1)).
  { replace (p - q + 1)%Z with (Z.succ p - q)%Z by lia.
    rewrite pow2_minus, !pow2_Z by lia.
    apply Qlt_shift_div_l.
    - rewrite <- (Zlt_Qlt 0). assumption.
    - unfold Qlt. simpl. rewrite Z.mul_1_r. nia. }
  assert (Hlower : pow2 (p - q - 1) <= n # d).
  { replace (p - q - 1)%Z with (p - Z.succ q)%Z by lia.
    rewrite pow2_minus, !pow2_Z by lia.
    apply Qle_shift_div_r.
    - rewrite <- (Zlt_Qlt 0). apply Z.pow_pos_nonneg; lia.
    - unfold Qle. simpl. rewrite Z.mul_1_r. nia. }
  destruct (Qle_bool (pow2 (p - q)) (n # d)) eqn:E.
  - apply Qle_bool_iff in E. split; assumption.
  - assert (Hlt : n # d < pow2 (p - q)).
    { apply Qnot_le_lt. intros H. apply Qle_bool_iff in H. congruence. }
    split; [assumption|].
    replace (p - q - 1 + 1)%Z with (p - q)%Z by lia. assumption.
Qed.

Lemma log2_floor_unique a L :
  pow2 L <= a -> a < pow2 (L + 1) -> log2_floor a = L.
Proof.
  intros H1 H2.
  assert (Ha : 0 < a) by (pose proof (pow2_pos L); lra).
  destruct (log2_floor_spec a Ha) as [H3 H4].
  destruct (Z.lt_trichotomy (log2_floor a) L) as [Hlt | [Heq | Hgt]];
    [|assumption|].
  - pose proof (pow2_le (log2_floor a + 1) L ltac:(lia)). lra.
  - pose proof (pow2_le (L + 1) (log2_floor a) ltac:(lia)). lra.
Qed.

Lemma log2_floor_mono a b : 0 < a -> a <= b -> (log2_floor a <= log2_floor b)%Z.
Proof.
  intros Ha Hab.
  destruct (log2_floor_spec a Ha) as [H1 _].
  destruct (log2_floor_spec b ltac:(lra)) as [_ H2].
  destruct (Z_le_gt_dec (log2_floor a) (log2_floor b)) as [|Hgt]; [assumption|].
  pose proof (pow2_le (log2_floor b + 1) (log2_floor a) ltac:(lia)). lra.
Qed.

Lemma log2_floor_comp a b : 0 < a -> a == b -> log2_floor a = log2_floor b.
Proof.
  intros Ha Hab. symmetry. destruct (log2_floor_spec a Ha) as [H1 H2].
  apply log2_floor_unique; lra.
Qed.

Lemma ulp_exp_mono a b : 0 < a -> a <= b -> (ulp_exp a <= ulp_exp b)%Z.
Proof.
  intros Ha Hab. unfold ulp_exp.
  pose proof (log2_floor_mono a b Ha Hab). lia.
Qed.

Lemma rne_bounds x : (Qfloor x <= rne x <= Qfloor x + 1)%Z.
Proof.
  unfold rne. destruct (Qcompare _ _); [destruct (Z.even _)| |]; lia.
Qed.

Lemma rne_comp x y : x == y -> rne x = rne y.
Proof.
  intros H. unfold rne. rewrite (Qfloor_comp _ _ H).
  assert (Hc : Qcompare (x - inject_Z (Qfloor y)) (1 # 2)
               = Qcompare (y - inject_Z (Qfloor y)) (1 # 2)).
  { apply Qcompare_comp; [rewrite H; reflexivity | reflexivity]. }
  rewrite Hc. reflexivity.
Qed.

Lemma rne_ge_Z x (N : Z) : inject_Z N <= x -> (N <= rne x)%Z.
Proof.
  intros H. pose proof (rne_bounds x).
  assert (N <= Qfloor x)%Z.
  { rewrite <- (Qfloor_Z N). apply Qfloor_resp_le. assumption. }
  lia.
Qed.

Lemma rne_le_Z x (N : Z) : x <= inject_Z N -> (rne x <= N)%Z.
Proof.
  intros H.
  assert (Hf : (Qfloor x <= N)%Z).
  { rewrite <- (Qfloor_Z N). apply Qfloor_resp_le. assumption. }
  destruct (Z.eq_dec (Qfloor x) N) as [Heq | Hne].
  - unfold rne. rewrite Heq.
    pose proof (Qfloor_le x) as Hle. rewrite Heq in Hle.
    assert (Hx : x - inject_Z N < 1 # 2) by lra.
    rewrite Qlt_alt in Hx. rewrite Hx. lia.
  - pose proof (rne_bounds x). lia.
Qed.

Lemma rne_mono x y : x <= y -> (rne x <= rne y)%Z.
Proof.
  intros Hxy.
  assert (Hf : (Qfloor x <= Qfloor y)%Z) by (apply Qfloor_resp_le; assumption).
  destruct (Z.eq_dec (Qfloor x) (Qfloor y)) as [Heq | Hne].
  - unfold rne. rewrite <- Heq.
    set (f := Qfloor x).
    destruct (Qcompare (x - inject_Z f) (1 # 2)) eqn:Ex;
      destruct (Qcompare (y - inject_Z f) (1 # 2)) eqn:Ey;
      try (destruct (Z.even f)); try lia;
      try (rewrite <- Qeq_alt in Ex); try (rewrite <- Qlt_alt in Ex);
      try (rewrite <- Qgt_alt in Ex);
      try (rewrite <- Qeq_alt in Ey); try (rewrite <- Qlt_alt in Ey);
      try (rewrite <- Qgt_alt in Ey); lra.
  - pose proof (rne_bounds x). pose proof (rne_bounds y). lia.
Qed.

Lemma round_pos_nonneg a : 0 < a -> 0 <= round_pos a.
Proof.
  intros Ha. unfold round_pos. cbv zeta. rewrite Qred_correct.
  apply Qmult_le_0_compat; [|apply Qlt_le_weak, pow2_pos].
  change 0 with (inject_Z 0). rewrite <- Zle_Qle. apply rne_ge_Z.
  change (inject_Z 0) with 0.
  apply Qle_shift_div_l; [apply pow2_pos | lra].
Qed.

Lemma round_pos_comp a b : 0 < a -> a == b -> round_pos a = round_pos b.
Proof.
  intros Ha Hab. unfold round_pos, ulp_exp. cbv zeta.
  rewrite (log2_floor_comp a b Ha Hab).
  rewrite (rne_comp (a / pow2 (Z.max (log2_floor b - 52) (-1074)))
                    (b / pow2 (Z.max (log2_floor b - 52) (-1074))));
    [reflexivity|].
  rewrite Hab. reflexivity.
Qed.

Lemma round_pos_mono a b : 0 < a -> a <= b -> round_pos a <= round_pos b.
Proof.
  intros Ha Hab. assert (Hb : 0 < b) by lra.
  pose proof (ulp_exp_mono a b Ha Hab) as He.
  unfold round_pos. cbv zeta. rewrite !Qred_correct.
  set (ea := ulp_exp a) in *. set (eb := ulp_exp b) in *.
  pose proof (pow2_pos ea) as Hpa. pose proof (pow2_pos eb) as Hpb.
  destruct (Z.eq_dec ea eb) as [Heq | Hne].
  - rewrite <- Heq. apply Qmult_le_compat_r; [|lra].
    rewrite <- Zle_Qle. apply rne_mono.
    apply Qmult_le_compat_r; [assumption|].
    apply Qlt_le_weak, Qinv_lt_0_compat. assumption.
  - assert (Hlt : (ea < eb)%Z) by lia.
    assert (Heb : eb = (log2_floor b - 52)%Z).
    { unfold eb, ulp_exp in *. unfold ea, ulp_exp in Hlt. lia. }
    assert (Hea : (log2_floor a - 52 <= ea)%Z) by (unfold ea, ulp_exp; lia).
    destruct (log2_floor_spec a Ha) as [_ Ha2].
    destruct (log2_floor_spec b Hb) as [Hb1 _].
    set (B := pow2 (eb + 52)).
    assert (HbB : B <= b).
    { unfold B. rewrite Heb. replace (log2_floor b - 52 + 52)%Z
        with (log2_floor b) by lia. assumption. }
    assert (HaB : a <= B).
    { unfold B. pose proof (pow2_le (log2_floor a + 1) (eb + 52) ltac:(lia)).
      lra. }
    assert (HBa : B == inject_Z (2 ^ (eb + 52 - ea)) * pow2 ea).
    { rewrite <- pow2_Z by lia. rewrite <- pow2_plus. unfold B.
      replace (eb + 52 - ea + ea)%Z with (eb + 52)%Z by lia. reflexivity. }
    assert (HBb : B == inject_Z (2 ^ 52) * pow2 eb).
    { rewrite <- pow2_Z by lia. rewrite <- pow2_plus. unfold B.
      replace (52 + eb)%Z with (eb + 52)%Z by lia. reflexivity. }
    apply Qle_trans with (y := B).
    + rewrite HBa. apply Qmult_le_compat_r; [|lra].
      rewrite <- Zle_Qle. apply rne_le_Z.
      apply Qle_shift_div_r; [assumption|]. rewrite <- HBa. assumption.
    + rewrite HBb. apply Qmult_le_compat_r; [|lra].
      rewrite <- Zle_Qle. apply rne_ge_Z.
      apply Qle_shift_div_l; [assumption|]. rewrite <- HBb. assumption.
Qed.

Lemma Qnum_sign x :
  match Qnum x with
  | Z0 => x == 0
  | Zpos _ => 0 < x
  | Zneg _ => x < 0
  end.
Proof.
  destruct x as [[|p|p] d]; cbn [Qnum].
  - reflexivity.
  - reflexivity.
  - reflexivity.
Qed.

Lemma round_zero x : x == 0 -> round x = 0.
Proof.
  intros H. pose proof (Qnum_sign x) as Hs. unfold round.
  destruct (Qnum x); [reflexivity | lra | lra].
Qed.

Lemma round_of_pos x : 0 < x -> round x = round_pos x.
Proof.
  intros H. pose proof (Qnum_sign x) as Hs. unfold round.
  destruct (Qnum x); [lra | reflexivity | lra].
Qed.

Lemma round_of_neg x : x < 0 -> round x = - round_pos (- x).
Proof.
  intros H. pose proof (Qnum_sign x) as Hs. unfold round.
  destruct (Qnum x); [lra | lra | reflexivity].
Qed.

Lemma round_comp x y : x == y -> round x = round y.
Proof.
  intros H. destruct (Q_dec x 0) as [[Hneg | Hpos] | Hzero].
  - rewrite (round_of_neg x Hneg), (round_of_neg y) by lra.
    f_equal. apply round_pos_comp; lra.
  - rewrite (round_of_pos x Hpos), (round_of_pos y) by lra.
    apply round_pos_comp; assumption.
  - rewrite (round_zero x Hzero), (round_zero y) by lra. reflexivity.
Qed.

Lemma round_mono x y : x <= y -> round x <= round y.
Proof.
  intros Hxy.
  destruct (Q_dec x 0) as [[Hx | Hx] | Hx];
    destruct (Q_dec y 0) as [[Hy | Hy] | Hy]; try lra.
  - rewrite (round_of_neg x Hx), (round_of_neg y Hy).
    pose proof (round_pos_mono (- y) (- x) ltac:(lra) ltac:(lra)). lra.
  - rewrite (round_of_neg x Hx), (round_of_pos y Hy).
    pose proof (round_pos_nonneg (- x) ltac:(lra)).
    pose proof (round_pos_nonneg y Hy). lra.
  - rewrite (round_of_neg x Hx), (round_zero y Hy).
    pose proof (round_pos_nonneg (- x) ltac:(lra)). lra.
  - rewrite (round_of_pos x Hx), (round_of_pos y Hy).
    apply round_pos_mono; assumption.
  - rewrite (round_zero x Hx), (round_of_pos y Hy).
    apply round_pos_nonneg. assumption.
  - rewrite (round_zero x Hx), (round_zero y Hy). lra.
Qed.
(** The model on values that are well known: the number nearest to one
    tenth, the sum [0.1 + 0.2], a tie that goes to the even neighbour, and
    the smallest positive number. *)
Lemma round_examples :
  round 0.1 == 3602879701896397 # 36028797018963968 /\
  add (round 0.1) (round 0.2) == 0.3000000000000000444089209850062616169452667236328125 /\
  ~ add (round 0.1) (round 0.2) == round 0.3 /\
  round (inject_Z (2 ^ 53 + 1)) == inject_Z (2 ^ 53) /\
  round (pow2 (-1074)) == pow2 (-1074) /\
  round (pow2 (-1075)) == 0.
Proof.
  repeat split; try (vm_compute; reflexivity). vm_compute. discriminate.
Qed.
End DoubleFacts.

Section ColorFacts.
Import JSMath Metrics.
Local Open Scope Q_scope.

Lemma Qltb_true (a b : Q) : Qltb a b = true <-> a < b.
Proof.
  unfold Qltb. rewrite negb_true_iff. split.
  - intros H. apply Qnot_le_lt. intros Hle.
    apply Qle_bool_iff in Hle. congruence.
  - intros H. destruct (Qle_bool b a) eqn:E; [|reflexivity].
    apply Qle_bool_iff in E. exfalso. apply (Qlt_not_le _ _ H E).
Qed.

Lemma Qltb_false (a b : Q) : Qltb a b = false <-> b <= a.
Proof.
  unfold Qltb. rewrite negb_false_iff. apply Qle_bool_iff.
Qed.

Lemma clamp01_range (x : Q) : 0 <= max 0 (min 1 x) <= 1.
Proof.
  unfold max, min.
  destruct (Qle_bool 1 x) eqn:E1.
  - simpl. lra.
  - destruct (Qle_bool 0 x) eqn:E0.
    + apply Qle_bool_iff in E0.
      assert (~ 1 <= x) by (rewrite <- Qle_bool_iff; congruence).
      lra.
    + lra.
Qed.

Lemma clamp01_low (x : Q) : x <= 0 -> max 0 (min 1 x) == 0.
Proof.
  intros Hx. unfold max, min.
  destruct (Qle_bool 1 x) eqn:E1.
  - apply Qle_bool_iff in E1. lra.
  - destruct (Qle_bool 0 x) eqn:E0; [|reflexivity].
    apply Qle_bool_iff in E0. lra.
Qed.

Lemma clamp01_high (x : Q) : 1 <= x -> max 0 (min 1 x) = 1.
Proof.
  intros Hx. unfold max, min.
  apply Qle_bool_iff in Hx. rewrite Hx. reflexivity.
Qed.

Lemma clamp01_mono (x y : Q) : x <= y -> max 0 (min 1 x) <= max 0 (min 1 y).
Proof.
  intros Hxy. unfold max, min.
  destruct (Qle_bool 1 x) eqn:Ex, (Qle_bool 1 y) eqn:Ey; simpl;
    try (apply Qle_bool_iff in Ex); try (apply Qle_bool_iff in Ey);
    try (assert (~ 1 <= x) by (rewrite <- Qle_bool_iff; congruence));
    try (assert (~ 1 <= y) by (rewrite <- Qle_bool_iff; congruence));
    try lra;
    destruct (Qle_bool 0 x) eqn:Ex0; destruct (Qle_bool 0 y) eqn:Ey0;
    try (apply Qle_bool_iff in Ex0); try (apply Qle_bool_iff in Ey0);
    try (assert (~ 0 <= x) by (rewrite <- Qle_bool_iff; congruence));
    try (assert (~ 0 <= y) by (rewrite <- Qle_bool_iff; congruence));
    lra.
Qed.

Lemma floor_between (a b : Z) (x : Q) :
  inject_Z a <= x -> x <= inject_Z b -> (a <= floor x <= b)%Z.
Proof.
  intros Ha Hb. unfold floor. split.
  - rewrite <- (Qfloor_Z a). apply Qfloor_resp_le. assumption.
  - rewrite <- (Qfloor_Z b). apply Qfloor_resp_le. assumption.
Qed.

Lemma round_between (lo hi x : Q) :
  Double.round lo == lo -> Double.round hi == hi ->
  lo <= x -> x <= hi -> lo <= Double.round x <= hi.
Proof.
  intros Hlo Hhi H1 H2.
  pose proof (round_mono lo x H1). pose proof (round_mono x hi H2).
  rewrite Hlo in *. rewrite Hhi in *. split; assumption.
Qed.

Lemma floor_round_between (a b : Z) (x : Q) :
  Double.round (inject_Z a) == inject_Z a ->
  Double.round (inject_Z b) == inject_Z b ->
  inject_Z a <= x -> x <= inject_Z b ->
  (a <= floor (Double.round x) <= b)%Z.
Proof.
  intros Ha Hb H1 H2.
  destruct (@round_between (inject_Z a) (inject_Z b) x Ha Hb H1 H2).
  apply floor_between; assumption.
Qed.

Ltac fixed := vm_compute; reflexivity.

(** [1 - t] and [t * k] for [t] in [0,1]. *)
Lemma unit_complement (t : Q) : 0 <= t <= 1 -> 0 <= Double.sub 1 t <= 1.
Proof.
  intros Ht. unfold Double.sub.
  apply (@round_between 0 1); [fixed | fixed | lra | lra].
Qed.

Lemma unit_scaled (k : Z) (t : Q) :
  (0 <= k)%Z -> Double.round (inject_Z k) == inject_Z k ->
  0 <= t <= 1 -> (0 <= floor (Double.mul t (inject_Z k)) <= k)%Z.
Proof.
  intros Hk Hfix Ht. unfold Double.mul.
  assert (Hk' : 0 <= inject_Z k) by (change 0 with (inject_Z 0); rewrite <- Zle_Qle; assumption).
  apply (@floor_round_between 0 k); [fixed | exact Hfix | |].
  - change (inject_Z 0) with 0. apply Qmult_le_0_compat; lra.
  - rewrite <- (Qmult_1_l (inject_Z k)) at 2.
    apply Qmult_le_compat_r; lra.
Qed.

(** X20: [entropyToColor] returns [transparent] exactly for entropies
    below [0.5]; otherwise it returns an [rgba] colour whose channels are
    valid ([r] in [0..255], [g] in [50..150], [b] in [0..200]) with an alpha
    between [0] and [0.25]; from [4] bits on the colour is saturated at
    [rgba(255, 50, 0, 0.25)].  The channels are the floors of rounded
    products: at an entropy of [2.6] the colour is
    [rgba(130, 131, 161, 0.15)]. *)
Theorem entropyToColor_range : forall entropy : Q,
  (entropyToColor entropy = Transparent <-> entropy < 0.5) /\
  (0.5 <= entropy ->
   exists r g b alpha,
     entropyToColor entropy = Rgba r g b alpha /\
     (0 <= r <= 255)%Z /\ (50 <= g <= 150)%Z /\ (0 <= b <= 200)%Z /\
     0 <= alpha <= 0.25) /\
  (4 <= entropy ->
   exists alpha, entropyToColor entropy = Rgba 255 50 0 alpha /\ alpha == 0.25) /\
  entropyToColor (Double.round 2.6) = Rgba 130 131 161 (Double.round 0.15).
Proof.
  intros entropy.
  assert (Hshape : 0.5 <= entropy ->
            exists r g b alpha,
              entropyToColor entropy = Rgba r g b alpha /\
              (0 <= r <= 255)%Z /\ (50 <= g <= 150)%Z /\ (0 <= b <= 200)%Z /\
              0 <= alpha <= 0.25).
  { intros He. unfold entropyToColor.
    apply Qltb_false in He. rewrite He. cbv zeta.
    pose proof (clamp01_range (Double.div (Double.sub entropy 0.5) 3.5)) as Ht.
    set (t := max 0 (min 1 (Double.div (Double.sub entropy 0.5) 3.5))) in *.
    clearbody t.
    assert (Halpha : 0 <= Double.mul t 0.25 <= 0.25).
    { unfold Double.mul. apply (@round_between 0 0.25); [fixed | fixed | lra | lra]. }
    destruct (Qltb t 0.5) eqn:Et.
    - apply Qltb_true in Et. do 4 eexists. split; [reflexivity|].
      assert (Hl : 0 <= Double.mul t 2 <= 1).
      { unfold Double.mul. apply (@round_between 0 1); [fixed | fixed | lra | lra]. }
      set (localT := Double.mul t 2) in *. clearbody localT.
      pose proof (@unit_scaled 100 localT ltac:(lia) ltac:(fixed) Hl) as Hr.
      assert (Hg : (100 <= floor (Double.add 100 (Double.mul localT 50)) <= 150)%Z).
      { unfold Double.add.
        assert (0 <= Double.mul localT 50 <= 50).
        { unfold Double.mul.
          apply (@round_between 0 50); [fixed | fixed | lra | lra]. }
        apply (@floor_round_between 100 150); [fixed | fixed | |];
          change (inject_Z 100) with 100; change (inject_Z 150) with 150; lra. }
      change (inject_Z 100) with 100 in Hr.
      split; [lia|]. split; [lia|]. split; [lia | exact Halpha].
    - apply Qltb_false in Et. do 4 eexists. split; [reflexivity|].
      assert (Hd : 0 <= Double.sub t 0.5 <= 0.5).
      { unfold Double.sub. apply (@round_between 0 0.5); [fixed | fixed | lra | lra]. }
      assert (Hl : 0 <= Double.mul (Double.sub t 0.5) 2 <= 1).
      { unfold Double.mul at 1.
        apply (@round_between 0 1); [fixed | fixed | lra | lra]. }
      set (localT := Double.mul (Double.sub t 0.5) 2) in *. clearbody localT.
      pose proof (@unit_scaled 155 localT ltac:(lia) ltac:(fixed) Hl) as Hr.
      pose proof (@unit_scaled 100 localT ltac:(lia) ltac:(fixed) Hl) as Hg.
      pose proof (@unit_scaled 200 localT ltac:(lia) ltac:(fixed) Hl) as Hb.
      change (inject_Z 155) with 155 in Hr. change (inject_Z 100) with 100 in Hg.
      change (inject_Z 200) with 200 in Hb.
      split; [lia|]. split; [lia|]. split; [lia | exact Halpha]. }
  split; [|split; [|split]].
  - split.
    + intros Htr. destruct (Qlt_le_dec entropy 0.5) as [Hlt | Hge]; [assumption|].
      destruct (Hshape Hge) as (r & g & b & alpha & Heq & _). congruence.
    + intros Hlt. unfold entropyToColor. apply Qltb_true in Hlt. now rewrite Hlt.
  - exact Hshape.
  - intros He. unfold entropyToColor.
    assert (Hge : 0.5 <= entropy) by lra.
    apply Qltb_false in Hge. rewrite Hge. cbv zeta.
    assert (Hsub : 3.5 <= Double.sub entropy 0.5).
    { unfold Double.sub.
      pose proof (round_mono 3.5 (entropy - 0.5) ltac:(lra)) as H.
      assert (Hfix : Double.round 3.5 == 3.5) by fixed.
      rewrite Hfix in H. exact H. }
    assert (Hone : 1 <= Double.div (Double.sub entropy 0.5) 3.5).
    { unfold Double.div.
      pose proof (round_mono 1 (Double.sub entropy 0.5 / 3.5)) as H.
      assert (Hfix : Double.round 1 == 1) by fixed.
      rewrite Hfix in H. apply H. apply Qle_shift_div_l; lra. }
    rewrite (clamp01_high Hone).
    eexists. split; [vm_compute; reflexivity | vm_compute; reflexivity].
  - vm_compute. reflexivity.
Qed.

(** X21: [marginToColor] always returns [rgb(r, g, 0)] with both channels
    between [0] and [255]; a margin of [0] or less gives pure red
    [rgb(255, 0, 0)], a margin of [1] or more pure green [rgb(0, 255, 0)];
    and a larger margin never gives less green or more red.  The channels
    are the floors of rounded products: a margin of [0.8] gives
    [rgb(50, 204, 0)]. *)
Theorem marginToColor_range : forall margin : Q,
  (exists r g,
     marginChannels margin = (r, g, 0%Z) /\
     marginToColor margin = rgb r g 0 /\
     (0 <= r <= 255)%Z /\ (0 <= g <= 255)%Z) /\
  (margin <= 0 -> marginToColor margin = "rgb(255, 0, 0)"%string) /\
  (1 <= margin -> marginToColor margin = "rgb(0, 255, 0)"%string) /\
  (forall margin', margin <= margin' ->
     (fst (fst (marginChannels margin')) <= fst (fst (marginChannels margin)))%Z /\
     (snd (fst (marginChannels margin)) <= snd (fst (marginChannels margin')))%Z) /\
  marginToColor (Double.round 0.8) = "rgb(50, 204, 0)"%string.
Proof.
  intros margin. unfold marginToColor, marginChannels. cbv zeta.
  pose proof (clamp01_range margin) as Ht.
  split; [|split; [|split; [|split]]].
  - set (t := max 0 (min 1 margin)) in *. clearbody t.
    do 2 eexists. split; [reflexivity|]. split; [reflexivity|].
    pose proof (@unit_scaled 255 (Double.sub 1 t) ltac:(lia) ltac:(fixed)
                             (unit_complement Ht)) as Hr.
    pose proof (@unit_scaled 255 t ltac:(lia) ltac:(fixed) Ht) as Hg.
    change (inject_Z 255) with 255 in *. split; assumption.
  - intros Hm. pose proof (clamp01_low Hm) as H0.
    assert (H1 : Double.sub 1 (max 0 (min 1 margin)) = Double.sub 1 0).
    { unfold Double.sub. apply round_comp. rewrite H0. reflexivity. }
    assert (H2 : Double.mul (max 0 (min 1 margin)) 255 = Double.mul 0 255).
    { unfold Double.mul. apply round_comp. rewrite H0. reflexivity. }
    rewrite H1, H2. vm_compute. reflexivity.
  - intros Hm. rewrite (clamp01_high Hm). vm_compute. reflexivity.
  - intros margin' Hmm. cbn [fst snd].
    pose proof (clamp01_mono Hmm) as Hmono.
    pose proof (clamp01_range margin') as Ht'.
    set (t := max 0 (min 1 margin)) in *.
    set (t' := max 0 (min 1 margin')) in *.
    split; apply Qfloor_resp_le; unfold Double.mul; apply round_mono.
    + apply Qmult_le_compat_r; [|lra]. unfold Double.sub. apply round_mono. lra.
    + apply Qmult_le_compat_r; [assumption | lra].
  - vm_compute. reflexivity.
Qed.
End ColorFacts.

(* ================================================================== *)
(** * [features/saliencyLens]: where and how the highlights are drawn *)
(* ================================================================== *)

Section SaliencyDecorationFacts.
Import Types JSMath SaliencyLens SaliencyColors.
Local Open Scope Q_scope.

Lemma in_firstn {A : Type} (n : nat) (l : list A) (x : A) :
  In x (firstn n l) -> In x l.
Proof.
  intros H. rewrite <- (firstn_skipn n l). apply in_or_app. left. exact H.
Qed.

Lemma salientTokens_in tokens t :
  In t (salientTokens tokens) -> KL_THRESHOLD <= klDivergence t.
Proof.
  unfold salientTokens, JSArray.slice0. intros Hin.
  apply in_firstn in Hin.
  apply (Permutation_in
           _ (Permutation_sym (sort_perm by_kl_desc (filter is_salient tokens))))
    in Hin.
  apply filter_In in Hin. apply is_salient_true. tauto.
Qed.

Lemma salientTokens_sorted tokens :
  StronglySorted (fun a b => klDivergence b <= klDivergence a)
                 (salientTokens tokens).
Proof.
  unfold salientTokens, JSArray.slice0.
  pose proof (sort_by_kl_sorted (filter is_salient tokens)) as Hs.
  rewrite <- (firstn_skipn MAX_DISPLAY_TOKENS) in Hs.
  apply StronglySorted_app_inv in Hs. tauto.
Qed.

Lemma salientTokens_length tokens :
  (List.length (salientTokens tokens) <= MAX_DISPLAY_TOKENS)%nat.
Proof. unfold salientTokens, JSArray.slice0. apply firstn_le_length. Qed.

Lemma flat_map_option_length {A B : Type} (f : A -> option B) (l : list A) :
  (List.length (flat_map (fun a => match f a with
                                   | Some b => [b]
                                   | None => []
                                   end) l) <= List.length l)%nat.
Proof.
  induction l as [|a l IH]; simpl; [lia|].
  destruct (f a); simpl; lia.
Qed.

Lemma highlightRange_inside document token range :
  highlightRange document token = Some range ->
  (0 <= startLine range < Z.of_nat (List.length document))%Z /\
  endLine range = startLine range /\
  (0 <= startChar range <= endChar range)%Z /\
  (endChar range
   <= Z.of_nat (String.length
                  (nth (Z.to_nat (startLine range)) document EmptyString)))%Z /\
  (endChar range - startChar range
   = Z.of_nat (String.length (tokenText token)))%Z.
Proof.
  unfold highlightRange. cbv zeta.
  destruct (Z.ltb_spec (line token - 1) 0); [discriminate|].
  destruct (Z.geb_spec (line token - 1) (Z.of_nat (List.length document)));
    [discriminate|].
  simpl orb. cbv iota.
  destruct (Z.ltb_spec (character token) 0); [discriminate|].
  simpl orb.
  destruct (Z.gtb_spec
              (character token + Z.of_nat (String.length (tokenText token)))
              (Z.of_nat (String.length
                           (nth (Z.to_nat (line token - 1)) document EmptyString))));
    [discriminate|].
  intros [= <-]. cbn [startLine endLine startChar endChar].
  repeat split; lia.
Qed.

Lemma klChannels_top (intensity : Q) :
  1 <= intensity -> klChannels intensity = (256, -1, 255)%Z.
Proof.
  intros H. unfold klChannels. cbv zeta. rewrite (clamp01_high H). reflexivity.
Qed.

(** At the top of the scale, the only place where [klChannels] is
    evaluated below, rounding every operation gives the same channels. *)
Lemma klChannels_top_rounded :
  let localT := Double.mul (Double.sub 1 (Double.round 0.66)) 3 in
  ((180 + floor (Double.mul localT 75))%Z, (50 - floor (Double.mul localT 50))%Z)
  = (256, -1)%Z.
Proof. vm_compute. reflexivity. Qed.

(** X22: the colour of the most salient token leaves the range of a
    colour channel.  [klToColor] at intensity [1] or more computes a red
    channel of [256] ([180 + floor(1.02 * 75)]); and since
    [showSaliencyHighlights] divides every score by the score of the
    first retained token, that token has intensity [1]: whenever it passes
    the position checks, the first decoration is drawn with
    [rgba(256, -1, 255, 0.4)]. *)
Theorem saliency_top_color_out_of_range :
  (forall intensity, 1 <= intensity ->
     klToColor intensity = "rgba(256, -1, 255, 0.4)"%string) /\
  (forall document tokens first rest range,
     salientTokens tokens = first :: rest ->
     highlightRange document first = Some range ->
     hd_error (saliencyDecorations document tokens)
     = Some (range, "rgba(256, -1, 255, 0.4)"%string)).
Proof.
  assert (Htop : forall intensity, 1 <= intensity ->
                   klToColor intensity = "rgba(256, -1, 255, 0.4)"%string).
  { intros intensity H. unfold klToColor. rewrite (klChannels_top H). reflexivity. }
  split; [exact Htop|].
  intros document tokens first rest range Hsal Hrange.
  unfold saliencyDecorations. rewrite Hsal. cbv zeta.
  cbn [flat_map]. rewrite Hrange. cbn [app hd_error].
  rewrite Htop; [reflexivity|].
  assert (Hkl : KL_THRESHOLD <= klDivergence first).
  { apply (@salientTokens_in tokens). rewrite Hsal. left. reflexivity. }
  unfold KL_THRESHOLD in Hkl.
  apply Qle_shift_div_l; lra.
Qed.

Lemma saliency_top_color_out_of_range_witness :
  let document := ["x = foo(1)"%string] in
  let tokens := [mkSaliencyToken 1 4 0.8 "foo"; mkSaliencyToken 1 0 0.2 "x"] in
  1 <= 0.8 / 0.8 /\
  hd_error (saliencyDecorations document tokens)
  = Some (mkRange 0 4 0 7, "rgba(256, -1, 255, 0.4)"%string).
Proof.
  split; [vm_compute; discriminate|].
  exact (proj2 saliency_top_color_out_of_range
               ["x = foo(1)"%string]
               [mkSaliencyToken 1 4 0.8 "foo"; mkSaliencyToken 1 0 0.2 "x"]
               (mkSaliencyToken 1 4 0.8 "foo") [mkSaliencyToken 1 0 0.2 "x"]
               (mkRange 0 4 0 7) eq_refl eq_refl).
Defined.

(** X23: every highlight [showSaliencyHighlights] draws lies inside the
    document: it sits on one existing line, starts at a column that is not
    negative, ends no further than the end of that line, and is as long
    as the token's text; at most [MAX_DISPLAY_TOKENS] highlights are drawn,
    and tokens whose position does not fit are skipped, not clipped. *)
Theorem showSaliencyHighlights_inside : forall document tokens,
  (List.length (showSaliencyHighlights document tokens)
   <= MAX_DISPLAY_TOKENS)%nat /\
  (forall range, In range (showSaliencyHighlights document tokens) ->
     exists token,
       In token (salientTokens tokens) /\
       highlightRange document token = Some range /\
       (0 <= startLine range < Z.of_nat (List.length document))%Z /\
       endLine range = startLine range /\
       (0 <= startChar range <= endChar range)%Z /\
       (endChar range
        <= Z.of_nat (String.length
                       (nth (Z.to_nat (startLine range)) document EmptyString)))%Z /\
       (endChar range - startChar range
        = Z.of_nat (String.length (tokenText token)))%Z) /\
  (forall token, In token (salientTokens tokens) ->
     highlightRange document token = None ->
     (line token < 1)%Z \/ (Z.of_nat (List.length document) < line token)%Z \/
     (character token < 0)%Z \/
     (Z.of_nat (String.length
                  (nth (Z.to_nat (line token - 1)) document EmptyString))
      < character token + Z.of_nat (String.length (tokenText token)))%Z).
Proof.
  intros document tokens. split; [|split].
  - unfold showSaliencyHighlights.
    etransitivity; [apply flat_map_option_length | apply salientTokens_length].
  - intros range Hin. unfold showSaliencyHighlights in Hin.
    apply in_flat_map in Hin. destruct Hin as (token & Htok & Hin).
    destruct (highlightRange document token) as [r|] eqn:E; [|destruct Hin].
    destruct Hin as [<- | []].
    exists token. split; [assumption|]. split; [assumption|].
    apply highlightRange_inside. assumption.
  - intros token _. unfold highlightRange. cbv zeta.
    destruct (Z.ltb_spec (line token - 1) 0); [intros _; lia|].
    destruct (Z.geb_spec (line token - 1) (Z.of_nat (List.length document)));
      [intros _; lia|].
    simpl orb. cbv iota.
    destruct (Z.ltb_spec (character token) 0); [intros _; lia|].
    simpl orb.
    destruct (Z.gtb_spec
                (character token + Z.of_nat (String.length (tokenText token)))
                (Z.of_nat (String.length
                             (nth (Z.to_nat (line token - 1)) document EmptyString))));
      [intros _; lia | discriminate].
Qed.
End SaliencyDecorationFacts.

(* ================================================================== *)
(** * [features/entropyLens]: the painted window holds 100 characters *)
(* ================================================================== *)

Section EntropyWindowFacts.
Import EntropyWindow.
Local Open Scope Z_scope.
Variable document : list string.

Lemma lineLength_nonneg (line : nat) : 0 <= lineLength document line.
Proof. unfold lineLength. lia. Qed.

Lemma charsAbove_nonneg (line : nat) : 0 <= charsAbove document line.
Proof.
  induction line as [|n IH]; simpl; [lia|].
  pose proof (lineLength_nonneg n). lia.
Qed.

(** The loop on the lines above the cursor's. *)
Lemma walkBack_above (cursorLine : nat) :
  forall (startLine : nat) (startChar remainingChars : Z),
    (startLine < cursorLine)%nat -> 0 < remainingChars ->
    let r := walkBack document cursorLine startLine startChar remainingChars in
    (fst r <= startLine)%nat /\
    0 <= snd r <= lineLength document (fst r) /\
    charsBefore document startLine (lineLength document startLine)
    - charsBefore document (fst r) (snd r)
    = Z.min remainingChars
            (charsBefore document startLine (lineLength document startLine)).
Proof.
  induction startLine as [|prev IH]; intros startChar remainingChars Hlt Hrem.
  - cbn [walkBack].
    assert (E : Nat.eqb 0 cursorLine = false) by (apply Nat.eqb_neq; lia).
    rewrite E. cbn [fst snd]. unfold charsBefore. cbn [charsAbove].
    pose proof (lineLength_nonneg 0). lia.
  - cbn [walkBack].
    assert (E : Nat.eqb (S prev) cursorLine = false) by (apply Nat.eqb_neq; lia).
    rewrite E.
    pose proof (lineLength_nonneg (S prev)) as Hlen.
    pose proof (lineLength_nonneg prev) as Hlen'.
    pose proof (charsAbove_nonneg prev) as Habove.
    destruct (Z.gtb_spec
                (remainingChars - Z.min (lineLength document (S prev)) remainingChars)
                0) as [Hmore | Hdone].
    + assert (Hlt' : (prev < cursorLine)%nat) by lia.
      specialize (IH (lineLength document prev)
                     (remainingChars
                      - Z.min (lineLength document (S prev)) remainingChars)
                     Hlt' ltac:(lia)).
      cbv zeta in IH. destruct IH as (Hle & Hcol & Hcount).
      split; [lia|]. split; [exact Hcol|].
      unfold charsBefore in *. cbn [charsAbove]. lia.
    + cbn [fst snd]. unfold charsBefore. cbn [charsAbove]. lia.
Qed.

(** X24: the range [applyEntropyDecoration] paints ends at the cursor and
    starts at a valid position at or before it; between the two lie
    exactly [ENTROPY_WINDOW_SIZE = 100] characters, line breaks not
    counted, or all the characters before the cursor when there are fewer
    than 100. *)
Theorem applyEntropyDecoration_window : forall (cursorLine : nat) (cursorChar : Z),
  (cursorLine < List.length document)%nat ->
  0 <= cursorChar <= lineLength document cursorLine ->
  let start := rangeStart document cursorLine cursorChar in
  (fst start <= cursorLine)%nat /\
  0 <= snd start <= lineLength document (fst start) /\
  (fst start = cursorLine -> snd start <= cursorChar) /\
  charsBefore document cursorLine cursorChar
  - charsBefore document (fst start) (snd start)
  = Z.min ENTROPY_WINDOW_SIZE (charsBefore document cursorLine cursorChar).
Proof.
  intros cursorLine cursorChar Hline Hchar. cbv zeta.
  unfold rangeStart, ENTROPY_WINDOW_SIZE.
  destruct cursorLine as [|prev].
  - cbn [walkBack Nat.eqb fst snd Nat.max]. unfold charsBefore. cbn [charsAbove].
    repeat split; lia.
  - cbn [walkBack]. rewrite Nat.eqb_refl.
    pose proof (charsAbove_nonneg prev) as Habove.
    pose proof (lineLength_nonneg prev) as Hlen'.
    destruct (Z.gtb_spec (100 - Z.min cursorChar 100) 0) as [Hmore | Hdone].
    + pose proof (@walkBack_above (S prev) prev (lineLength document prev)
                                  (100 - Z.min cursorChar 100)
                                  ltac:(lia) ltac:(lia)) as H.
      cbv zeta in H. destruct H as (Hle & Hcol & Hcount).
      destruct (walkBack document (S prev) prev (lineLength document prev)
                         (100 - Z.min cursorChar 100)) as [sl sc].
      cbn [fst snd Nat.max] in *.
      split; [lia|]. split; [lia|]. split; [lia|].
      unfold charsBefore in *. cbn [charsAbove]. lia.
    + cbn [fst snd Nat.max]. unfold charsBefore. cbn [charsAbove].
      repeat split; lia.
Qed.
End EntropyWindowFacts.

Section EntropyWindowExample.
Import EntropyWindow.
Local Open Scope Z_scope.

Lemma applyEntropyDecoration_window_witness :
  let document := ["def add(x, y):"; "    return x + y"; ""; "print(add(1, 2))"]%string in
  let start := rangeStart document 3 5 in
  (3 < List.length document)%nat /\
  0 <= 5 <= lineLength document 3 /\
  charsBefore document 3 5 - charsBefore document (fst start) (snd start)
  = Z.min ENTROPY_WINDOW_SIZE (charsBefore document 3 5).
Proof.
  assert (Hline : (3 < List.length
                         ["def add(x, y):"; "    return x + y"; "";
                          "print(add(1, 2))"]%string)%nat) by (simpl; lia).
  assert (Hchar : 0 <= 5 <= lineLength
                              ["def add(x, y):"; "    return x + y"; "";
                               "print(add(1, 2))"]%string 3)
    by (vm_compute; split; discriminate).
  split; [exact Hline|]. split; [exact Hchar|].
  exact (proj2 (proj2 (proj2
           (@applyEntropyDecoration_window
              ["def add(x, y):"; "    return x + y"; ""; "print(add(1, 2))"]%string
              3%nat 5 Hline Hchar)))).
Defined.
End EntropyWindowExample.

(* ================================================================== *)
(** * Debouncing: one pending update per feature *)
(* ================================================================== *)

Section DebounceFacts.
Import Debounce.
Local Open Scope Z_scope.

Lemma Callback_eqb_eq (a b : Callback) : Callback_eqb a b = true <-> a = b.
Proof. destruct a, b; simpl; split; congruence. Qed.

(** Removing timeouts from the table keeps the handles distinct. *)
Lemma handles_distinct_filter (keep : Timer -> bool) (table : list Timer) :
  NoDup (map handle table) -> NoDup (map handle (filter keep table)).
Proof.
  intros Hnd. induction table as [|t table IH]; [constructor|].
  apply NoDup_cons_iff in Hnd. destruct Hnd as [Hfresh Hnd].
  cbn [filter]. destruct (keep t); [|exact (IH Hnd)].
  cbn [map]. apply NoDup_cons; [|exact (IH Hnd)].
  intros Hin. apply Hfresh. apply in_map_iff in Hin.
  destruct Hin as (t' & Heq & Hin). apply filter_In in Hin.
  rewrite <- Heq. apply in_map. tauto.
Qed.

Lemma same_handle_at_most_one (h : nat) (l : list Timer) :
  NoDup (map handle l) -> (forall t, In t l -> handle t = h) ->
  (List.length l <= 1)%nat.
Proof.
  intros Hnd Hall. destruct l as [|a [|b l]]; simpl; try lia.
  exfalso. inversion Hnd as [|? ? Hni _]; subst. apply Hni.
  rewrite (Hall a) by (left; reflexivity).
  rewrite <- (Hall b) by (right; left; reflexivity).
  left. reflexivity.
Qed.

Lemma consistent_init : consistent Debounce.init.
Proof.
  split; [|split]; simpl.
  - intros t [].
  - constructor.
  - intros t [].
Qed.

Lemma consistent_clearTimeout s h : consistent s -> consistent (clearTimeout s h).
Proof.
  intros (Hfresh & Hnd & Hown). unfold clearTimeout. repeat split; simpl.
  - intros t Hin. apply filter_In in Hin. apply Hfresh. tauto.
  - apply handles_distinct_filter. assumption.
  - intros t Hin. apply filter_In in Hin.
    specialize (Hown t (proj1 Hin)). destruct (callback t); exact Hown.
Qed.

Lemma consistent_with_saliencyEnabled s b :
  consistent s -> consistent (with_saliencyEnabled s b).
Proof.
  intros (Hfresh & Hnd & Hown). split; [|split]; simpl; assumption.
Qed.

(** What a feature's debounced entry point does, whatever the feature:
    every pending timeout of the feature is cancelled and one is set. *)
Lemma pendingFor_clear_own s cb :
  consistent s ->
  pendingFor cb (match timeoutOf s cb with
                 | Some h => clearTimeout s h
                 | None => s
                 end) = [].
Proof.
  intros (Hfresh & Hnd & Hown). unfold pendingFor.
  destruct (timeoutOf s cb) as [h|] eqn:E.
  - unfold clearTimeout. simpl.
    induction (timers s) as [|t l IH]; simpl; [reflexivity|].
    assert (Hl : forall t, In t l -> timeoutOf s (callback t) = Some (handle t))
      by (intros x Hx; apply Hown; right; exact Hx).
    assert (Hfl : forall t, In t l -> (handle t < nextHandle s)%nat)
      by (intros x Hx; apply Hfresh; right; exact Hx).
    assert (Hndl : NoDup (map handle l)) by (simpl in Hnd; now inversion Hnd).
    specialize (IH Hfl Hndl Hl).
    destruct (Nat.eqb_spec (handle t) h) as [Heq | Hne]; simpl; [exact IH|].
    destruct (Callback_eqb (callback t) cb) eqn:Ecb; [|exact IH].
    apply Callback_eqb_eq in Ecb. subst cb.
    specialize (Hown t (or_introl eq_refl)). congruence.
  - induction (timers s) as [|t l IH]; simpl; [reflexivity|].
    destruct (Callback_eqb (callback t) cb) eqn:Ecb.
    + apply Callback_eqb_eq in Ecb. subst cb.
      specialize (Hown t (or_introl eq_refl)). congruence.
    + apply IH.
      * intros x Hx. apply Hfresh. right. exact Hx.
      * simpl in Hnd. now inversion Hnd.
      * intros x Hx. apply Hown. right. exact Hx.
Qed.

Lemma consistent_debouncedEntropyHighlight s now :
  consistent s -> consistent (debouncedEntropyHighlight s now).
Proof.
  intros Hs. pose proof (pendingFor_clear_own HighlightEntropy Hs) as Hnone.
  assert (Hc : consistent (match entropyTimeout s with
                           | Some h => clearTimeout s h
                           | None => s
                           end))
    by (destruct (entropyTimeout s); [apply consistent_clearTimeout|]; exact Hs).
  unfold debouncedEntropyHighlight. cbn [timeoutOf] in Hnone.
  set (s1 := match entropyTimeout s with
             | Some h => clearTimeout s h
             | None => s
             end) in *. clearbody s1.
  destruct Hc as (Hfresh & Hnd & Hown). unfold setTimeout. repeat split; simpl.
  - intros t Hin. apply in_app_or in Hin. destruct Hin as [Hin | [<- | []]].
    + specialize (Hfresh t Hin). lia.
    + simpl. lia.
  - rewrite map_app. simpl. apply NoDup_snoc. split; [|assumption].
    intros Hin. apply in_map_iff in Hin. destruct Hin as (t & Ht & Hin).
    specialize (Hfresh t Hin). lia.
  - intros t Hin. apply in_app_or in Hin. destruct Hin as [Hin | [<- | []]].
    + specialize (Hown t Hin).
      destruct (callback t) eqn:Ecb; simpl in *; try exact Hown.
      exfalso. unfold pendingFor in Hnone.
      assert (Hf : In t (filter (fun t => Callback_eqb (callback t) HighlightEntropy)
                                (timers s1)))
        by (apply filter_In; split; [exact Hin | rewrite Ecb; reflexivity]).
      rewrite Hnone in Hf. destruct Hf.
    + reflexivity.
Qed.

Lemma consistent_debouncedGhostUpdate s now :
  consistent s -> consistent (debouncedGhostUpdate s now).
Proof.
  intros Hs. pose proof (pendingFor_clear_own UpdateGhostToken Hs) as Hnone.
  assert (Hc : consistent (match ghostTimeout s with
                           | Some h => clearTimeout s h
                           | None => s
                           end))
    by (destruct (ghostTimeout s); [apply consistent_clearTimeout|]; exact Hs).
  unfold debouncedGhostUpdate. cbn [timeoutOf] in Hnone.
  set (s1 := match ghostTimeout s with
             | Some h => clearTimeout s h
             | None => s
             end) in *. clearbody s1.
  destruct Hc as (Hfresh & Hnd & Hown). unfold setTimeout. repeat split; simpl.
  - intros t Hin. apply in_app_or in Hin. destruct Hin as [Hin | [<- | []]].
    + specialize (Hfresh t Hin). lia.
    + simpl. lia.
  - rewrite map_app. simpl. apply NoDup_snoc. split; [|assumption].
    intros Hin. apply in_map_iff in Hin. destruct Hin as (t & Ht & Hin).
    specialize (Hfresh t Hin). lia.
  - intros t Hin. apply in_app_or in Hin. destruct Hin as [Hin | [<- | []]].
    + specialize (Hown t Hin).
      destruct (callback t) eqn:Ecb; simpl in *; try exact Hown.
      exfalso. unfold pendingFor in Hnone.
      assert (Hf : In t (filter (fun t => Callback_eqb (callback t) UpdateGhostToken)
                                (timers s1)))
        by (apply filter_In; split; [exact Hin | rewrite Ecb; reflexivity]).
      rewrite Hnone in Hf. destruct Hf.
    + reflexivity.
Qed.

Lemma consistent_debouncedSaliencyUpdate s now :
  consistent s -> consistent (debouncedSaliencyUpdate s now).
Proof.
  intros Hs. unfold debouncedSaliencyUpdate.
  destruct (saliencyEnabled s); simpl negb; cbv iota; [|exact Hs].
  pose proof (pendingFor_clear_own UpdateSaliency Hs) as Hnone.
  assert (Hc : consistent (match saliencyTimeout s with
                           | Some h => clearTimeout s h
                           | None => s
                           end))
    by (destruct (saliencyTimeout s); [apply consistent_clearTimeout|]; exact Hs).
  cbn [timeoutOf] in Hnone.
  set (s1 := match saliencyTimeout s with
             | Some h => clearTimeout s h
             | None => s
             end) in *. clearbody s1.
  destruct Hc as (Hfresh & Hnd & Hown). unfold setTimeout. repeat split; simpl.
  - intros t Hin. apply in_app_or in Hin. destruct Hin as [Hin | [<- | []]].
    + specialize (Hfresh t Hin). lia.
    + simpl. lia.
  - rewrite map_app. simpl. apply NoDup_snoc. split; [|assumption].
    intros Hin. apply in_map_iff in Hin. destruct Hin as (t & Ht & Hin).
    specialize (Hfresh t Hin). lia.
  - intros t Hin. apply in_app_or in Hin. destruct Hin as [Hin | [<- | []]].
    + specialize (Hown t Hin).
      destruct (callback t) eqn:Ecb; simpl in *; try exact Hown.
      exfalso. unfold pendingFor in Hnone.
      assert (Hf : In t (filter (fun t => Callback_eqb (callback t) UpdateSaliency)
                                (timers s1)))
        by (apply filter_In; split; [exact Hin | rewrite Ecb; reflexivity]).
      rewrite Hnone in Hf. destruct Hf.
    + reflexivity.
Qed.

Lemma consistent_step s e : consistent s -> consistent (step s e).
Proof.
  intros Hs. destruct e as [now | now | now | now editor | now | now h]; simpl.
  - apply consistent_debouncedEntropyHighlight. exact Hs.
  - apply consistent_debouncedGhostUpdate. exact Hs.
  - apply consistent_debouncedSaliencyUpdate. exact Hs.
  - unfold toggleSaliency. cbv zeta.
    pose proof (consistent_with_saliencyEnabled (negb (saliencyEnabled s)) Hs) as H1.
    destruct editor; [|exact H1].
    destruct (saliencyEnabled (with_saliencyEnabled s (negb (saliencyEnabled s))));
      [apply consistent_debouncedSaliencyUpdate|]; exact H1.
  - unfold runSaliencyNow. apply consistent_debouncedSaliencyUpdate.
    apply consistent_with_saliencyEnabled. exact Hs.
  - unfold fire. destruct (find _ (timers s)) as [t|]; [|exact Hs].
    destruct (due t <=? now); [|exact Hs].
    apply consistent_clearTimeout. exact Hs.
Qed.

Lemma consistent_run events : forall s, consistent s -> consistent (run s events).
Proof.
  induction events as [|e events IH]; intros s Hs; [exact Hs|].
  simpl. apply IH. apply consistent_step. exact Hs.
Qed.

Lemma pendingFor_at_most_one s cb :
  consistent s -> (List.length (pendingFor cb s) <= 1)%nat.
Proof.
  intros (Hfresh & Hnd & Hown).
  destruct (timeoutOf s cb) as [h|] eqn:E.
  - apply (@same_handle_at_most_one h).
    + apply handles_distinct_filter. exact Hnd.
    + intros t Hin. apply filter_In in Hin. destruct Hin as [Hin Hcb].
      apply Callback_eqb_eq in Hcb. specialize (Hown t Hin).
      rewrite Hcb, E in Hown. congruence.
  - assert (Hnil : pendingFor cb s = []).
    { unfold pendingFor. destruct (filter _ (timers s)) as [|t l] eqn:F;
        [reflexivity|].
      assert (Hin : In t (filter (fun t => Callback_eqb (callback t) cb) (timers s)))
        by (rewrite F; left; reflexivity).
      apply filter_In in Hin. destruct Hin as [Hin Hcb].
      apply Callback_eqb_eq in Hcb. specialize (Hown t Hin).
      rewrite Hcb, E in Hown. discriminate. }
    rewrite Hnil. simpl. lia.
Qed.

Lemma pendingFor_app cb s extra :
  filter (fun t => Callback_eqb (callback t) cb) (timers s ++ extra)
  = (pendingFor cb s
     ++ filter (fun t => Callback_eqb (callback t) cb) extra)%list.
Proof. unfold pendingFor. apply filter_app. Qed.

(** X25: debouncing leaves one pending update per feature.  In every
    state reached from the initial one by calls of the debounced entry
    points, of [toggleSaliency] and [runSaliencyNow], and by timeouts
    firing, each feature has at most one pending timeout; and right after
    a call of [debouncedEntropyHighlight], [debouncedGhostUpdate] or (when
    enabled) [debouncedSaliencyUpdate] at time [now] the feature has
    exactly one, due [DEBOUNCE_MS] (150, 100, 500 ms) after [now]: earlier
    calls are cancelled, so a burst of calls leads to a single update.
    With the saliency lens disabled, [debouncedSaliencyUpdate] does
    nothing. *)
Theorem debounce_one_pending : forall events : list Event,
  let s := run Debounce.init events in
  (forall cb, (List.length (pendingFor cb s) <= 1)%nat) /\
  (forall now,
     pendingFor HighlightEntropy (debouncedEntropyHighlight s now)
     = [mkTimer (nextHandle s) (now + 150) HighlightEntropy]) /\
  (forall now,
     pendingFor UpdateGhostToken (debouncedGhostUpdate s now)
     = [mkTimer (nextHandle s) (now + 100) UpdateGhostToken]) /\
  (forall now,
     saliencyEnabled s = true ->
     pendingFor UpdateSaliency (debouncedSaliencyUpdate s now)
     = [mkTimer (nextHandle s) (now + 500) UpdateSaliency]) /\
  (forall now,
     saliencyEnabled s = false -> debouncedSaliencyUpdate s now = s).
Proof.
  intros events. cbv zeta.
  pose proof (consistent_run events consistent_init) as Hs.
  set (s := run Debounce.init events) in *. clearbody s.
  split; [|split; [|split; [|split]]].
  - intros cb. apply pendingFor_at_most_one. exact Hs.
  - intros now. pose proof (pendingFor_clear_own HighlightEntropy Hs) as Hnone.
    cbn [timeoutOf] in Hnone.
    unfold debouncedEntropyHighlight, setTimeout. cbv zeta.
    unfold pendingFor at 1. cbn [timers]. rewrite pendingFor_app, Hnone.
    destruct (entropyTimeout s); reflexivity.
  - intros now. pose proof (pendingFor_clear_own UpdateGhostToken Hs) as Hnone.
    cbn [timeoutOf] in Hnone.
    unfold debouncedGhostUpdate, setTimeout. cbv zeta.
    unfold pendingFor at 1. cbn [timers]. rewrite pendingFor_app, Hnone.
    destruct (ghostTimeout s); reflexivity.
  - intros now Hen. pose proof (pendingFor_clear_own UpdateSaliency Hs) as Hnone.
    cbn [timeoutOf] in Hnone.
    unfold debouncedSaliencyUpdate, setTimeout. rewrite Hen. cbv zeta.
    simpl negb. cbv iota.
    unfold pendingFor at 1. cbn [timers]. rewrite pendingFor_app, Hnone.
    destruct (saliencyTimeout s); reflexivity.
  - intros now Hdis. unfold debouncedSaliencyUpdate. rewrite Hdis. reflexivity.
Qed.
End DebounceFacts.

(* ================================================================== *)
(** * [features/unifiedHud]: two categories are never reached *)
(* ================================================================== *)

Section CategoryFacts.
Import JSMath UnifiedHud.
Local Open Scope Q_scope.

(** X26: [logprobToCategory] only ever answers [confident] or [lost].
    The ranges of [unsure] ([min = -0.5], [max = -1.5]) and [confused]
    ([min = -1.5], [max = -3.0]) have their bounds the wrong way round,
    so no number lies in them: a log-probability below [-0.5] is
    [confident] and every other one, [0] included, is [lost]. *)
Theorem logprobToCategory_two_categories : forall logprob : Q,
  (logprob < -0.5 -> logprobToCategory logprob = confident) /\
  (-0.5 <= logprob -> logprobToCategory logprob = lost) /\
  logprobToCategory logprob <> unsure /\
  logprobToCategory logprob <> confused.
Proof.
  intros logprob.
  assert (Hlow : logprob < -0.5 -> logprobToCategory logprob = confident).
  { intros H. unfold logprobToCategory. cbn [LOGPROB_RANGES min max geBound ltBound].
    apply Qltb_true in H. rewrite H. reflexivity. }
  assert (Hhigh : -0.5 <= logprob -> logprobToCategory logprob = lost).
  { intros H. unfold logprobToCategory. cbn [LOGPROB_RANGES min max geBound ltBound].
    assert (E1 : Qltb logprob (-0.5) = false) by (apply Qltb_false; exact H).
    assert (E2 : Qltb logprob (-1.5) = false) by (apply Qltb_false; lra).
    assert (E3 : Qltb logprob (-3.0) = false) by (apply Qltb_false; lra).
    rewrite E1, E2, E3. rewrite !andb_false_r. reflexivity. }
  split; [exact Hlow|]. split; [exact Hhigh|].
  destruct (Qlt_le_dec logprob (-0.5)) as [H | H].
  - rewrite (Hlow H). split; discriminate.
  - rewrite (Hhigh H). split; discriminate.
Qed.
End CategoryFacts.

(* ================================================================== *)
(** * [features/ghostToken]: [escapeMarkdown] escapes in one pass *)
(* ================================================================== *)

Section MarkdownFacts.
Import Markdown.
Local Open Scope string_scope.

Lemma replaceAll_app c replacement (x y : string) :
  replaceAll c replacement (x ++ y)
  = replaceAll c replacement x ++ replaceAll c replacement y.
Proof.
  induction x as [|a x IH]; simpl; [reflexivity|].
  destruct (Ascii.eqb a c); rewrite IH; [|reflexivity].
  symmetry. apply string_app_assoc.
Qed.

Lemma replaceAll_other c replacement (a : ascii) :
  a <> c -> replaceAll c replacement (String a EmptyString) = String a EmptyString.
Proof.
  intros H. simpl. destruct (Ascii.eqb_spec a c); [contradiction | reflexivity].
Qed.

(** The five replacements applied to one character. *)
Lemma escape_one (a : ascii) :
  replaceAll linefeed (escaped letter_n)
    (replaceAll underscore (escaped underscore)
       (replaceAll star (escaped star)
          (replaceAll backtick (escaped backtick)
             (replaceAll backslash (escaped backslash) (String a EmptyString)))))
  = escapeChar a.
Proof.
  unfold escapeChar.
  destruct (Ascii.eqb_spec a backslash) as [-> | H1]; [reflexivity|].
  destruct (Ascii.eqb_spec a backtick) as [-> | H2]; [reflexivity|].
  destruct (Ascii.eqb_spec a star) as [-> | H3]; [reflexivity|].
  destruct (Ascii.eqb_spec a underscore) as [-> | H4]; [reflexivity|].
  cbn [orb]. rewrite (replaceAll_other _ H1), (replaceAll_other _ H2).
  rewrite (replaceAll_other _ H3), (replaceAll_other _ H4).
  destruct (Ascii.eqb_spec a linefeed) as [-> | H5]; [reflexivity|].
  apply replaceAll_other. exact H5.
Qed.

Lemma escapeMarkdown_each (text : string) : escapeMarkdown text = escapeEach text.
Proof.
  induction text as [|a text IH]; [reflexivity|].
  change (String a text) with (String a EmptyString ++ text).
  unfold escapeMarkdown in *. rewrite !replaceAll_app, IH, escape_one.
  reflexivity.
Qed.

Lemma escapeChar_cases (a : ascii) :
  (escapeChar a = String a EmptyString /\ a <> backslash) \/
  (exists x, escapeChar a = escaped x /\
             (a = linefeed /\ x = letter_n \/
              a = x /\ (x = backslash \/ x = backtick \/ x = star
                        \/ x = underscore))).
Proof.
  unfold escapeChar.
  destruct (Ascii.eqb_spec a backslash) as [-> | H1];
    [right; exists backslash; split; [reflexivity | tauto]|].
  destruct (Ascii.eqb_spec a backtick) as [-> | H2];
    [right; exists backtick; split; [reflexivity | tauto]|].
  destruct (Ascii.eqb_spec a star) as [-> | H3];
    [right; exists star; split; [reflexivity | tauto]|].
  destruct (Ascii.eqb_spec a underscore) as [-> | H4];
    [right; exists underscore; split; [reflexivity | tauto]|].
  cbn [orb].
  destruct (Ascii.eqb_spec a linefeed) as [-> | H5];
    [right; exists letter_n; split; [reflexivity | tauto]|].
  left. split; [reflexivity | assumption].
Qed.

Lemma escapeEach_injective (s1 : string) : forall s2,
  escapeEach s1 = escapeEach s2 -> s1 = s2.
Proof.
  induction s1 as [|a s1 IH]; intros [|b s2] H.
  - reflexivity.
  - exfalso. simpl in H.
    destruct (escapeChar_cases b) as [[E _] | (x & E & _)];
      rewrite E in H; discriminate.
  - exfalso. simpl in H.
    destruct (escapeChar_cases a) as [[E _] | (x & E & _)];
      rewrite E in H; discriminate.
  - cbn [escapeEach] in H.
    destruct (escapeChar_cases a) as [[Ea Ha] | (x & Ea & Hx)];
      destruct (escapeChar_cases b) as [[Eb Hb] | (y & Eb & Hy)];
      rewrite Ea, Eb in H; unfold escaped in H; cbn [append] in H.
    + injection H as -> H. f_equal. apply IH. exact H.
    + injection H as -> H. contradiction.
    + injection H as <- H. contradiction.
    + injection H as -> H. f_equal; [|apply IH; exact H].
      destruct Hx as [[-> Hx] | [-> Hx]], Hy as [[-> Hy] | [-> Hy]];
        try reflexivity; exfalso;
        repeat match goal with
               | H : _ \/ _ |- _ => destruct H
               end; subst; discriminate.
Qed.

Lemma escapeEach_no_linefeed (text : string) :
  occurs linefeed (escapeEach text) = false.
Proof.
  induction text as [|a text IH]; [reflexivity|].
  cbn [escapeEach].
  destruct (escapeChar_cases a) as [[E Ha] | (x & E & Hx)]; rewrite E.
  - unfold escapeChar in E.
    destruct (Ascii.eqb_spec a linefeed) as [-> | Hne].
    + discriminate E.
    + cbn [append occurs]. rewrite IH.
      destruct (Ascii.eqb_spec a linefeed); [contradiction | reflexivity].
  - unfold escaped. cbn [append occurs]. rewrite IH.
    destruct Hx as [[_ ->] | [_ [-> | [-> | [-> | ->]]]]]; reflexivity.
Qed.

(** X27: [escapeMarkdown]'s five successive replacements amount to one
    pass that escapes each character on its own: a backslash, backtick,
    star or underscore gets a backslash in front, a line feed becomes
    backslash-n, and no replacement re-escapes the output of an earlier
    one.  So the result contains no line feed, and different texts have
    different escapes. *)
Theorem escapeMarkdown_one_pass : forall text : string,
  escapeMarkdown text = escapeEach text /\
  occurs linefeed (escapeMarkdown text) = false /\
  (forall text', escapeMarkdown text = escapeMarkdown text' -> text = text').
Proof.
  intros text. split; [apply escapeMarkdown_each|]. split.
  - rewrite escapeMarkdown_each. apply escapeEach_no_linefeed.
  - intros text'. rewrite !escapeMarkdown_each. apply escapeEach_injective.
Qed.
End MarkdownFacts.

(* ================================================================== *)
(** * [features/ghostToken]: the underlined word and its colour *)
(* ================================================================== *)

Section GhostFacts.
Import Types JSMath GhostToken.
Local Open Scope Q_scope.

Lemma wordStart_le lineText (startChar : nat) :
  (wordStart lineText startChar <= startChar)%nat.
Proof.
  induction startChar as [|n IH]; simpl; [lia|].
  destruct (wordAt lineText n); lia.
Qed.

Lemma wordStart_word lineText (startChar : nat) :
  forall i, (wordStart lineText startChar <= i < startChar)%nat ->
            wordAt lineText i = true.
Proof.
  induction startChar as [|n IH]; simpl; intros i Hi; [lia|].
  destruct (wordAt lineText n) eqn:E; [|lia].
  destruct (Nat.eq_dec i n) as [-> | Hne]; [exact E|].
  apply IH. lia.
Qed.

Lemma wordStart_boundary lineText (startChar : nat) :
  wordStart lineText startChar = 0%nat \/
  wordAt lineText (wordStart lineText startChar - 1) = false.
Proof.
  induction startChar as [|n IH]; simpl; [left; reflexivity|].
  destruct (wordAt lineText n) eqn:E; [exact IH|].
  right. simpl. rewrite Nat.sub_0_r. exact E.
Qed.

Lemma wordAt_inside lineText (i : nat) :
  (i < String.length lineText)%nat ->
  exists c, String.get i lineText = Some c /\ wordAt lineText i = isWordChar c.
Proof.
  intros Hi. unfold wordAt.
  destruct (String.get i lineText) as [c|] eqn:E.
  - exists c. split; reflexivity.
  - exfalso. revert i Hi E.
    induction lineText as [|a s IH]; simpl; intros i Hi E; [lia|].
    destruct i as [|i]; [discriminate|]. apply (IH i); [lia | exact E].
Qed.

Lemma ambiguityChannels_range (margin : Q) :
  (0 <= fst (ambiguityChannels margin) <= 255)%Z /\
  (55 <= snd (ambiguityChannels margin) <= 255)%Z.
Proof.
  unfold ambiguityChannels. cbv zeta. cbn [fst snd].
  pose proof (clamp01_range (Double.div margin (Double.round 0.3))) as Ht.
  set (t := max 0 (min 1 (Double.div margin (Double.round 0.3)))) in *.
  clearbody t.
  pose proof (@unit_scaled 255 (Double.sub 1 t) ltac:(lia)
                           ltac:(vm_compute; reflexivity)
                           (unit_complement Ht)) as Hr.
  change (inject_Z 255) with 255 in Hr. split; [exact Hr|].
  assert (Hm : 0 <= Double.mul t 200 <= 200).
  { unfold Double.mul.
    apply (@round_between 0 200);
      [vm_compute; reflexivity | vm_compute; reflexivity | lra | lra]. }
  unfold Double.add.
  apply (@floor_round_between 55 255);
    [vm_compute; reflexivity | vm_compute; reflexivity | |];
    change (inject_Z 55) with 55; change (inject_Z 255) with 255; lra.
Qed.

(** X28: what [updateGhostToken] draws for a response.  The ghost text is
    shown exactly when the response sets [shouldShowGhost] and the
    alternative token is neither empty nor a line feed.  The underline is
    drawn exactly when the margin is below the number the literal [0.3]
    denotes; for a cursor on the line it then covers the longest run of
    word characters that ends at the cursor (possibly none), and its
    colour is [rgba(r, g, 0, 0.6)] with [r] in [0..255] and [g] in
    [55..255], the two channels [ambiguityChannels] computes.  The
    channels are the floors of rounded products: a margin of [0.2] gives
    [rgba(84, 188, 0, 0.6)]. *)
Theorem updateGhostToken_drawn :
  forall (lineText : string) (character : nat) (ghostData : GhostResponse),
    (character <= String.length lineText)%nat ->
    let d := drawn lineText character (Some ghostData) in
    (forall text, fst d = Some text <->
       shouldShowGhost ghostData = true /\
       text = token (secondary ghostData) /\
       text <> ""%string /\ text <> HudClient.newline) /\
    (snd d = None <-> Double.round 0.3 <= margin ghostData) /\
    (forall u, snd d = Some u ->
       margin ghostData < Double.round 0.3 /\
       endChar u = character /\
       (startChar u <= character)%nat /\
       (forall i, (startChar u <= i < character)%nat ->
          exists c, String.get i lineText = Some c /\ isWordChar c = true) /\
       (startChar u = 0%nat \/
        exists c, String.get (startChar u - 1) lineText = Some c /\
                  isWordChar c = false) /\
       exists r g, ambiguityChannels (margin ghostData) = (r, g) /\
                   color u = rgba06 r g /\
                   (0 <= r <= 255)%Z /\ (55 <= g <= 255)%Z) /\
    ambiguityChannels (Double.round 0.2) = (84%Z, 188%Z).
Proof.
  intros lineText character ghostData Hcursor. cbv zeta. unfold drawn.
  cbn [fst snd]. split; [|split; [|split]].
  - intros text. unfold showGhostToken. cbv zeta.
    destruct (shouldShowGhost ghostData).
    + destruct (String.eqb_spec (token (secondary ghostData)) "") as [E1 | E1];
        cbn [orb].
      * split; [discriminate|]. intros (_ & -> & H & _). contradiction.
      * destruct (String.eqb_spec (token (secondary ghostData)) HudClient.newline)
          as [E2 | E2].
        -- split; [discriminate|]. intros (_ & -> & _ & H). contradiction.
        -- split.
           ++ intros [= <-]. repeat split; assumption.
           ++ intros (_ & -> & _). reflexivity.
    + split; [discriminate|]. intros (H & _). discriminate.
  - destruct (Qltb (margin ghostData) (Double.round 0.3)) eqn:E.
    + apply Qltb_true in E. split; [discriminate|]. intros H.
      exfalso. apply (Qlt_not_le _ _ E H).
    + apply Qltb_false in E. split; [intros _; exact E | reflexivity].
  - intros u.
    destruct (Qltb (margin ghostData) (Double.round 0.3)) eqn:E; [|discriminate].
    apply Qltb_true in E. intros [= <-].
    unfold showAmbiguityIndicator.
    pose proof (ambiguityChannels_range (margin ghostData)) as Hrange.
    destruct (ambiguityChannels (margin ghostData)) as [r g].
    cbn [fst snd] in Hrange. cbn [color startChar endChar].
    split; [exact E|]. split; [reflexivity|].
    split; [apply wordStart_le|]. split; [|split].
    + intros i Hi. pose proof (@wordStart_word lineText character i Hi) as Hw.
      destruct (@wordAt_inside lineText i ltac:(lia)) as (c & Hc & Hwc).
      exists c. split; [exact Hc | congruence].
    + destruct (wordStart_boundary lineText character) as [H0 | Hb];
        [left; exact H0|].
      destruct (Nat.eq_dec (wordStart lineText character) 0) as [H0 | Hpos];
        [left; exact H0|].
      right. pose proof (wordStart_le lineText character).
      destruct (@wordAt_inside lineText (wordStart lineText character - 1)
                               ltac:(lia)) as (c & Hc & Hwc).
      exists c. split; [exact Hc | congruence].
    + exists r, g. split; [reflexivity|]. split; [reflexivity | exact Hrange].
  - vm_compute. reflexivity.
Qed.

Lemma updateGhostToken_drawn_witness :
  let ghostData := mkGhostResponse (mkTokenProb " +" (-0.5))
                                   (mkTokenProb " -" (-0.7))
                                   (Double.round 0.12) true in
  (12 <= String.length "    return a")%nat /\
  drawn "    return a" 12 (Some ghostData)
  = (Some " -"%string, Some (mkUnderline "rgba(153, 135, 0, 0.6)" 11 12)).
Proof.
  assert (H : (12 <= String.length "    return a")%nat) by (simpl; lia).
  split; [exact H|].
  pose proof (@updateGhostToken_drawn
                "    return a" 12
                (mkGhostResponse (mkTokenProb " +" (-0.5))
                                 (mkTokenProb " -" (-0.7))
                                 (Double.round 0.12) true) H)
    as (Hghost & _ & _).
  assert (Hfst : fst (drawn "    return a" 12
                            (Some (mkGhostResponse (mkTokenProb " +" (-0.5))
                                                   (mkTokenProb " -" (-0.7))
                                                   (Double.round 0.12) true)))
                 = Some " -"%string).
  { apply (proj2 (Hghost " -"%string)).
    repeat split; try reflexivity; discriminate. }
  destruct (drawn "    return a" 12
                  (Some (mkGhostResponse (mkTokenProb " +" (-0.5))
                                         (mkTokenProb " -" (-0.7))
                                         (Double.round 0.12) true)))
    as [g u] eqn:E.
  simpl in Hfst. subst g. f_equal.
  vm_compute in E. injection E as <-. reflexivity.
Defined.
End GhostFacts.

(* ================================================================== *)
(** * [extension]: highlights on a line do not overlap *)
(* ================================================================== *)

Section LegacyFacts.
Import Types JSMath LegacyHighlight.
Local Open Scope nat_scope.

Lemma index_ge (s1 : string) : forall (s2 : string) (n m : nat),
  String.index n s1 s2 = Some m -> n <= m.
Proof.
  induction s2 as [|c s2 IH]; intros n m H; simpl in H.
  - destruct n; [lia | discriminate].
  - destruct n as [|n]; [lia|].
    destruct (String.index n s1 s2) as [k|] eqn:E; [|discriminate].
    injection H as <-. apply IH in E. lia.
Qed.

Lemma substring_length : forall (s : string) (n m : nat),
  String.length (String.substring n m s) = Nat.min m (String.length s - n).
Proof.
  induction s as [|c s IH]; intros n m.
  - destruct n, m; reflexivity.
  - destruct n as [|n].
    + destruct m as [|m]; [reflexivity|]. simpl. rewrite IH. simpl.
      rewrite Nat.sub_0_r. reflexivity.
    + simpl. apply IH.
Qed.

Lemma indexOf_occurrence lineText searchString position tokenPos :
  searchString <> EmptyString ->
  indexOf lineText searchString position = Some tokenPos ->
  position <= tokenPos /\
  tokenPos + String.length searchString <= String.length lineText /\
  String.substring tokenPos (String.length searchString) lineText = searchString.
Proof.
  intros Hne H. unfold indexOf in H.
  pose proof (index_ge _ _ _ H) as Hge.
  pose proof (String.index_correct1 _ _ _ _ H) as Hsub.
  split; [exact Hge|]. split; [|exact Hsub].
  pose proof (substring_length lineText tokenPos (String.length searchString))
    as Hlen.
  rewrite Hsub in Hlen.
  assert (0 < String.length searchString)
    by (destruct searchString; [contradiction | simpl; lia]).
  lia.
Qed.

Lemma greenChannel_range (logprob : Q) : (0 <= greenChannel logprob <= 255)%Z.
Proof.
  unfold greenChannel. cbv zeta.
  pose proof (clamp01_range (Double.div (Double.sub (Qabs logprob) 1) 4)) as Ht.
  set (t := max 0 (min 1 (Double.div (Double.sub (Qabs logprob) 1) 4))) in *.
  clearbody t.
  pose proof (@unit_scaled 255 (Double.sub 1 t) ltac:(lia)
                           ltac:(vm_compute; reflexivity)
                           (unit_complement Ht)) as Hg.
  change (inject_Z 255) with 255%Q in Hg. exact Hg.
Qed.

Lemma greenChannel_clamped_mono (x y : Q) :
  (x <= y)%Q ->
  (max 0 (min 1 (Double.div (Double.sub x 1) 4))
   <= max 0 (min 1 (Double.div (Double.sub y 1) 4)))%Q.
Proof.
  intros Hxy. apply clamp01_mono. unfold Double.div. apply round_mono.
  apply Qmult_le_compat_r; [|vm_compute; discriminate].
  unfold Double.sub. apply round_mono. lra.
Qed.

(** The further below zero the log-probability, the less green. *)
Lemma greenChannel_mono (logprob logprob' : Q) :
  (logprob <= logprob')%Q -> (logprob' <= 0)%Q ->
  (greenChannel logprob <= greenChannel logprob')%Z.
Proof.
  intros Hle Hneg. unfold greenChannel. cbv zeta.
  assert (Habs : (Qabs logprob' <= Qabs logprob)%Q).
  { rewrite (Qabs_neg logprob'), (Qabs_neg logprob) by lra. lra. }
  pose proof (greenChannel_clamped_mono Habs) as Ht.
  set (t := max 0 (min 1 (Double.div (Double.sub (Qabs logprob) 1) 4))) in *.
  set (t' := max 0 (min 1 (Double.div (Double.sub (Qabs logprob') 1) 4))) in *.
  clearbody t t'.
  apply Qfloor_resp_le. unfold Double.mul. apply round_mono.
  apply Qmult_le_compat_r; [|lra]. unfold Double.sub. apply round_mono. lra.
Qed.

(** From [-5] down the colour is pure red. *)
Lemma greenChannel_saturated (logprob : Q) :
  (logprob <= -5)%Q -> greenChannel logprob = 0%Z.
Proof.
  intros Hle. unfold greenChannel. cbv zeta.
  assert (Habs : (5 <= Qabs logprob)%Q).
  { rewrite (Qabs_neg logprob) by lra. lra. }
  assert (Hsub : (4 <= Double.sub (Qabs logprob) 1)%Q).
  { unfold Double.sub.
    pose proof (round_mono 4 (Qabs logprob - 1) ltac:(lra)) as H.
    assert (Hfix : (Double.round 4 == 4)%Q) by (vm_compute; reflexivity).
    rewrite Hfix in H. exact H. }
  assert (Hone : (1 <= Double.div (Double.sub (Qabs logprob) 1) 4)%Q).
  { unfold Double.div.
    pose proof (round_mono 1 (Double.sub (Qabs logprob) 1 / 4)) as H.
    assert (Hfix : (Double.round 1 == 1)%Q) by (vm_compute; reflexivity).
    rewrite Hfix in H. apply H. apply Qle_shift_div_l; lra. }
  rewrite (clamp01_high Hone). vm_compute. reflexivity.
Qed.

(** What the loop guarantees for any start of the search. *)
Lemma lineHighlights_from lineText (tokens : list TokenProb) :
  forall searchPos,
    StronglySorted (fun a b => endChar a <= startChar b)
                   (lineHighlights lineText tokens searchPos) /\
    forall h, In h (lineHighlights lineText tokens searchPos) ->
      searchPos <= startChar h /\
      startChar h < endChar h /\
      endChar h <= String.length lineText /\
      exists tok,
        In tok tokens /\
        (logprob tok < CONFUSION_THRESHOLD)%Q /\
        String.substring (startChar h) (endChar h - startChar h) lineText
        = trim (token tok) /\
        backgroundColor h = getColor (logprob tok).
Proof.
  induction tokens as [|tok rest IH]; intros searchPos.
  - simpl. split; [constructor | intros h []].
  - cbn [lineHighlights].
    assert (Hskip :
              StronglySorted (fun a b => endChar a <= startChar b)
                             (lineHighlights lineText rest searchPos) /\
              forall h, In h (lineHighlights lineText rest searchPos) ->
                searchPos <= startChar h /\
                startChar h < endChar h /\
                endChar h <= String.length lineText /\
                exists tok0,
                  In tok0 (tok :: rest) /\
                  (logprob tok0 < CONFUSION_THRESHOLD)%Q /\
                  String.substring (startChar h) (endChar h - startChar h) lineText
                  = trim (token tok0) /\
                  backgroundColor h = getColor (logprob tok0)).
    { destruct (IH searchPos) as [Hs Hin]. split; [exact Hs|].
      intros h Hh. destruct (Hin h Hh) as (H1 & H2 & H3 & tok0 & H4 & H5).
      repeat split; try assumption. exists tok0. split; [right; exact H4 | exact H5]. }
    destruct (Qeq_bool (logprob tok) 0); [exact Hskip|]. cbv zeta.
    destruct (String.eqb_spec (trim (token tok)) "") as [Hempty | Hne];
      [exact Hskip|].
    destruct (Qle_bool CONFUSION_THRESHOLD (logprob tok)) eqn:Hconf;
      [exact Hskip|].
    destruct (indexOf lineText (trim (token tok)) searchPos) as [tokenPos|] eqn:Hidx;
      [|exact Hskip].
    destruct (indexOf_occurrence _ _ Hne Hidx) as (Hge & Hfit & Hsub).
    assert (Hlen : 0 < String.length (trim (token tok)))
      by (destruct (trim (token tok)); [contradiction | simpl; lia]).
    destruct (IH (tokenPos + String.length (trim (token tok)))) as [Hs Hin].
    split.
    + constructor; [exact Hs|]. apply Forall_forall. intros h Hh.
      destruct (Hin h Hh) as (H1 & _). cbn [endChar]. exact H1.
    + intros h [<- | Hh].
      * cbn [startChar endChar backgroundColor].
        split; [exact Hge|]. split; [lia|]. split; [exact Hfit|].
        exists tok. split; [left; reflexivity|]. split.
        -- apply Qnot_le_lt. intros Hle. apply Qle_bool_iff in Hle. congruence.
        -- split; [|reflexivity].
           replace (tokenPos + String.length (trim (token tok)) - tokenPos)
             with (String.length (trim (token tok))) by lia.
           exact Hsub.
      * destruct (Hin h Hh) as (H1 & H2 & H3 & tok0 & H4 & H5).
        split; [lia|]. split; [exact H2|]. split; [exact H3|].
        exists tok0. split; [right; exact H4 | exact H5].
Qed.

(** X29: the highlights the legacy [applyDecorations] puts on a line run
    from left to right without overlapping; each one lies inside the
    line, is not empty, covers an occurrence of the trimmed text of a
    token whose log-probability is below [CONFUSION_THRESHOLD = -1], and
    is coloured [getColor] of that token's log-probability:
    [rgba(255, g, 0, 0.4)] with [g] the green channel, which lies in
    [0..255].  The green channel does not grow as the log-probability
    falls and is [0] from [-5] down; it is the floor of a rounded product:
    a log-probability of [-4.2] gives [50]. *)
Theorem applyDecorations_line : forall lineText (tokens : list TokenProb),
  StronglySorted (fun a b => endChar a <= startChar b)
                 (lineHighlights lineText tokens 0) /\
  (forall h, In h (lineHighlights lineText tokens 0) ->
    startChar h < endChar h /\
    endChar h <= String.length lineText /\
    exists tok,
      In tok tokens /\
      (logprob tok < -1)%Q /\
      String.substring (startChar h) (endChar h - startChar h) lineText
      = trim (token tok) /\
      backgroundColor h = getColor (logprob tok) /\
      backgroundColor h = rgba255 (greenChannel (logprob tok)) /\
      (0 <= greenChannel (logprob tok) <= 255)%Z) /\
  (forall logprob logprob' : Q,
     (logprob <= logprob')%Q -> (logprob' <= 0)%Q ->
     (greenChannel logprob <= greenChannel logprob')%Z) /\
  (forall logprob : Q, (logprob <= -5)%Q -> greenChannel logprob = 0%Z) /\
  getColor (Double.round (-4.2)) = "rgba(255, 50, 0, 0.4)"%string.
Proof.
  intros lineText tokens.
  destruct (lineHighlights_from lineText tokens 0) as [Hs Hin].
  split; [exact Hs|]. split; [|split; [|split]].
  - intros h Hh.
    destruct (Hin h Hh) as (_ & H2 & H3 & tok & H4 & H5 & H6 & H7).
    split; [exact H2|]. split; [exact H3|].
    exists tok. split; [exact H4|]. split; [exact H5|]. split; [exact H6|].
    split; [exact H7|]. split; [exact H7 | apply greenChannel_range].
  - exact greenChannel_mono.
  - exact greenChannel_saturated.
  - vm_compute. reflexivity.
Qed.
End LegacyFacts.

(* ================================================================== *)
(** * [features/unifiedHud]: the glow of a salient token *)
(* ================================================================== *)

Section UnifiedSaliencyFacts.
Import Types JSMath SaliencyLens UnifiedSaliency.
Local Open Scope Q_scope.





End UnifiedSaliencyFacts.
